(** * The tunnel frame codec (tunnel.pb.go), embedded in Rocq

    The Go source is the gogo/protobuf output for tunnel.proto: the four
    messages Frame, DialRequest, Addr and Data, their Size / Marshal /
    Unmarshal methods, the varint helpers and skipTunnel, and the gRPC
    service descriptor of TunnelerService.

    Conventions of the embedding:
    - a Go [int] (64 bit) and a [uint64] are values of [Z]; every place where
      the source can wrap around is written with [int], [int32] or [uint64];
    - a [[]byte] is the list of its bytes; Go's nil slice is the empty list
      (the source never tells the two apart except to skip a copy of zero
      bytes);
    - a Go string is a [string]; its bytes are [list_byte_of_string];
    - a pointer that may be nil is an [option];
    - a function that returns [error] returns an [outcome]; a run-time panic
      (index or slice bounds out of range) is the outcome [Panic], so that
      its absence can be stated and proved. *)

From Stdlib Require Import String ZArith List Lia Bool.
From Stdlib.Strings Require Import Byte.
Import ListNotations.

Local Open Scope Z_scope.

(* ------------------------------------------------------------------ *)
(** ** Machine integers and bytes *)

Definition MaxInt : Z := 2 ^ 63 - 1.

(** Conversion to uint64: the low 64 bits. *)
Definition uint64 (z : Z) : Z := z mod 2 ^ 64.

(** Conversion to int (int64): the low 64 bits, read as two's complement. *)
Definition int (z : Z) : Z := (z + 2 ^ 63) mod 2 ^ 64 - 2 ^ 63.

(** Conversion to int32. *)
Definition int32 (z : Z) : Z := (z + 2 ^ 31) mod 2 ^ 32 - 2 ^ 31.

(** The value of a byte, as the source reads it in [b := dAtA[iNdEx]]. *)
Definition b2z (b : byte) : Z := Z.of_N (Byte.to_N b).

(** Conversion to uint8: the low 8 bits. *)
Definition uint8 (z : Z) : byte :=
  match Byte.of_N (Z.to_N (z mod 256)) with
  | Some b => b
  | None => x00
  end.

Definition len {A : Type} (s : list A) : Z := Z.of_nat (length s).

(** [len(s)] of a Go string: the number of its bytes. *)
Definition slen (s : string) : Z := len (list_byte_of_string s).

(** math/bits.Len64: the number of bits needed to represent [x], 0 for 0. *)
Definition Len64 (x : Z) : Z := if x =? 0 then 0 else Z.log2 x + 1.

(* ------------------------------------------------------------------ *)
(** ** Errors and outcomes *)

Inductive error : Type :=
| ErrInvalidLengthTunnel          (* "proto: negative length found during unmarshaling" *)
| ErrIntOverflowTunnel            (* "proto: integer overflow" *)
| ErrUnexpectedEndOfGroupTunnel   (* "proto: unexpected end of group" *)
| ErrUnexpectedEOF                (* io.ErrUnexpectedEOF *)
| ErrEndGroup (msg : string)      (* "proto: %s: wiretype end group for non-group" *)
| ErrIllegalTag (msg : string) (fieldNum wire : Z)
                                  (* "proto: %s: illegal tag %d (wire type %d)" *)
| ErrWrongWireType (wireType : Z) (field : string)
                                  (* "proto: wrong wireType = %d for field %s" *)
| ErrIllegalWireType (wireType : Z). (* "proto: illegal wireType %d" *)

Inductive outcome (A : Type) : Type :=
| Ok (a : A)       (* the function returned, with a nil error *)
| Err (e : error)  (* the function returned a non-nil error *)
| Panic            (* index or slice bounds out of range *)
| OutOfFuel.       (* the iteration bound of the model ran out *)

Arguments Ok {A} a.
Arguments Err {A} e.
Arguments Panic {A}.
Arguments OutOfFuel {A}.

Definition bind {A B : Type} (c : outcome A) (k : A -> outcome B) : outcome B :=
  match c with
  | Ok a => k a
  | Err e => Err e
  | Panic => Panic
  | OutOfFuel => OutOfFuel
  end.

Notation "x <- c ;; k" := (bind c (fun x => k))
  (at level 61, c at next level, right associativity).
Notation "' p <- c ;; k" := (bind c (fun x => let p := x in k))
  (at level 61, p pattern, c at next level, right associativity).

(** The function returned: with a value or with an error. *)
Definition returns {A : Type} (r : outcome A) : Prop :=
  match r with
  | Ok _ | Err _ => True
  | Panic | OutOfFuel => False
  end.

Definition is_error {A : Type} (r : outcome A) : Prop :=
  match r with
  | Err _ => True
  | _ => False
  end.

(** The function returned, and a value it returned satisfies [P]. *)
Definition safe {A : Type} (P : A -> Prop) (r : outcome A) : Prop :=
  match r with
  | Ok a => P a
  | Err _ => True
  | Panic | OutOfFuel => False
  end.

(* ------------------------------------------------------------------ *)
(** ** Slices *)

(** [dAtA[i]] *)
Definition index (dAtA : list byte) (i : Z) : outcome byte :=
  if (0 <=? i) && (i <? len dAtA) then
    match nth_error dAtA (Z.to_nat i) with
    | Some b => Ok b
    | None => Panic
    end
  else Panic.

(** [dAtA[lo:hi]] *)
Definition slice (dAtA : list byte) (lo hi : Z) : outcome (list byte) :=
  if (0 <=? lo) && (lo <=? hi) && (hi <=? len dAtA) then
    Ok (firstn (Z.to_nat (hi - lo)) (skipn (Z.to_nat lo) dAtA))
  else Panic.

(** [dAtA[lo:]] *)
Definition slice_from (dAtA : list byte) (lo : Z) : outcome (list byte) :=
  slice dAtA lo (len dAtA).

(** [dAtA[:hi]] *)
Definition slice_to (dAtA : list byte) (hi : Z) : outcome (list byte) :=
  slice dAtA 0 hi.

(** [dAtA[i] = b] *)
Definition store (dAtA : list byte) (i : Z) (b : byte) : outcome (list byte) :=
  if (0 <=? i) && (i <? len dAtA) then
    Ok (firstn (Z.to_nat i) dAtA ++ b :: skipn (S (Z.to_nat i)) dAtA)
  else Panic.

(** [copy(dAtA[i:], src)]: copies min(len(dAtA[i:]), len(src)) bytes. *)
Definition copy_at (dAtA : list byte) (i : Z) (src : list byte)
  : outcome (list byte) :=
  dst <- slice_from dAtA i ;;
  let n := Nat.min (length dst) (length src) in
  Ok (firstn (Z.to_nat i) dAtA ++ firstn n src ++ skipn n dst).

(** [make([]byte, size)] *)
Definition make (size : Z) : outcome (list byte) :=
  if (0 <=? size) && (size <=? MaxInt) then Ok (repeat x00 (Z.to_nat size))
  else Panic.

(* ------------------------------------------------------------------ *)
(** ** The messages *)

Record Addr : Type := mkAddr {
  Network : string;
  Address : string;
  Addr_XXX_unrecognized : list byte
}.

Record DialRequest : Type := mkDialRequest {
  ServerID : string;
  ConnType : string;
  To : option Addr;
  DialRequest_XXX_unrecognized : list byte
}.

Record Data : Type := mkData {
  Bytes : list byte;
  Data_XXX_unrecognized : list byte
}.

(** The oneof wrapper: a [*Frame_DialRequest] or a [*Frame_Data], each
    holding a pointer to its message. *)
Inductive isFrame_Message : Type :=
| Frame_DialRequest (d : option DialRequest)
| Frame_Data (d : option Data).

Record Frame : Type := mkFrame {
  Message : option isFrame_Message;
  Frame_XXX_unrecognized : list byte
}.

(** The zero values [&Addr{}], [&DialRequest{}], [&Data{}], [new(Frame)]. *)
Definition Addr_zero : Addr := mkAddr "" "" [].
Definition DialRequest_zero : DialRequest := mkDialRequest "" "" None [].
Definition Data_zero : Data := mkData [] [].
Definition Frame_zero : Frame := mkFrame None [].

(* ------------------------------------------------------------------ *)
(** ** Size *)

(** [sovTunnel]: (Len64(x|1) + 6) / 7. *)
Definition sovTunnel (x : Z) : Z := (Len64 (Z.lor x 1) + 6) / 7.

(** The [if l > 0 { n += 1 + l + sovTunnel(uint64(l)) }] of a string or
    bytes field. *)
Definition size_field (l : Z) : Z :=
  if 0 <? l then 1 + l + sovTunnel (uint64 l) else 0.

(** The [n += 1 + l + sovTunnel(uint64(l))] of an embedded message. *)
Definition size_msg (l : Z) : Z := 1 + l + sovTunnel (uint64 l).

(** The sizes are sums of lengths of values held in memory.  Every theorem
    about Marshal assumes that the size is at most [MaxInt] (the
    [make([]byte, size)] of Marshal needs it), and below that bound none of
    these additions wraps, so they are written in [Z]. *)
Definition Addr_Size (m : Addr) : Z :=
  size_field (slen (Network m))
  + size_field (slen (Address m))
  + len (Addr_XXX_unrecognized m).

Definition DialRequest_Size (m : DialRequest) : Z :=
  size_field (slen (ServerID m))
  + size_field (slen (ConnType m))
  + match To m with
    | Some a => size_msg (Addr_Size a)
    | None => 0
    end
  + len (DialRequest_XXX_unrecognized m).

Definition Data_Size (m : Data) : Z :=
  size_field (len (Bytes m)) + len (Data_XXX_unrecognized m).

(** [Frame_DialRequest.Size] and [Frame_Data.Size], through the interface. *)
Definition isFrame_Message_Size (m : isFrame_Message) : Z :=
  match m with
  | Frame_DialRequest (Some d) => size_msg (DialRequest_Size d)
  | Frame_DialRequest None => 0
  | Frame_Data (Some d) => size_msg (Data_Size d)
  | Frame_Data None => 0
  end.

Definition Frame_Size (m : Frame) : Z :=
  match Message m with
  | Some x => isFrame_Message_Size x
  | None => 0
  end
  + len (Frame_XXX_unrecognized m).

(* ------------------------------------------------------------------ *)
(** ** Marshal

    The generated code fills a buffer of [Size()] bytes from its end towards
    its start: [i] is the index of the first byte written so far.  A callee
    that is handed a sub-slice writes into the caller's array; the model
    puts the bytes the callee returns back in place. *)

(** The loop of [encodeVarintTunnel]; a uint64 has at most ten groups of
    seven bits. *)
Fixpoint encodeVarint_loop (fuel : nat) (dAtA : list byte) (offset v : Z)
  : outcome (list byte) :=
  match fuel with
  | O => OutOfFuel
  | S fuel =>
      if 128 <=? v then
        dAtA <- store dAtA offset (uint8 (Z.lor (Z.land v 127) 128)) ;;
        encodeVarint_loop fuel dAtA (offset + 1) (Z.shiftr v 7)
      else store dAtA offset (uint8 v)
  end.

Definition encodeVarintTunnel (dAtA : list byte) (offset v : Z)
  : outcome (list byte * Z) :=
  let offset := offset - sovTunnel v in
  let base := offset in
  dAtA <- encodeVarint_loop 10 dAtA offset v ;;
  Ok (dAtA, base).

(** [if m.XXX_unrecognized != nil { i -= len(...); copy(dAtA[i:], ...) }] *)
Definition put_unrecognized (dAtA : list byte) (i : Z) (u : list byte)
  : outcome (list byte * Z) :=
  match u with
  | [] => Ok (dAtA, i)
  | _ :: _ =>
      let i := i - len u in
      dAtA <- copy_at dAtA i u ;;
      Ok (dAtA, i)
  end.

(** A string or bytes field:
    [if len(s) > 0 { i -= len(s); copy(dAtA[i:], s);
                     i = encodeVarintTunnel(dAtA, i, uint64(len(s)));
                     i--; dAtA[i] = tag }] *)
Definition put_field (dAtA : list byte) (i : Z) (tag : byte) (s : list byte)
  : outcome (list byte * Z) :=
  if 0 <? len s then
    let i := i - len s in
    dAtA <- copy_at dAtA i s ;;
    '(dAtA, i) <- encodeVarintTunnel dAtA i (uint64 (len s)) ;;
    let i := i - 1 in
    dAtA <- store dAtA i tag ;;
    Ok (dAtA, i)
  else Ok (dAtA, i).

(** An embedded message:
    [size, err := x.MarshalToSizedBuffer(dAtA[:i]); if err != nil {...};
     i -= size; i = encodeVarintTunnel(dAtA, i, uint64(size));
     i--; dAtA[i] = tag] *)
Definition put_msg {M : Type}
  (MarshalToSizedBuffer : M -> list byte -> outcome (list byte * Z))
  (dAtA : list byte) (i : Z) (tag : byte) (x : M) : outcome (list byte * Z) :=
  pre <- slice_to dAtA i ;;
  '(pre, size) <- MarshalToSizedBuffer x pre ;;
  let dAtA := pre ++ skipn (Z.to_nat i) dAtA in
  let i := i - size in
  '(dAtA, i) <- encodeVarintTunnel dAtA i (uint64 size) ;;
  let i := i - 1 in
  dAtA <- store dAtA i tag ;;
  Ok (dAtA, i).

(** [Marshal]: [size := m.Size(); dAtA = make([]byte, size);
    n, err := m.MarshalToSizedBuffer(dAtA[:size]); ...; return dAtA[:n], nil] *)
Definition marshal_with {M : Type} (Size : M -> Z)
  (MarshalToSizedBuffer : M -> list byte -> outcome (list byte * Z))
  (m : M) : outcome (list byte) :=
  let size := Size m in
  dAtA <- make size ;;
  buf <- slice_to dAtA size ;;
  '(buf, n) <- MarshalToSizedBuffer m buf ;;
  let dAtA := buf ++ skipn (Z.to_nat size) dAtA in
  slice_to dAtA n.

Definition Addr_MarshalToSizedBuffer (m : Addr) (dAtA : list byte)
  : outcome (list byte * Z) :=
  let i := len dAtA in
  '(dAtA, i) <- put_unrecognized dAtA i (Addr_XXX_unrecognized m) ;;
  '(dAtA, i) <- put_field dAtA i x12 (list_byte_of_string (Address m)) ;;
  '(dAtA, i) <- put_field dAtA i x0a (list_byte_of_string (Network m)) ;;
  Ok (dAtA, len dAtA - i).

Definition Addr_Marshal : Addr -> outcome (list byte) :=
  marshal_with Addr_Size Addr_MarshalToSizedBuffer.

Definition DialRequest_MarshalToSizedBuffer (m : DialRequest) (dAtA : list byte)
  : outcome (list byte * Z) :=
  let i := len dAtA in
  '(dAtA, i) <- put_unrecognized dAtA i (DialRequest_XXX_unrecognized m) ;;
  '(dAtA, i) <- match To m with
                | Some a => put_msg Addr_MarshalToSizedBuffer dAtA i x1a a
                | None => Ok (dAtA, i)
                end ;;
  '(dAtA, i) <- put_field dAtA i x12 (list_byte_of_string (ConnType m)) ;;
  '(dAtA, i) <- put_field dAtA i x0a (list_byte_of_string (ServerID m)) ;;
  Ok (dAtA, len dAtA - i).

Definition DialRequest_Marshal : DialRequest -> outcome (list byte) :=
  marshal_with DialRequest_Size DialRequest_MarshalToSizedBuffer.

Definition Data_MarshalToSizedBuffer (m : Data) (dAtA : list byte)
  : outcome (list byte * Z) :=
  let i := len dAtA in
  '(dAtA, i) <- put_unrecognized dAtA i (Data_XXX_unrecognized m) ;;
  '(dAtA, i) <- put_field dAtA i x0a (Bytes m) ;;
  Ok (dAtA, len dAtA - i).

Definition Data_Marshal : Data -> outcome (list byte) :=
  marshal_with Data_Size Data_MarshalToSizedBuffer.

Definition Frame_DialRequest_MarshalToSizedBuffer (d : option DialRequest)
  (dAtA : list byte) : outcome (list byte * Z) :=
  let i := len dAtA in
  '(dAtA, i) <- match d with
                | Some d => put_msg DialRequest_MarshalToSizedBuffer dAtA i x0a d
                | None => Ok (dAtA, i)
                end ;;
  Ok (dAtA, len dAtA - i).

Definition Frame_Data_MarshalToSizedBuffer (d : option Data)
  (dAtA : list byte) : outcome (list byte * Z) :=
  let i := len dAtA in
  '(dAtA, i) <- match d with
                | Some d => put_msg Data_MarshalToSizedBuffer dAtA i x12 d
                | None => Ok (dAtA, i)
                end ;;
  Ok (dAtA, len dAtA - i).

(** [Frame_DialRequest.MarshalTo] and [Frame_Data.MarshalTo]:
    [size := m.Size(); return m.MarshalToSizedBuffer(dAtA[:size])] *)
Definition isFrame_Message_MarshalTo (m : isFrame_Message) (dAtA : list byte)
  : outcome (list byte * Z) :=
  let size := isFrame_Message_Size m in
  buf <- slice_to dAtA size ;;
  '(buf, n) <- match m with
               | Frame_DialRequest d => Frame_DialRequest_MarshalToSizedBuffer d buf
               | Frame_Data d => Frame_Data_MarshalToSizedBuffer d buf
               end ;;
  Ok (buf ++ skipn (Z.to_nat size) dAtA, n).

Definition Frame_MarshalToSizedBuffer (m : Frame) (dAtA : list byte)
  : outcome (list byte * Z) :=
  let i := len dAtA in
  '(dAtA, i) <- put_unrecognized dAtA i (Frame_XXX_unrecognized m) ;;
  '(dAtA, i) <- match Message m with
                | Some x =>
                    let size := isFrame_Message_Size x in
                    let i := i - size in
                    sub <- slice_from dAtA i ;;
                    '(sub, _) <- isFrame_Message_MarshalTo x sub ;;
                    Ok (firstn (Z.to_nat i) dAtA ++ sub, i)
                | None => Ok (dAtA, i)
                end ;;
  Ok (dAtA, len dAtA - i).

Definition Frame_Marshal : Frame -> outcome (list byte) :=
  marshal_with Frame_Size Frame_MarshalToSizedBuffer.

(* ------------------------------------------------------------------ *)
(** ** Unmarshal *)

(** The varint loop
    [for shift := uint(0); ; shift += 7 {
       if shift >= 64 { return ErrIntOverflowTunnel }
       if iNdEx >= l { return io.ErrUnexpectedEOF }
       b := dAtA[iNdEx]; iNdEx++
       x |= T(b&0x7F) << shift
       if b < 0x80 { break } }]
    for an accumulator [x] of type [T]; [wrap] is the conversion to [T]
    ([uint64] for wire and stringLen, [int] for msglen, byteLen and length).
    The loop returns after at most eleven tests of [shift]. *)
Fixpoint varint_loop (fuel : nat) (wrap : Z -> Z) (dAtA : list byte)
  (l shift x iNdEx : Z) : outcome (Z * Z) :=
  match fuel with
  | O => OutOfFuel
  | S fuel =>
      if 64 <=? shift then Err ErrIntOverflowTunnel
      else if l <=? iNdEx then Err ErrUnexpectedEOF
      else
        b <- index dAtA iNdEx ;;
        let iNdEx := iNdEx + 1 in
        let x := Z.lor x (wrap (Z.shiftl (Z.land (b2z b) 127) shift)) in
        if b2z b <? 128 then Ok (x, iNdEx)
        else varint_loop fuel wrap dAtA l (shift + 7) x iNdEx
  end.

Definition read_uvarint (dAtA : list byte) (l iNdEx : Z) : outcome (Z * Z) :=
  varint_loop 11 uint64 dAtA l 0 0 iNdEx.

Definition read_ivarint (dAtA : list byte) (l iNdEx : Z) : outcome (Z * Z) :=
  varint_loop 11 int dAtA l 0 0 iNdEx.

(** The varint loop of skipTunnel's case 0, which keeps no value:
    [iNdEx++; if dAtA[iNdEx-1] < 0x80 { break }]. *)
Fixpoint skip_varint_loop (fuel : nat) (dAtA : list byte) (l shift iNdEx : Z)
  : outcome Z :=
  match fuel with
  | O => OutOfFuel
  | S fuel =>
      if 64 <=? shift then Err ErrIntOverflowTunnel
      else if l <=? iNdEx then Err ErrUnexpectedEOF
      else
        let iNdEx := iNdEx + 1 in
        b <- index dAtA (iNdEx - 1) ;;
        if b2z b <? 128 then Ok iNdEx
        else skip_varint_loop fuel dAtA l (shift + 7) iNdEx
  end.

(** The body of skipTunnel's [for iNdEx < l] loop; the [switch wireType] is
    the chain of tests it stands for.  Every turn reads at least the tag
    byte, so [S (length dAtA)] turns are enough. *)
Fixpoint skipTunnel_loop (fuel : nat) (dAtA : list byte) (iNdEx depth : Z)
  : outcome Z :=
  let l := len dAtA in
  match fuel with
  | O => OutOfFuel
  | S fuel =>
      if iNdEx <? l then
        '(wire, iNdEx) <- read_uvarint dAtA l iNdEx ;;
        let wireType := Z.land wire 7 in
        '(iNdEx, depth) <-
          if wireType =? 0 then
            iNdEx <- skip_varint_loop 11 dAtA l 0 iNdEx ;;
            Ok (iNdEx, depth)
          else if wireType =? 1 then Ok (int (iNdEx + 8), depth)
          else if wireType =? 2 then
            '(length, iNdEx) <- read_ivarint dAtA l iNdEx ;;
            if length <? 0 then Err ErrInvalidLengthTunnel
            else Ok (int (iNdEx + length), depth)
          else if wireType =? 3 then Ok (iNdEx, depth + 1)
          else if wireType =? 4 then
            if depth =? 0 then Err ErrUnexpectedEndOfGroupTunnel
            else Ok (iNdEx, depth - 1)
          else if wireType =? 5 then Ok (int (iNdEx + 4), depth)
          else Err (ErrIllegalWireType wireType) ;;
        if iNdEx <? 0 then Err ErrInvalidLengthTunnel
        else if depth =? 0 then Ok iNdEx
        else skipTunnel_loop fuel dAtA iNdEx depth
      else Err ErrUnexpectedEOF
  end.

Definition skipTunnel (dAtA : list byte) : outcome Z :=
  skipTunnel_loop (S (length dAtA)) dAtA 0 0.

(** The head of every turn of an Unmarshal loop: the tag varint, then
    [fieldNum := int32(wire >> 3); wireType := int(wire & 0x7)], the
    end-group test and the [fieldNum <= 0] test. *)
Definition read_tag (msg : string) (dAtA : list byte) (l iNdEx : Z)
  : outcome (Z * Z * Z) :=
  '(wire, iNdEx) <- read_uvarint dAtA l iNdEx ;;
  let fieldNum := int32 (Z.shiftr wire 3) in
  let wireType := Z.land wire 7 in
  if wireType =? 4 then Err (ErrEndGroup msg)
  else if fieldNum <=? 0 then Err (ErrIllegalTag msg fieldNum wire)
  else Ok (fieldNum, wireType, iNdEx).

(** [if wireType != 2 { return fmt.Errorf("proto: wrong wireType ...") }] *)
Definition expect_bytes (wireType : Z) (field : string) : outcome unit :=
  if negb (wireType =? 2) then Err (ErrWrongWireType wireType field)
  else Ok tt.

(** After the length varint:
    [if msglen < 0 { return ErrInvalidLengthTunnel }
     postIndex := iNdEx + msglen
     if postIndex < 0 { return ErrInvalidLengthTunnel }
     if postIndex > l { return io.ErrUnexpectedEOF }] *)
Definition post_index (l iNdEx msglen : Z) : outcome Z :=
  if msglen <? 0 then Err ErrInvalidLengthTunnel
  else
    let postIndex := int (iNdEx + msglen) in
    if postIndex <? 0 then Err ErrInvalidLengthTunnel
    else if l <? postIndex then Err ErrUnexpectedEOF
    else Ok postIndex.

(** A string field: [var stringLen uint64], the varint loop,
    [intStringLen := int(stringLen)], the three tests, and
    [dAtA[iNdEx:postIndex]]. Returns the bytes and [postIndex]. *)
Definition read_string (dAtA : list byte) (l iNdEx : Z)
  : outcome (list byte * Z) :=
  '(stringLen, iNdEx) <- read_uvarint dAtA l iNdEx ;;
  let intStringLen := int stringLen in
  postIndex <- post_index l iNdEx intStringLen ;;
  s <- slice dAtA iNdEx postIndex ;;
  Ok (s, postIndex).

(** A bytes or message field: [var msglen int], the varint loop, the three
    tests, and [dAtA[iNdEx:postIndex]]. *)
Definition read_bytes (dAtA : list byte) (l iNdEx : Z)
  : outcome (list byte * Z) :=
  '(msglen, iNdEx) <- read_ivarint dAtA l iNdEx ;;
  postIndex <- post_index l iNdEx msglen ;;
  s <- slice dAtA iNdEx postIndex ;;
  Ok (s, postIndex).

(** The default branch:
    [iNdEx = preIndex
     skippy, err := skipTunnel(dAtA[iNdEx:])
     if err != nil { return err }
     if (skippy < 0) || (iNdEx+skippy) < 0 { return ErrInvalidLengthTunnel }
     if (iNdEx + skippy) > l { return io.ErrUnexpectedEOF }
     m.XXX_unrecognized = append(m.XXX_unrecognized, dAtA[iNdEx:iNdEx+skippy]...)
     iNdEx += skippy]
    Returns the bytes to append and the new [iNdEx]. *)
Definition skip_unknown (dAtA : list byte) (l preIndex : Z)
  : outcome (list byte * Z) :=
  let iNdEx := preIndex in
  sub <- slice_from dAtA iNdEx ;;
  skippy <- skipTunnel sub ;;
  if (skippy <? 0) || (int (iNdEx + skippy) <? 0) then Err ErrInvalidLengthTunnel
  else if l <? int (iNdEx + skippy) then Err ErrUnexpectedEOF
  else
    s <- slice dAtA iNdEx (int (iNdEx + skippy)) ;;
    Ok (s, int (iNdEx + skippy)).

(** The end of every Unmarshal:
    [if iNdEx > l { return io.ErrUnexpectedEOF }; return nil] *)
Definition finish {M : Type} (m : M) (l iNdEx : Z) : outcome M :=
  if l <? iNdEx then Err ErrUnexpectedEOF else Ok m.

(** The Unmarshal methods take the receiver [m], which they update field by
    field, and return it when they return a nil error.  The
    [switch fieldNum] is the chain of tests it stands for.  Every turn of the
    [for iNdEx < l] loop moves [iNdEx] forward, so [S (length dAtA)] turns
    are enough. *)
Fixpoint Addr_Unmarshal_loop (fuel : nat) (m : Addr) (dAtA : list byte)
  (iNdEx : Z) : outcome Addr :=
  let l := len dAtA in
  match fuel with
  | O => OutOfFuel
  | S fuel =>
      if iNdEx <? l then
        let preIndex := iNdEx in
        '(fieldNum, wireType, iNdEx) <- read_tag "Addr" dAtA l iNdEx ;;
        if fieldNum =? 1 then
            _ <- expect_bytes wireType "Network" ;;
            '(s, postIndex) <- read_string dAtA l iNdEx ;;
            let m := mkAddr (string_of_list_byte s) (Address m)
                            (Addr_XXX_unrecognized m) in
            Addr_Unmarshal_loop fuel m dAtA postIndex
        else if fieldNum =? 2 then
            _ <- expect_bytes wireType "Address" ;;
            '(s, postIndex) <- read_string dAtA l iNdEx ;;
            let m := mkAddr (Network m) (string_of_list_byte s)
                            (Addr_XXX_unrecognized m) in
            Addr_Unmarshal_loop fuel m dAtA postIndex
        else
            '(s, iNdEx) <- skip_unknown dAtA l preIndex ;;
            let m := mkAddr (Network m) (Address m)
                            (Addr_XXX_unrecognized m ++ s) in
            Addr_Unmarshal_loop fuel m dAtA iNdEx
      else finish m l iNdEx
  end.

Definition Addr_Unmarshal (m : Addr) (dAtA : list byte) : outcome Addr :=
  Addr_Unmarshal_loop (S (length dAtA)) m dAtA 0.

Fixpoint DialRequest_Unmarshal_loop (fuel : nat) (m : DialRequest)
  (dAtA : list byte) (iNdEx : Z) : outcome DialRequest :=
  let l := len dAtA in
  match fuel with
  | O => OutOfFuel
  | S fuel =>
      if iNdEx <? l then
        let preIndex := iNdEx in
        '(fieldNum, wireType, iNdEx) <- read_tag "DialRequest" dAtA l iNdEx ;;
        if fieldNum =? 1 then
            _ <- expect_bytes wireType "ServerID" ;;
            '(s, postIndex) <- read_string dAtA l iNdEx ;;
            let m := mkDialRequest (string_of_list_byte s) (ConnType m) (To m)
                                   (DialRequest_XXX_unrecognized m) in
            DialRequest_Unmarshal_loop fuel m dAtA postIndex
        else if fieldNum =? 2 then
            _ <- expect_bytes wireType "ConnType" ;;
            '(s, postIndex) <- read_string dAtA l iNdEx ;;
            let m := mkDialRequest (ServerID m) (string_of_list_byte s) (To m)
                                   (DialRequest_XXX_unrecognized m) in
            DialRequest_Unmarshal_loop fuel m dAtA postIndex
        else if fieldNum =? 3 then
            _ <- expect_bytes wireType "To" ;;
            '(s, postIndex) <- read_bytes dAtA l iNdEx ;;
            (* if m.To == nil { m.To = &Addr{} } *)
            let to := match To m with
                      | Some a => a
                      | None => Addr_zero
                      end in
            to <- Addr_Unmarshal to s ;;
            let m := mkDialRequest (ServerID m) (ConnType m) (Some to)
                                   (DialRequest_XXX_unrecognized m) in
            DialRequest_Unmarshal_loop fuel m dAtA postIndex
        else
            '(s, iNdEx) <- skip_unknown dAtA l preIndex ;;
            let m := mkDialRequest (ServerID m) (ConnType m) (To m)
                                   (DialRequest_XXX_unrecognized m ++ s) in
            DialRequest_Unmarshal_loop fuel m dAtA iNdEx
      else finish m l iNdEx
  end.

Definition DialRequest_Unmarshal (m : DialRequest) (dAtA : list byte)
  : outcome DialRequest :=
  DialRequest_Unmarshal_loop (S (length dAtA)) m dAtA 0.

Fixpoint Data_Unmarshal_loop (fuel : nat) (m : Data) (dAtA : list byte)
  (iNdEx : Z) : outcome Data :=
  let l := len dAtA in
  match fuel with
  | O => OutOfFuel
  | S fuel =>
      if iNdEx <? l then
        let preIndex := iNdEx in
        '(fieldNum, wireType, iNdEx) <- read_tag "Data" dAtA l iNdEx ;;
        if fieldNum =? 1 then
            _ <- expect_bytes wireType "Bytes" ;;
            '(s, postIndex) <- read_bytes dAtA l iNdEx ;;
            (* m.Bytes = append(m.Bytes[:0], dAtA[iNdEx:postIndex]...) *)
            let m := mkData s (Data_XXX_unrecognized m) in
            Data_Unmarshal_loop fuel m dAtA postIndex
        else
            '(s, iNdEx) <- skip_unknown dAtA l preIndex ;;
            let m := mkData (Bytes m) (Data_XXX_unrecognized m ++ s) in
            Data_Unmarshal_loop fuel m dAtA iNdEx
      else finish m l iNdEx
  end.

Definition Data_Unmarshal (m : Data) (dAtA : list byte) : outcome Data :=
  Data_Unmarshal_loop (S (length dAtA)) m dAtA 0.

Fixpoint Frame_Unmarshal_loop (fuel : nat) (m : Frame) (dAtA : list byte)
  (iNdEx : Z) : outcome Frame :=
  let l := len dAtA in
  match fuel with
  | O => OutOfFuel
  | S fuel =>
      if iNdEx <? l then
        let preIndex := iNdEx in
        '(fieldNum, wireType, iNdEx) <- read_tag "Frame" dAtA l iNdEx ;;
        if fieldNum =? 1 then
            _ <- expect_bytes wireType "DialRequest" ;;
            '(s, postIndex) <- read_bytes dAtA l iNdEx ;;
            v <- DialRequest_Unmarshal DialRequest_zero s ;;
            let m := mkFrame (Some (Frame_DialRequest (Some v)))
                             (Frame_XXX_unrecognized m) in
            Frame_Unmarshal_loop fuel m dAtA postIndex
        else if fieldNum =? 2 then
            _ <- expect_bytes wireType "Data" ;;
            '(s, postIndex) <- read_bytes dAtA l iNdEx ;;
            v <- Data_Unmarshal Data_zero s ;;
            let m := mkFrame (Some (Frame_Data (Some v)))
                             (Frame_XXX_unrecognized m) in
            Frame_Unmarshal_loop fuel m dAtA postIndex
        else
            '(s, iNdEx) <- skip_unknown dAtA l preIndex ;;
            let m := mkFrame (Message m) (Frame_XXX_unrecognized m ++ s) in
            Frame_Unmarshal_loop fuel m dAtA iNdEx
      else finish m l iNdEx
  end.

Definition Frame_Unmarshal (m : Frame) (dAtA : list byte) : outcome Frame :=
  Frame_Unmarshal_loop (S (length dAtA)) m dAtA 0.

(** Decoding a received message: [m := new(Frame)], then [m.Unmarshal]. *)
Definition decode (dAtA : list byte) : outcome Frame :=
  Frame_Unmarshal Frame_zero dAtA.

Definition encode : Frame -> outcome (list byte) := Frame_Marshal.

(* ------------------------------------------------------------------ *)
(** ** The wire format

    What Marshal is shown to produce, written front to back.  These
    functions are the reference the buffer-filling code is compared with. *)

(** The base-128 varint of [v], least significant group first. *)
Fixpoint varint_bytes (fuel : nat) (v : Z) : list byte :=
  match fuel with
  | O => []
  | S fuel =>
      if 128 <=? v then
        uint8 (Z.lor (Z.land v 127) 128) :: varint_bytes fuel (Z.shiftr v 7)
      else [uint8 v]
  end.

Definition varint (v : Z) : list byte := varint_bytes 10 v.

(** A string or bytes field, left out when it is empty. *)
Definition wire_field (tag : byte) (s : list byte) : list byte :=
  if 0 <? len s then tag :: varint (len s) ++ s else [].

(** An embedded message. *)
Definition wire_msg (tag : byte) (body : list byte) : list byte :=
  tag :: varint (len body) ++ body.

Definition Addr_wire (m : Addr) : list byte :=
  wire_field x0a (list_byte_of_string (Network m))
  ++ wire_field x12 (list_byte_of_string (Address m))
  ++ Addr_XXX_unrecognized m.

Definition DialRequest_wire (m : DialRequest) : list byte :=
  wire_field x0a (list_byte_of_string (ServerID m))
  ++ wire_field x12 (list_byte_of_string (ConnType m))
  ++ match To m with
     | Some a => wire_msg x1a (Addr_wire a)
     | None => []
     end
  ++ DialRequest_XXX_unrecognized m.

Definition Data_wire (m : Data) : list byte :=
  wire_field x0a (Bytes m) ++ Data_XXX_unrecognized m.

Definition isFrame_Message_wire (m : isFrame_Message) : list byte :=
  match m with
  | Frame_DialRequest (Some d) => wire_msg x0a (DialRequest_wire d)
  | Frame_DialRequest None => []
  | Frame_Data (Some d) => wire_msg x12 (Data_wire d)
  | Frame_Data None => []
  end.

Definition Frame_wire (m : Frame) : list byte :=
  match Message m with
  | Some x => isFrame_Message_wire x
  | None => []
  end
  ++ Frame_XXX_unrecognized m.

(** The bytes written so far: [buf] is the buffer [buf0] the function was
    given, with its part from index [i] on replaced by [done]. *)
Definition filled (buf0 : list byte) (i : Z) (done buf : list byte) : Prop :=
  0 <= i /\ i + len done = len buf0 /\ buf = firstn (Z.to_nat i) buf0 ++ done.

(** [MarshalToSizedBuffer x] writes the wire form of [x], [Size x] bytes
    long, at the end of any buffer that has room for it, and leaves the
    bytes before it as they were. *)
Definition writes_back {M : Type} (Size : M -> Z) (wire : M -> list byte)
  (MarshalToSizedBuffer : M -> list byte -> outcome (list byte * Z))
  (x : M) : Prop :=
  len (wire x) = Size x /\
  forall buf, Size x <= len buf ->
    MarshalToSizedBuffer x buf
    = Ok (firstn (Z.to_nat (len buf - Size x)) buf ++ wire x, Size x).

(** The loop has a turn left for every byte from [i] on, and one more. *)
Definition enough (fuel : nat) (buf : list byte) (i : Z) : Prop :=
  len buf - i < Z.of_nat fuel.

(* ------------------------------------------------------------------ *)
(** ** Known and unknown fields *)

(** The field numbers each Unmarshal has a case for. *)
Definition Frame_known (fieldNum : Z) : bool :=
  (fieldNum =? 1) || (fieldNum =? 2).
Definition DialRequest_known (fieldNum : Z) : bool :=
  (fieldNum =? 1) || (fieldNum =? 2) || (fieldNum =? 3).
Definition Addr_known (fieldNum : Z) : bool :=
  (fieldNum =? 1) || (fieldNum =? 2).
Definition Data_known (fieldNum : Z) : bool :=
  fieldNum =? 1.

(** [uf] is one well-formed field that the message has no case for: its tag
    is legal, its number is not a known one, and skipTunnel accepts exactly
    these bytes. *)
Definition unknown_field (known : Z -> bool) (uf : list byte) : bool :=
  match read_tag "" uf (len uf) 0 with
  | Ok (fieldNum, _, _) =>
      negb (known fieldNum)
      && match skipTunnel uf with
         | Ok n => n =? len uf
         | _ => false
         end
  | _ => false
  end.

(** A sequence of such fields, one after the other. *)
Inductive unknown_fields (known : Z -> bool) : list byte -> Prop :=
| unknown_nil : unknown_fields known []
| unknown_app (uf rest : list byte) :
    unknown_field known uf = true ->
    unknown_fields known rest ->
    unknown_fields known (uf ++ rest).

(** Messages whose unrecognized bytes are what Unmarshal can have put
    there: well-formed unknown fields. *)
Definition Addr_wf (m : Addr) : Prop :=
  unknown_fields Addr_known (Addr_XXX_unrecognized m).

Definition DialRequest_wf (m : DialRequest) : Prop :=
  unknown_fields DialRequest_known (DialRequest_XXX_unrecognized m)
  /\ match To m with
     | Some a => Addr_wf a
     | None => True
     end.

Definition Data_wf (m : Data) : Prop :=
  unknown_fields Data_known (Data_XXX_unrecognized m).

Definition Frame_wf (m : Frame) : Prop :=
  unknown_fields Frame_known (Frame_XXX_unrecognized m)
  /\ match Message m with
     | Some (Frame_DialRequest (Some d)) => DialRequest_wf d
     | Some (Frame_Data (Some d)) => Data_wf d
     | Some (Frame_DialRequest None) | Some (Frame_Data None) => False
     | None => True
     end.

(** Messages built from the fields of the schema alone: nothing
    unrecognized, and for a Frame one of its two variants with its payload. *)
Definition Addr_plain (m : Addr) : Prop :=
  Addr_XXX_unrecognized m = [].

Definition DialRequest_plain (m : DialRequest) : Prop :=
  DialRequest_XXX_unrecognized m = []
  /\ match To m with
     | Some a => Addr_plain a
     | None => True
     end.

Definition Data_plain (m : Data) : Prop :=
  Data_XXX_unrecognized m = [].

Definition Frame_plain (m : Frame) : Prop :=
  Frame_XXX_unrecognized m = []
  /\ match Message m with
     | Some (Frame_DialRequest (Some d)) => DialRequest_plain d
     | Some (Frame_Data (Some d)) => Data_plain d
     | _ => False
     end.


(* ------------------------------------------------------------------ *)
(** ** The service descriptor *)

(** The messages of tunnel.proto, as types of a stream's Send and Recv. *)
Inductive message_type : Type :=
| Frame_type | DialRequest_type | Addr_type | Data_type.

(** grpc.MethodDesc (a unary RPC) and grpc.StreamDesc (a streaming RPC). *)
Record MethodDesc : Type := mkMethodDesc {
  MethodName : string
}.

Inductive handler : Type :=
| _TunnelerService_Tunnel_Handler.

Record StreamDesc : Type := mkStreamDesc {
  StreamName : string;
  Handler : handler;
  ServerStreams : bool;
  ClientStreams : bool
}.

Record ServiceDesc : Type := mkServiceDesc {
  ServiceName : string;
  Methods : list MethodDesc;
  Streams : list StreamDesc;
  Metadata : string
}.

Definition _TunnelerService_serviceDesc : ServiceDesc :=
  mkServiceDesc
    "api.TunnelerService"
    []
    [ mkStreamDesc "Tunnel" _TunnelerService_Tunnel_Handler true true ]
    "tunnel.proto".

(** The method sets of the stream interfaces: the message types of
    Send, which takes a pointer to a Frame, and Recv, which returns one. *)
Record stream_interface : Type := mkStreamInterface {
  Send : message_type;
  Recv : message_type
}.

Definition TunnelerService_TunnelClient : stream_interface :=
  mkStreamInterface Frame_type Frame_type.

Definition TunnelerService_TunnelServer : stream_interface :=
  mkStreamInterface Frame_type Frame_type.

(** The methods of the TunnelerServiceClient and TunnelerServiceServer
    interfaces, by name. *)
Definition TunnelerServiceClient : list string := [ "Tunnel"%string ].
Definition TunnelerServiceServer : list string := [ "Tunnel"%string ].

(** The names of all RPCs a descriptor registers, unary and streaming. *)
Definition rpc_names (d : ServiceDesc) : list string :=
  map MethodName (Methods d) ++ map StreamName (Streams d).

(** A streaming RPC in which both sides stream. *)
Definition bidirectional (s : StreamDesc) : bool :=
  ServerStreams s && ClientStreams s.

(* ------------------------------------------------------------------ *)
(** ** The stream protocol state machine *)

Module Session.

(** Modelled from the spec: the per-stream state machine of section 4.3,
    with the pump of section 4.2 and the roles of sections 4.4 and 4.5.
    The session code that implements them (initiator, responder, byte
    pump) is not among the source files, which hold the generated codec
    and the service declarations it would be built on. *)

Inductive direction : Type :=
| ToResponder   (* initiator to responder *)
| ToInitiator.  (* responder to initiator *)

Definition other (d : direction) : direction :=
  match d with
  | ToResponder => ToInitiator
  | ToInitiator => ToResponder
  end.


(** The error taxonomy of section 7. *)
Inductive error_kind : Type :=
| MalformedFrame | ProtocolViolation | DialFailure
| ForwardingError | ResourceExhausted.

Inductive frame_kind : Type :=
| DialRequestFrame | DataFrame.

(** Modelled from the spec: the states of section 4.3.  [Dialing] is a
    state of the responder only.  The initiator does not wait in it: it
    starts its pump as soon as the handshake frame is sent and learns of the
    dial's outcome later (section 4.4).  [Dialing] therefore records whether
    the initiator's send direction is still open. *)
Inductive state : Type :=
| Opened
| AwaitingHandshake
| Dialing (sending : bool)
| Forwarding
| Closing (remaining : direction)
| Closed
| Failed (e : error_kind).

(** What happens on a stream. *)
Inductive event : Type :=
| HandshakeStarted
| FrameSent (d : direction) (k : frame_kind)
| DecodeFailed
| DialSucceeded
| DialFailed
| DirectionEnded (d : direction)
| LocalIOFailed.

(** Modelled from the spec: the transitions of section 4.3.  The session
    code is not among the source files.  Each rule follows a sentence of the
    spec:
    - the responder reads exactly one frame first, and fails with
      ProtocolViolation when it is not a DialRequest (4.5); a stream that
      ends before its handshake closes with an error (3);
    - the initiator sends one DialRequest and then starts its pump (4.4),
      whose outbound task sends a Data frame for each chunk read from the
      local connection, closes its send direction at end of input and tears
      the session down on a read error (4.2); this holds from the handshake
      on, also while the responder is still dialing;
    - the responder starts its pump only once the dial has succeeded, and
      fails with DialFailure when it has not (4.5, 4.3);
    - while forwarding, a frame that is not Data or does not decode tears
      the session down (4.2), and the end of one direction leaves the other
      to be drained (4.3). *)
Inductive step : state -> event -> state -> Prop :=
(* Opened: the stream exists, no frames exchanged. *)
| step_open :
    step Opened HandshakeStarted AwaitingHandshake
(* AwaitingHandshake: the responder reads its first frame. *)
| step_handshake :
    step AwaitingHandshake (FrameSent ToResponder DialRequestFrame)
         (Dialing true)
| step_first_not_dial :
    step AwaitingHandshake (FrameSent ToResponder DataFrame)
         (Failed ProtocolViolation)
| step_first_malformed :
    step AwaitingHandshake DecodeFailed (Failed MalformedFrame)
| step_no_handshake :
    step AwaitingHandshake (DirectionEnded ToResponder)
         (Failed ProtocolViolation)
(* Dialing: the responder opens the real connection; the initiator's pump
   is already running. *)
| step_early_data :
    step (Dialing true) (FrameSent ToResponder DataFrame) (Dialing true)
| step_early_end :
    step (Dialing true) (DirectionEnded ToResponder) (Dialing false)
| step_early_io :
    step (Dialing true) LocalIOFailed (Failed ForwardingError)
| step_dial_ok :
    step (Dialing true) DialSucceeded Forwarding
| step_dial_ok_ended :
    step (Dialing false) DialSucceeded (Closing ToInitiator)
| step_dial_failed (sending : bool) :
    step (Dialing sending) DialFailed (Failed DialFailure)
(* Forwarding: the pump is active on both sides. *)
| step_data (d : direction) :
    step Forwarding (FrameSent d DataFrame) Forwarding
| step_second_dial (d : direction) :
    step Forwarding (FrameSent d DialRequestFrame) (Failed ProtocolViolation)
| step_forward_malformed :
    step Forwarding DecodeFailed (Failed MalformedFrame)
| step_forward_io :
    step Forwarding LocalIOFailed (Failed ForwardingError)
| step_half_close (d : direction) :
    step Forwarding (DirectionEnded d) (Closing (other d))
(* Closing: the pump drains the remaining direction. *)
| step_drain (d : direction) :
    step (Closing d) (FrameSent d DataFrame) (Closing d)
| step_drain_bad (d : direction) :
    step (Closing d) (FrameSent d DialRequestFrame) (Failed ProtocolViolation)
| step_drain_malformed (d : direction) :
    step (Closing d) DecodeFailed (Failed MalformedFrame)
| step_drain_io (d : direction) :
    step (Closing d) LocalIOFailed (Failed ForwardingError)
| step_close (d : direction) :
    step (Closing d) (DirectionEnded d) Closed.

(** A run: the events so far, oldest first, and the state reached. *)
Inductive run : list event -> state -> Prop :=
| run_start : run [] Opened
| run_step (t : list event) (s s' : state) (e : event) :
    run t s -> step s e s' -> run (t ++ [e]) s'.






End Session.

(* ------------------------------------------------------------------ *)
(** ** The scenarios of the specification *)

(** Scenario 1: the handshake frame, and a Data frame. *)
Definition scenario_request : DialRequest :=
  mkDialRequest "node-7" "ssh" (Some (mkAddr "tcp" "10.0.0.5:22" [])) [].

Definition scenario_frame : Frame :=
  mkFrame (Some (Frame_DialRequest (Some scenario_request))) [].

Definition scenario_data : Frame :=
  mkFrame (Some (Frame_Data (Some (mkData [x68; x69] [])))) [].

(** Scenario 2: the target refuses the connection. *)
Definition refused_run : list Session.event :=
  [ Session.HandshakeStarted;
    Session.FrameSent Session.ToResponder Session.DialRequestFrame;
    Session.DialFailed ].


(* ------------------------------------------------------------------ *)
(** ** The other entry points of the generated code *)

(** [sozTunnel]:
    sovTunnel(uint64((x << 1) ^ uint64((int64(x) >> 63)))), for a uint64
    [x]; [int64(x) >> 63] is the arithmetic shift. *)
Definition sozTunnel (x : Z) : Z :=
  sovTunnel
    (uint64 (Z.lxor (uint64 (Z.shiftl x 1)) (uint64 (Z.shiftr (int x) 63)))).

(** [MarshalTo]:
    [size := m.Size(); return m.MarshalToSizedBuffer(dAtA[:size])].
    The callee writes into the caller's array; the function returns the
    array as it is afterwards, and [n]. *)
Definition marshalTo_with {M : Type} (Size : M -> Z)
  (MarshalToSizedBuffer : M -> list byte -> outcome (list byte * Z))
  (m : M) (dAtA : list byte) : outcome (list byte * Z) :=
  let size := Size m in
  buf <- slice_to dAtA size ;;
  '(buf, n) <- MarshalToSizedBuffer m buf ;;
  Ok (buf ++ skipn (Z.to_nat size) dAtA, n).

Definition Frame_MarshalTo : Frame -> list byte -> outcome (list byte * Z) :=
  marshalTo_with Frame_Size Frame_MarshalToSizedBuffer.
Definition DialRequest_MarshalTo
  : DialRequest -> list byte -> outcome (list byte * Z) :=
  marshalTo_with DialRequest_Size DialRequest_MarshalToSizedBuffer.
Definition Addr_MarshalTo : Addr -> list byte -> outcome (list byte * Z) :=
  marshalTo_with Addr_Size Addr_MarshalToSizedBuffer.
Definition Data_MarshalTo : Data -> list byte -> outcome (list byte * Z) :=
  marshalTo_with Data_Size Data_MarshalToSizedBuffer.

(** [XXX_Marshal(b, deterministic)]:
    [if deterministic { return xxx_messageInfo.Marshal(b, m, deterministic) }
     else { b = b[:cap(b)]; n, err := m.MarshalToSizedBuffer(b);
            if err != nil { return nil, err }; return b[:n], nil }].
    The slice [b] is given by [backing], the bytes of [b[:cap(b)]]; the
    proto library's Marshal is a parameter. *)
Definition XXX_Marshal_with {M : Type}
  (messageInfo_Marshal : list byte -> M -> bool -> outcome (list byte))
  (MarshalToSizedBuffer : M -> list byte -> outcome (list byte * Z))
  (m : M) (backing : list byte) (deterministic : bool) : outcome (list byte) :=
  if deterministic then messageInfo_Marshal backing m deterministic
  else
    let b := backing in
    '(b, n) <- MarshalToSizedBuffer m b ;;
    slice_to b n.

Definition Frame_XXX_Marshal
  (xxx_messageInfo_Frame_Marshal : list byte -> Frame -> bool -> outcome (list byte))
  : Frame -> list byte -> bool -> outcome (list byte) :=
  XXX_Marshal_with xxx_messageInfo_Frame_Marshal Frame_MarshalToSizedBuffer.

Definition DialRequest_XXX_Marshal
  (xxx_messageInfo_DialRequest_Marshal
     : list byte -> DialRequest -> bool -> outcome (list byte))
  : DialRequest -> list byte -> bool -> outcome (list byte) :=
  XXX_Marshal_with xxx_messageInfo_DialRequest_Marshal
    DialRequest_MarshalToSizedBuffer.

Definition Addr_XXX_Marshal
  (xxx_messageInfo_Addr_Marshal : list byte -> Addr -> bool -> outcome (list byte))
  : Addr -> list byte -> bool -> outcome (list byte) :=
  XXX_Marshal_with xxx_messageInfo_Addr_Marshal Addr_MarshalToSizedBuffer.

Definition Data_XXX_Marshal
  (xxx_messageInfo_Data_Marshal : list byte -> Data -> bool -> outcome (list byte))
  : Data -> list byte -> bool -> outcome (list byte) :=
  XXX_Marshal_with xxx_messageInfo_Data_Marshal Data_MarshalToSizedBuffer.

(** Merging what a buffer holds into a receiver, as Unmarshal does: a
    string or bytes field of the input replaces the receiver's when the
    input has it (it is left out of the wire form when empty), an embedded
    Addr is merged into the receiver's, the oneof of a Frame is replaced,
    and unrecognized bytes are appended. *)
Definition merge_string (old new : string) : string :=
  if 0 <? slen new then new else old.

Definition merge_bytes (old new : list byte) : list byte :=
  if 0 <? len new then new else old.

Definition Addr_merge (m x : Addr) : Addr :=
  mkAddr (merge_string (Network m) (Network x))
         (merge_string (Address m) (Address x))
         (Addr_XXX_unrecognized m ++ Addr_XXX_unrecognized x).

Definition Data_merge (m x : Data) : Data :=
  mkData (merge_bytes (Bytes m) (Bytes x))
         (Data_XXX_unrecognized m ++ Data_XXX_unrecognized x).

Definition DialRequest_merge (m x : DialRequest) : DialRequest :=
  mkDialRequest
    (merge_string (ServerID m) (ServerID x))
    (merge_string (ConnType m) (ConnType x))
    match To x with
    | Some a => Some (Addr_merge match To m with
                                 | Some a0 => a0
                                 | None => Addr_zero
                                 end a)
    | None => To m
    end
    (DialRequest_XXX_unrecognized m ++ DialRequest_XXX_unrecognized x).

Definition Frame_merge (m x : Frame) : Frame :=
  mkFrame match Message x with
          | Some v => Some v
          | None => Message m
          end
          (Frame_XXX_unrecognized m ++ Frame_XXX_unrecognized x).

(** The zigzag code of the int64 [n]: 0, -1, 1, -2, ... go to 0, 1, 2, 3, ... *)
Definition zigzag (n : Z) : Z := if n <? 0 then - 2 * n - 1 else 2 * n.

(* ================================================================== *)
(** * Properties *)


(** ** Integers and bytes *)

Lemma int_small (z : Z) : - 2 ^ 63 <= z < 2 ^ 63 -> int z = z.
Proof.
  intros H. unfold int. rewrite Z.mod_small; lia.
Qed.

Lemma uint64_small (z : Z) : 0 <= z < 2 ^ 64 -> uint64 z = z.
Proof.
  intros H. unfold uint64. apply Z.mod_small; lia.
Qed.

Lemma int_range (z : Z) : - 2 ^ 63 <= int z < 2 ^ 63.
Proof.
  unfold int. pose proof (Z.mod_pos_bound (z + 2 ^ 63) (2 ^ 64)). lia.
Qed.

(** Past [MaxInt] an addition of two non-negative ints comes out negative. *)
Lemma int_add_overflow (a b : Z) :
  0 <= a <= MaxInt -> 0 <= b <= MaxInt -> MaxInt < a + b -> int (a + b) < 0.
Proof.
  unfold MaxInt, int. intros Ha Hb Hab.
  replace ((a + b + 2 ^ 63) mod 2 ^ 64) with (a + b + 2 ^ 63 - 2 ^ 64).
  - lia.
  - symmetry. rewrite <- (Z.mod_unique (a + b + 2 ^ 63) (2 ^ 64) 1 (a + b + 2 ^ 63 - 2 ^ 64)); lia.
Qed.

Lemma b2z_range (b : byte) : 0 <= b2z b < 256.
Proof.
  unfold b2z. pose proof (Byte.to_N_bounded b). lia.
Qed.

Lemma b2z_uint8 (z : Z) : b2z (uint8 z) = z mod 256.
Proof.
  unfold b2z, uint8.
  pose proof (Z.mod_pos_bound z 256 ltac:(lia)) as Hz.
  destruct (Byte.of_N (Z.to_N (z mod 256))) as [b|] eqn:E.
  - apply Byte.to_of_N in E. rewrite E. lia.
  - apply Byte.of_N_None_iff in E. lia.
Qed.

Lemma b2z_uint8_small (z : Z) : 0 <= z < 256 -> b2z (uint8 z) = z.
Proof.
  intros H. rewrite b2z_uint8. apply Z.mod_small; lia.
Qed.

Lemma land_127_range (v : Z) : 0 <= Z.land v 127 < 128.
Proof.
  change 127 with (Z.ones 7). rewrite Z.land_ones by lia.
  apply Z.mod_pos_bound. lia.
Qed.

Lemma land_127_small (v : Z) : 0 <= v < 128 -> Z.land v 127 = v.
Proof.
  intros H. change 127 with (Z.ones 7). rewrite Z.land_ones by lia.
  apply Z.mod_small. lia.
Qed.

(** The continuation byte [v&0x7f | 0x80]. *)
Lemma cont_byte_value (v : Z) : Z.lor (Z.land v 127) 128 = Z.land v 127 + 128.
Proof.
  rewrite <- Z.add_lor_land.
  rewrite <- Z.land_assoc. change (Z.land 127 128) with 0.
  rewrite Z.land_0_r. lia.
Qed.

Lemma cont_byte_low (v : Z) : Z.land (Z.lor (Z.land v 127) 128) 127 = Z.land v 127.
Proof.
  rewrite Z.land_lor_distr_l, <- Z.land_assoc.
  change (Z.land 127 127) with 127. change (Z.land 128 127) with 0.
  apply Z.lor_0_r.
Qed.

(** A value is its low seven bits joined with the rest. *)
Lemma split_low7 (v : Z) : Z.lor (Z.land v 127) (Z.shiftl (Z.shiftr v 7) 7) = v.
Proof.
  apply Z.bits_inj'. intros n Hn.
  rewrite Z.lor_spec, Z.land_spec.
  change 127 with (Z.ones 7).
  destruct (Z.ltb_spec n 7).
  - rewrite Z.ones_spec_low by lia. rewrite Z.shiftl_spec_low by lia.
    rewrite andb_true_r, orb_false_r. reflexivity.
  - rewrite Z.ones_spec_high by lia. rewrite Z.shiftl_spec by lia.
    rewrite Z.shiftr_spec by lia. rewrite andb_false_r. simpl.
    f_equal. lia.
Qed.

Lemma lor_shift_step (x v shift : Z) :
  0 <= shift ->
  Z.lor (Z.lor x (Z.shiftl (Z.land v 127) shift))
        (Z.shiftl (Z.shiftr v 7) (shift + 7))
  = Z.lor x (Z.shiftl v shift).
Proof.
  intros Hs. rewrite <- Z.lor_assoc. f_equal.
  rewrite (Z.add_comm shift 7), <- Z.shiftl_shiftl by lia.
  rewrite <- Z.shiftl_lor. rewrite split_low7. reflexivity.
Qed.

Lemma shiftr7_lt (v : Z) (n : Z) : 0 <= n -> 0 <= v < 2 ^ (n + 7) -> 0 <= Z.shiftr v 7 < 2 ^ n.
Proof.
  intros Hn Hv. rewrite Z.shiftr_div_pow2 by lia.
  rewrite Z.pow_add_r in Hv by lia. split.
  - apply Z.div_pos; lia.
  - apply Z.div_lt_upper_bound; lia.
Qed.

(** ** sovTunnel *)

Lemma Len64_lor1 (v : Z) : 0 <= v -> Len64 (Z.lor v 1) = Z.log2 v + 1.
Proof.
  intros Hv. unfold Len64.
  destruct (Z.eqb_spec (Z.lor v 1) 0) as [E|E].
  - apply Z.lor_eq_0_iff in E. lia.
  - rewrite Z.log2_lor by lia. change (Z.log2 1) with 0.
    pose proof (Z.log2_nonneg v). lia.
Qed.

Lemma sov_small (v : Z) : 0 <= v < 128 -> sovTunnel v = 1.
Proof.
  intros Hv. unfold sovTunnel. rewrite Len64_lor1 by lia.
  assert (0 <= Z.log2 v < 7) as Hl.
  { split; [apply Z.log2_nonneg|].
    destruct (Z.eq_dec v 0) as [->|]; [cbn; lia|].
    apply Z.log2_lt_pow2; lia. }
  Z.div_mod_to_equations. lia.
Qed.

Lemma sov_step (v : Z) : 128 <= v -> sovTunnel v = 1 + sovTunnel (Z.shiftr v 7).
Proof.
  intros Hv. unfold sovTunnel.
  assert (0 <= Z.shiftr v 7) as Hs by (apply Z.shiftr_nonneg; lia).
  rewrite !Len64_lor1 by lia.
  rewrite Z.log2_shiftr by lia.
  assert (7 <= Z.log2 v) as Hl by (apply Z.log2_le_pow2; lia).
  rewrite Z.max_r by lia.
  Z.div_mod_to_equations. lia.
Qed.

Lemma sov_pos (v : Z) : 0 <= v -> 1 <= sovTunnel v.
Proof.
  intros Hv. unfold sovTunnel. rewrite Len64_lor1 by lia.
  pose proof (Z.log2_nonneg v). Z.div_mod_to_equations. lia.
Qed.

Lemma varint_bytes_S (n : nat) (v : Z) :
  varint_bytes (S n) v =
  if 128 <=? v then
    uint8 (Z.lor (Z.land v 127) 128) :: varint_bytes n (Z.shiftr v 7)
  else [uint8 v].
Proof. reflexivity. Qed.

(** [sovTunnel v] is the number of bytes of the varint of [v]. *)
Lemma len_varint_bytes (n : nat) : forall v : Z,
  0 <= v < 2 ^ (7 * Z.of_nat (S n)) ->
  len (varint_bytes (S n) v) = sovTunnel v.
Proof.
  induction n as [|n IH]; intros v Hv; rewrite varint_bytes_S.
  - assert (v < 128) by (change (2 ^ (7 * Z.of_nat 1)) with 128 in Hv; lia).
    destruct (Z.leb_spec 128 v); [lia|].
    rewrite sov_small by lia. reflexivity.
  - destruct (Z.leb_spec 128 v).
    + rewrite sov_step by lia.
      change (len (?x :: ?l)) with (Z.of_nat (S (length l))).
      rewrite Nat2Z.inj_succ. fold (len (varint_bytes (S n) (Z.shiftr v 7))).
      rewrite IH; [lia|].
      apply shiftr7_lt; [lia|].
      replace (7 * Z.of_nat (S n) + 7) with (7 * Z.of_nat (S (S n))) by lia.
      exact Hv.
    + rewrite sov_small by lia. reflexivity.
Qed.

Lemma len_varint (v : Z) : 0 <= v < 2 ^ 64 -> len (varint v) = sovTunnel v.
Proof.
  intros Hv. unfold varint. apply len_varint_bytes.
  change (7 * Z.of_nat 10) with 70.
  assert (2 ^ 64 <= 2 ^ 70) by (apply Z.pow_le_mono_r; lia). lia.
Qed.

(** ** Lists and slices *)

Lemma len_app {A : Type} (a b : list A) : len (a ++ b) = len a + len b.
Proof. unfold len. rewrite length_app. lia. Qed.

Lemma len_cons {A : Type} (x : A) (a : list A) : len (x :: a) = 1 + len a.
Proof. unfold len. cbn [length]. lia. Qed.

Lemma len_nil {A : Type} : len (@nil A) = 0.
Proof. reflexivity. Qed.

Lemma len_nonneg {A : Type} (a : list A) : 0 <= len a.
Proof. unfold len. lia. Qed.

Lemma to_nat_len {A : Type} (a : list A) : Z.to_nat (len a) = length a.
Proof. unfold len. lia. Qed.

Lemma firstn_len_app {A : Type} (a b : list A) : firstn (Z.to_nat (len a)) (a ++ b) = a.
Proof.
  rewrite to_nat_len. rewrite firstn_app, Nat.sub_diag, firstn_all. cbn.
  apply app_nil_r.
Qed.

Lemma skipn_len_app {A : Type} (a b : list A) : skipn (Z.to_nat (len a)) (a ++ b) = b.
Proof.
  rewrite to_nat_len. rewrite skipn_app, Nat.sub_diag, skipn_all. reflexivity.
Qed.

Lemma index_app (a c : list byte) (b : byte) : index (a ++ b :: c) (len a) = Ok b.
Proof.
  unfold index. pose proof (len_nonneg a). pose proof (len_nonneg c).
  rewrite len_app, len_cons.
  destruct (Z.leb_spec 0 (len a)); [|lia].
  destruct (Z.ltb_spec (len a) (len a + (1 + len c))); [|lia].
  cbn [andb]. rewrite to_nat_len.
  rewrite nth_error_app2 by lia. rewrite Nat.sub_diag. reflexivity.
Qed.

Lemma slice_app (a b c : list byte) :
  slice (a ++ b ++ c) (len a) (len a + len b) = Ok b.
Proof.
  unfold slice. pose proof (len_nonneg a). pose proof (len_nonneg b).
  pose proof (len_nonneg c). rewrite !len_app.
  destruct (Z.leb_spec 0 (len a)); [|lia].
  destruct (Z.leb_spec (len a) (len a + len b)); [|lia].
  destruct (Z.leb_spec (len a + len b) (len a + (len b + len c))); [|lia].
  cbn [andb]. rewrite skipn_len_app.
  replace (len a + len b - len a) with (len b) by lia.
  rewrite firstn_len_app. reflexivity.
Qed.

Lemma slice_to_app (a c : list byte) : slice_to (a ++ c) (len a) = Ok a.
Proof.
  unfold slice_to. pose proof (slice_app [] a c) as H.
  cbn [app] in H. change (len (@nil byte)) with 0 in H. exact H.
Qed.

Lemma slice_from_app (a c : list byte) : slice_from (a ++ c) (len a) = Ok c.
Proof.
  unfold slice_from. pose proof (slice_app a c []) as H.
  rewrite app_nil_r in H. rewrite len_app. exact H.
Qed.

Lemma store_app (a c : list byte) (x b : byte) :
  store (a ++ x :: c) (len a) b = Ok (a ++ b :: c).
Proof.
  unfold store. pose proof (len_nonneg a). pose proof (len_nonneg c).
  rewrite len_app, len_cons.
  destruct (Z.leb_spec 0 (len a)); [|lia].
  destruct (Z.ltb_spec (len a) (len a + (1 + len c))); [|lia].
  cbn [andb]. rewrite firstn_len_app.
  change (S (Z.to_nat (len a))) with (1 + Z.to_nat (len a))%nat.
  rewrite <- skipn_skipn. rewrite skipn_len_app. reflexivity.
Qed.

Lemma copy_at_app (a b c src : list byte) :
  length b = length src ->
  copy_at (a ++ b ++ c) (len a) src = Ok (a ++ src ++ c).
Proof.
  intros Hb. unfold copy_at. rewrite slice_from_app. cbn [bind].
  rewrite firstn_len_app. rewrite length_app, Hb.
  rewrite Nat.min_r by lia. rewrite firstn_all.
  rewrite <- Hb. rewrite skipn_app, Nat.sub_diag, skipn_all. reflexivity.
Qed.

Lemma firstn_plus {A : Type} (a b : nat) : forall l : list A,
  firstn (a + b) l = firstn a l ++ firstn b (skipn a l).
Proof.
  induction a as [|a IH]; intros [|x l]; cbn; try reflexivity.
  - now rewrite firstn_nil.
  - now rewrite IH.
Qed.

(** Any list splits at a given length. *)
Lemma split_at (buf : list byte) (i k : Z) :
  0 <= k <= i -> i <= len buf ->
  exists a b,
    firstn (Z.to_nat i) buf = a ++ b /\ len a = i - k /\ len b = k
    /\ firstn (Z.to_nat (i - k)) buf = a.
Proof.
  intros Hk Hi.
  exists (firstn (Z.to_nat (i - k)) buf),
         (firstn (Z.to_nat k) (skipn (Z.to_nat (i - k)) buf)).
  unfold len in *.
  repeat split.
  - replace (Z.to_nat i) with (Z.to_nat (i - k) + Z.to_nat k)%nat by lia.
    rewrite firstn_plus. reflexivity.
  - rewrite length_firstn. lia.
  - rewrite length_firstn, length_skipn. lia.
Qed.

(** ** Marshal fills the buffer from its end *)

Lemma filled_init (buf : list byte) : filled buf (len buf) [] buf.
Proof.
  unfold filled. pose proof (len_nonneg buf). change (len (@nil byte)) with 0.
  repeat split; try lia.
  rewrite to_nat_len, firstn_all, app_nil_r. reflexivity.
Qed.

Lemma filled_len (buf0 done buf : list byte) (i : Z) :
  filled buf0 i done buf -> len buf = len buf0.
Proof.
  intros (Hi & Hl & ->). pose proof (len_nonneg done).
  rewrite len_app. unfold len in *. rewrite length_firstn. lia.
Qed.

Lemma copy_filled (buf0 done buf src : list byte) (i : Z) :
  filled buf0 i done buf -> len src <= i ->
  exists buf', copy_at buf (i - len src) src = Ok buf'
               /\ filled buf0 (i - len src) (src ++ done) buf'.
Proof.
  intros (Hi & Hl & ->) Hs.
  pose proof (len_nonneg done). pose proof (len_nonneg src).
  destruct (split_at buf0 i (len src)) as (a & b & E & Ha & Hb & Ea); try lia.
  rewrite E, <- app_assoc, <- Ha.
  rewrite copy_at_app by (unfold len in Hb; lia).
  eexists; split; [reflexivity|].
  unfold filled. rewrite len_app. repeat split; try lia.
  rewrite Ha, Ea. reflexivity.
Qed.

Lemma store_filled (buf0 done buf : list byte) (i : Z) (b : byte) :
  filled buf0 i done buf -> 1 <= i ->
  exists buf', store buf (i - 1) b = Ok buf'
               /\ filled buf0 (i - 1) (b :: done) buf'.
Proof.
  intros (Hi & Hl & ->) Hs. pose proof (len_nonneg done).
  destruct (split_at buf0 i 1) as (a & j & E & Ha & Hb & Ea); try lia.
  destruct j as [|x [|y j]]; try (cbn in Hb; unfold len in Hb; cbn in Hb; lia).
  rewrite E, <- app_assoc, <- Ha. cbn [app].
  rewrite store_app.
  eexists; split; [reflexivity|].
  unfold filled. rewrite len_cons. repeat split; try lia.
  rewrite Ha, Ea. reflexivity.
Qed.

Lemma encodeVarint_loop_S (n : nat) (dAtA : list byte) (offset v : Z) :
  encodeVarint_loop (S n) dAtA offset v =
  if 128 <=? v then
    dAtA <- store dAtA offset (uint8 (Z.lor (Z.land v 127) 128)) ;;
    encodeVarint_loop n dAtA (offset + 1) (Z.shiftr v 7)
  else store dAtA offset (uint8 v).
Proof. reflexivity. Qed.

Lemma encodeVarint_loop_app (n : nat) : forall (v : Z) (a junk c : list byte),
  0 <= v < 2 ^ (7 * Z.of_nat (S n)) ->
  length junk = length (varint_bytes (S n) v) ->
  encodeVarint_loop (S n) (a ++ junk ++ c) (len a) v
  = Ok (a ++ varint_bytes (S n) v ++ c).
Proof.
  induction n as [|n IH]; intros v a junk c Hv Hj;
    rewrite varint_bytes_S in *; rewrite encodeVarint_loop_S.
  - assert (v < 128) by (change (2 ^ (7 * Z.of_nat 1)) with 128 in Hv; lia).
    destruct (Z.leb_spec 128 v); [lia|].
    destruct junk as [|x [|y junk]]; try discriminate Hj.
    cbn [app]. apply store_app.
  - destruct (Z.leb_spec 128 v).
    + destruct junk as [|x junk]; [discriminate Hj|].
      cbn [app]. rewrite store_app. cbn [bind].
      injection Hj as Hj.
      replace (len a + 1) with (len (a ++ [uint8 (Z.lor (Z.land v 127) 128)]))
        by (rewrite len_app; reflexivity).
      change (a ++ ?b :: junk ++ c) with (a ++ [b] ++ junk ++ c).
      rewrite (app_assoc a [_]).
      rewrite IH; [now rewrite <- app_assoc| |exact Hj].
      apply shiftr7_lt; [lia|].
      replace (7 * Z.of_nat (S n) + 7) with (7 * Z.of_nat (S (S n))) by lia.
      exact Hv.
    + destruct junk as [|x [|y junk]]; try discriminate Hj.
      cbn [app]. apply store_app.
Qed.

Lemma pow64_le_pow70 : 2 ^ 64 <= 2 ^ (7 * Z.of_nat 10).
Proof. apply Z.pow_le_mono_r; lia. Qed.

Lemma encodeVarint_filled (buf0 done buf : list byte) (i v : Z) :
  filled buf0 i done buf -> 0 <= v < 2 ^ 64 -> sovTunnel v <= i ->
  exists buf', encodeVarintTunnel buf i v = Ok (buf', i - sovTunnel v)
               /\ filled buf0 (i - sovTunnel v) (varint v ++ done) buf'.
Proof.
  intros (Hi & Hl & ->) Hv Hs. pose proof (len_nonneg done).
  pose proof (sov_pos v ltac:(lia)). pose proof pow64_le_pow70.
  destruct (split_at buf0 i (sovTunnel v)) as (a & j & E & Ha & Hb & Ea); try lia.
  unfold encodeVarintTunnel. rewrite E, <- app_assoc, <- Ha.
  rewrite encodeVarint_loop_app; try lia.
  - cbn [bind]. eexists; split; [reflexivity|].
    unfold filled. fold (varint v). rewrite len_app, len_varint by lia.
    repeat split; try lia. rewrite Ha, Ea. reflexivity.
  - pose proof (len_varint v Hv) as Hlv. unfold varint, len in *. lia.
Qed.

Lemma put_unrecognized_filled (buf0 done buf u : list byte) (i : Z) :
  filled buf0 i done buf -> len u <= i ->
  exists buf', put_unrecognized buf i u = Ok (buf', i - len u)
               /\ filled buf0 (i - len u) (u ++ done) buf'.
Proof.
  intros Hf Hu. destruct u as [|x u].
  - cbn [put_unrecognized app]. change (len (@nil byte)) with 0. rewrite Z.sub_0_r. eauto.
  - cbn [put_unrecognized].
    destruct (copy_filled _ _ _ (x :: u) _ Hf Hu) as (buf' & -> & Hf').
    cbn [bind]. eauto.
Qed.

Lemma len_wire_field (tag : byte) (s : list byte) :
  len s < 2 ^ 64 -> len (wire_field tag s) = size_field (len s).
Proof.
  intros Hs. pose proof (len_nonneg s). unfold wire_field, size_field.
  destruct (Z.ltb_spec 0 (len s)); [|reflexivity].
  rewrite len_cons, len_app, len_varint, uint64_small by lia. lia.
Qed.

Lemma len_wire_msg (tag : byte) (s : list byte) :
  len s < 2 ^ 64 -> len (wire_msg tag s) = size_msg (len s).
Proof.
  intros Hs. pose proof (len_nonneg s). unfold wire_msg, size_msg.
  rewrite len_cons, len_app, len_varint, uint64_small by lia. lia.
Qed.

Lemma size_field_bounds (l : Z) : 0 <= l -> l <= size_field l.
Proof.
  intros Hl. unfold size_field. destruct (Z.ltb_spec 0 l); [|lia].
  assert (0 <= uint64 l) by (unfold uint64; apply Z.mod_pos_bound; lia).
  pose proof (sov_pos (uint64 l)). lia.
Qed.

Lemma size_msg_bounds (l : Z) : 0 <= l -> l + 2 <= size_msg l.
Proof.
  intros Hl. unfold size_msg.
  assert (0 <= uint64 l) by (unfold uint64; apply Z.mod_pos_bound; lia).
  pose proof (sov_pos (uint64 l)). lia.
Qed.

Lemma put_field_filled (buf0 done buf s : list byte) (i : Z) (tag : byte) :
  filled buf0 i done buf -> len s < 2 ^ 64 -> size_field (len s) <= i ->
  exists buf', put_field buf i tag s = Ok (buf', i - size_field (len s))
               /\ filled buf0 (i - size_field (len s)) (wire_field tag s ++ done) buf'.
Proof.
  intros Hf Hs Hi. pose proof (len_nonneg s).
  unfold put_field, size_field, wire_field in *.
  destruct (Z.ltb_spec 0 (len s)).
  - rewrite uint64_small in * by lia.
    pose proof (sov_pos (len s) ltac:(lia)).
    destruct (copy_filled _ _ _ s _ Hf ltac:(lia)) as (b1 & -> & Hf1).
    cbn [bind].
    destruct (encodeVarint_filled _ _ _ _ (len s) Hf1 ltac:(lia) ltac:(lia))
      as (b2 & -> & Hf2).
    cbn [bind].
    destruct (store_filled _ _ _ _ tag Hf2 ltac:(lia)) as (b3 & -> & Hf3).
    cbn [bind]. eexists; split.
    + f_equal. f_equal. lia.
    + cbn [app].
      replace (i - (1 + len s + sovTunnel (len s)))
        with (i - len s - sovTunnel (len s) - 1) by lia.
      rewrite <- app_assoc. exact Hf3.
  - rewrite Z.sub_0_r. cbn [app]. eauto.
Qed.

Lemma firstn_filled_prefix (buf0 done : list byte) (i : Z) :
  0 <= i -> i <= len buf0 ->
  slice_to (firstn (Z.to_nat i) buf0 ++ done) i = Ok (firstn (Z.to_nat i) buf0)
  /\ skipn (Z.to_nat i) (firstn (Z.to_nat i) buf0 ++ done) = done
  /\ len (firstn (Z.to_nat i) buf0) = i.
Proof.
  intros Hi Hl.
  assert (len (firstn (Z.to_nat i) buf0) = i) as E
    by (unfold len in *; rewrite length_firstn; lia).
  repeat split; [| |exact E].
  - rewrite <- E at 2. apply slice_to_app.
  - rewrite <- E at 1. apply skipn_len_app.
Qed.

Lemma put_msg_filled {M : Type} (Size : M -> Z) (wire : M -> list byte)
  (MTSB : M -> list byte -> outcome (list byte * Z)) (x : M)
  (buf0 done buf : list byte) (i : Z) (tag : byte) :
  writes_back Size wire MTSB x ->
  filled buf0 i done buf -> Size x < 2 ^ 64 -> size_msg (Size x) <= i ->
  exists buf', put_msg MTSB buf i tag x = Ok (buf', i - size_msg (Size x))
               /\ filled buf0 (i - size_msg (Size x))
                         (wire_msg tag (wire x) ++ done) buf'.
Proof.
  intros (Hw & Hx) (Hi & Hl & ->) Hs Hsz.
  pose proof (len_nonneg done). pose proof (len_nonneg (wire x)).
  pose proof (size_msg_bounds (Size x) ltac:(lia)) as Hb.
  destruct (firstn_filled_prefix buf0 done i) as (E1 & E2 & E3); try lia.
  unfold put_msg. rewrite E1. cbn [bind].
  rewrite Hx by lia. cbn [bind]. rewrite E2, E3.
  rewrite firstn_firstn, Nat.min_l by lia.
  assert (filled buf0 (i - Size x) (wire x ++ done)
            ((firstn (Z.to_nat (i - Size x)) buf0 ++ wire x) ++ done)) as Hf1.
  { unfold filled. rewrite len_app, <- app_assoc. repeat split; lia. }
  unfold size_msg in *. rewrite uint64_small in * by lia.
  pose proof (sov_pos (Size x) ltac:(lia)).
  destruct (encodeVarint_filled _ _ _ _ (Size x) Hf1 ltac:(lia) ltac:(lia))
    as (b2 & -> & Hf2).
  cbn [bind].
  destruct (store_filled _ _ _ _ tag Hf2 ltac:(lia)) as (b3 & -> & Hf3).
  cbn [bind]. eexists; split.
  - f_equal. f_equal. lia.
  - unfold wire_msg. rewrite Hw. cbn [app].
    replace (i - (1 + Size x + sovTunnel (Size x)))
      with (i - Size x - sovTunnel (Size x) - 1) by lia.
    rewrite <- app_assoc. exact Hf3.
Qed.

(** What a MarshalToSizedBuffer returns once its fields are written. *)
Lemma filled_result (buf0 done buf : list byte) (i size : Z) :
  filled buf0 i done buf -> i = len buf0 - size ->
  Ok (buf, len buf - i)
  = Ok (firstn (Z.to_nat (len buf0 - size)) buf0 ++ done, size)
  /\ len done = size.
Proof.
  intros Hf ->. pose proof (filled_len _ _ _ _ Hf) as Hl.
  destruct Hf as (Hi & Hd & ->). rewrite Hl. split; [f_equal; f_equal|]; lia.
Qed.

Lemma slen_nonneg (s : string) : 0 <= slen s.
Proof. apply len_nonneg. Qed.

Lemma Addr_Size_bounds (m : Addr) :
  slen (Network m) <= size_field (slen (Network m))
  /\ slen (Address m) <= size_field (slen (Address m))
  /\ 0 <= Addr_Size m.
Proof.
  pose proof (slen_nonneg (Network m)). pose proof (slen_nonneg (Address m)).
  pose proof (len_nonneg (Addr_XXX_unrecognized m)).
  pose proof (size_field_bounds (slen (Network m))).
  pose proof (size_field_bounds (slen (Address m))).
  unfold Addr_Size. lia.
Qed.

Lemma Addr_writes_back (m : Addr) :
  Addr_Size m < 2 ^ 64 ->
  writes_back Addr_Size Addr_wire Addr_MarshalToSizedBuffer m.
Proof.
  intros Hm.
  destruct (Addr_Size_bounds m) as (Hn & Ha & H0).
  pose proof (slen_nonneg (Network m)). pose proof (slen_nonneg (Address m)).
  pose proof (len_nonneg (Addr_XXX_unrecognized m)).
  assert (forall buf, Addr_Size m <= len buf ->
    Addr_MarshalToSizedBuffer m buf
    = Ok (firstn (Z.to_nat (len buf - Addr_Size m)) buf ++ Addr_wire m, Addr_Size m)
    /\ len (Addr_wire m) = Addr_Size m) as Hall.
  { intros buf Hbuf. unfold Addr_MarshalToSizedBuffer, Addr_Size, slen in *.
    destruct (put_unrecognized_filled _ _ _ (Addr_XXX_unrecognized m) _
                (filled_init buf) ltac:(lia)) as (b1 & -> & Hf1).
    cbn [bind].
    destruct (put_field_filled _ _ _ (list_byte_of_string (Address m)) _ x12
                Hf1 ltac:(lia) ltac:(lia)) as (b2 & -> & Hf2).
    cbn [bind].
    destruct (put_field_filled _ _ _ (list_byte_of_string (Network m)) _ x0a
                Hf2 ltac:(lia) ltac:(lia)) as (b3 & -> & Hf3).
    cbn [bind]. rewrite app_nil_r in Hf3.
    unfold Addr_wire.
    apply (filled_result _ _ _ _ _ Hf3). lia. }
  split.
  - apply (Hall (repeat x00 (Z.to_nat (Addr_Size m)))).
    unfold len. rewrite repeat_length. lia.
  - intros buf Hbuf. apply Hall, Hbuf.
Qed.

Lemma DialRequest_Size_bounds (m : DialRequest) :
  slen (ServerID m) <= size_field (slen (ServerID m))
  /\ slen (ConnType m) <= size_field (slen (ConnType m))
  /\ match To m with
     | Some a => Addr_Size a + 2 <= size_msg (Addr_Size a) /\ 0 <= Addr_Size a
     | None => True
     end
  /\ 0 <= DialRequest_Size m.
Proof.
  pose proof (slen_nonneg (ServerID m)). pose proof (slen_nonneg (ConnType m)).
  pose proof (len_nonneg (DialRequest_XXX_unrecognized m)).
  pose proof (size_field_bounds (slen (ServerID m))).
  pose proof (size_field_bounds (slen (ConnType m))).
  unfold DialRequest_Size. destruct (To m) as [a|].
  - destruct (Addr_Size_bounds a) as (_ & _ & Ha).
    pose proof (size_msg_bounds (Addr_Size a)). lia.
  - lia.
Qed.

Lemma DialRequest_writes_back (m : DialRequest) :
  DialRequest_Size m < 2 ^ 64 ->
  writes_back DialRequest_Size DialRequest_wire DialRequest_MarshalToSizedBuffer m.
Proof.
  intros Hm.
  destruct (DialRequest_Size_bounds m) as (Hs & Hc & Ht & H0).
  pose proof (slen_nonneg (ServerID m)). pose proof (slen_nonneg (ConnType m)).
  pose proof (len_nonneg (DialRequest_XXX_unrecognized m)).
  assert (forall buf, DialRequest_Size m <= len buf ->
    DialRequest_MarshalToSizedBuffer m buf
    = Ok (firstn (Z.to_nat (len buf - DialRequest_Size m)) buf ++ DialRequest_wire m,
          DialRequest_Size m)
    /\ len (DialRequest_wire m) = DialRequest_Size m) as Hall.
  { intros buf Hbuf.
    unfold DialRequest_MarshalToSizedBuffer, DialRequest_Size, DialRequest_wire, slen in *.
    destruct (put_unrecognized_filled _ _ _ (DialRequest_XXX_unrecognized m) _
                (filled_init buf)) as (b1 & -> & Hf1).
    { destruct (To m); lia. }
    cbn [bind]. rewrite app_nil_r in Hf1.
    destruct (To m) as [a|].
    - destruct Ht as (Ht & Ha0).
      destruct (put_msg_filled Addr_Size Addr_wire Addr_MarshalToSizedBuffer a
                  _ _ _ _ x1a (Addr_writes_back a ltac:(lia)) Hf1
                  ltac:(lia) ltac:(lia)) as (b2 & -> & Hf2).
      cbn [bind].
      destruct (put_field_filled _ _ _ (list_byte_of_string (ConnType m)) _ x12
                  Hf2 ltac:(lia) ltac:(lia)) as (b3 & -> & Hf3).
      cbn [bind].
      destruct (put_field_filled _ _ _ (list_byte_of_string (ServerID m)) _ x0a
                  Hf3 ltac:(lia) ltac:(lia)) as (b4 & -> & Hf4).
      cbn [bind].
      apply (filled_result _ _ _ _ _ Hf4). lia.
    - cbn [bind].
      destruct (put_field_filled _ _ _ (list_byte_of_string (ConnType m)) _ x12
                  Hf1 ltac:(lia) ltac:(lia)) as (b3 & -> & Hf3).
      cbn [bind].
      destruct (put_field_filled _ _ _ (list_byte_of_string (ServerID m)) _ x0a
                  Hf3 ltac:(lia) ltac:(lia)) as (b4 & -> & Hf4).
      cbn [bind]. cbn [app].
      apply (filled_result _ _ _ _ _ Hf4). lia. }
  split.
  - apply (Hall (repeat x00 (Z.to_nat (DialRequest_Size m)))).
    unfold len. rewrite repeat_length. lia.
  - intros buf Hbuf. apply Hall, Hbuf.
Qed.

Lemma Data_Size_bounds (m : Data) :
  len (Bytes m) <= size_field (len (Bytes m)) /\ 0 <= Data_Size m.
Proof.
  pose proof (len_nonneg (Bytes m)).
  pose proof (len_nonneg (Data_XXX_unrecognized m)).
  pose proof (size_field_bounds (len (Bytes m))).
  unfold Data_Size. lia.
Qed.

Lemma Data_writes_back (m : Data) :
  Data_Size m < 2 ^ 64 ->
  writes_back Data_Size Data_wire Data_MarshalToSizedBuffer m.
Proof.
  intros Hm.
  destruct (Data_Size_bounds m) as (Hb & H0).
  pose proof (len_nonneg (Bytes m)).
  pose proof (len_nonneg (Data_XXX_unrecognized m)).
  assert (forall buf, Data_Size m <= len buf ->
    Data_MarshalToSizedBuffer m buf
    = Ok (firstn (Z.to_nat (len buf - Data_Size m)) buf ++ Data_wire m, Data_Size m)
    /\ len (Data_wire m) = Data_Size m) as Hall.
  { intros buf Hbuf. unfold Data_MarshalToSizedBuffer, Data_Size, Data_wire in *.
    destruct (put_unrecognized_filled _ _ _ (Data_XXX_unrecognized m) _
                (filled_init buf) ltac:(lia)) as (b1 & -> & Hf1).
    cbn [bind]. rewrite app_nil_r in Hf1.
    destruct (put_field_filled _ _ _ (Bytes m) _ x0a
                Hf1 ltac:(lia) ltac:(lia)) as (b2 & -> & Hf2).
    cbn [bind].
    apply (filled_result _ _ _ _ _ Hf2). lia. }
  split.
  - apply (Hall (repeat x00 (Z.to_nat (Data_Size m)))).
    unfold len. rewrite repeat_length. lia.
  - intros buf Hbuf. apply Hall, Hbuf.
Qed.

Lemma isFrame_Message_Size_nonneg (x : isFrame_Message) :
  0 <= isFrame_Message_Size x.
Proof.
  destruct x as [[d|]|[d|]]; cbn [isFrame_Message_Size]; try lia.
  - destruct (DialRequest_Size_bounds d) as (_ & _ & _ & H).
    pose proof (size_msg_bounds _ H). lia.
  - destruct (Data_Size_bounds d) as (_ & H).
    pose proof (size_msg_bounds _ H). lia.
Qed.

(** [MarshalTo] of the oneof wrapper writes exactly the first [Size()] bytes
    of the slice it is given. *)
Lemma isFrame_Message_MarshalTo_app (x : isFrame_Message) (b c : list byte) :
  isFrame_Message_Size x < 2 ^ 64 -> len b = isFrame_Message_Size x ->
  exists n,
    isFrame_Message_MarshalTo x (b ++ c) = Ok (isFrame_Message_wire x ++ c, n)
    /\ len (isFrame_Message_wire x) = isFrame_Message_Size x.
Proof.
  intros Hx Hb. unfold isFrame_Message_MarshalTo. cbv zeta.
  rewrite <- Hb. rewrite slice_to_app. cbn [bind].
  rewrite skipn_len_app.
  destruct x as [[d|]|[d|]];
    cbn [isFrame_Message_Size isFrame_Message_wire] in *;
    unfold Frame_DialRequest_MarshalToSizedBuffer, Frame_Data_MarshalToSizedBuffer.
  - destruct (DialRequest_Size_bounds d) as (_ & _ & _ & H0).
    pose proof (size_msg_bounds _ H0).
    destruct (put_msg_filled DialRequest_Size DialRequest_wire
                DialRequest_MarshalToSizedBuffer d _ _ _ _ x0a
                (DialRequest_writes_back d ltac:(lia)) (filled_init b)
                ltac:(lia) ltac:(lia)) as (b2 & -> & Hf2).
    cbn [bind]. rewrite app_nil_r in Hf2.
    destruct Hf2 as (_ & Hl & ->).
    replace (len b - size_msg (DialRequest_Size d)) with 0 by lia.
    cbn [Z.to_nat firstn app]. eexists; split; [reflexivity|lia].
  - cbn [bind]. destruct b; [|unfold len in Hb; cbn in Hb; lia].
    cbn [app]. eexists; split; reflexivity.
  - destruct (Data_Size_bounds d) as (_ & H0).
    pose proof (size_msg_bounds _ H0).
    destruct (put_msg_filled Data_Size Data_wire
                Data_MarshalToSizedBuffer d _ _ _ _ x12
                (Data_writes_back d ltac:(lia)) (filled_init b)
                ltac:(lia) ltac:(lia)) as (b2 & -> & Hf2).
    cbn [bind]. rewrite app_nil_r in Hf2.
    destruct Hf2 as (_ & Hl & ->).
    replace (len b - size_msg (Data_Size d)) with 0 by lia.
    cbn [Z.to_nat firstn app]. eexists; split; [reflexivity|lia].
  - cbn [bind]. destruct b; [|unfold len in Hb; cbn in Hb; lia].
    cbn [app]. eexists; split; reflexivity.
Qed.

Lemma Frame_Size_bounds (m : Frame) :
  match Message m with
  | Some x => 0 <= isFrame_Message_Size x
  | None => True
  end /\ 0 <= Frame_Size m.
Proof.
  pose proof (len_nonneg (Frame_XXX_unrecognized m)).
  unfold Frame_Size. destruct (Message m) as [x|].
  - pose proof (isFrame_Message_Size_nonneg x). lia.
  - lia.
Qed.

Lemma Frame_writes_back (m : Frame) :
  Frame_Size m < 2 ^ 64 ->
  writes_back Frame_Size Frame_wire Frame_MarshalToSizedBuffer m.
Proof.
  intros Hm.
  destruct (Frame_Size_bounds m) as (Hx & H0).
  pose proof (len_nonneg (Frame_XXX_unrecognized m)).
  assert (forall buf, Frame_Size m <= len buf ->
    Frame_MarshalToSizedBuffer m buf
    = Ok (firstn (Z.to_nat (len buf - Frame_Size m)) buf ++ Frame_wire m, Frame_Size m)
    /\ len (Frame_wire m) = Frame_Size m) as Hall.
  { intros buf Hbuf. unfold Frame_MarshalToSizedBuffer, Frame_Size, Frame_wire in *.
    destruct (put_unrecognized_filled _ _ _ (Frame_XXX_unrecognized m) _
                (filled_init buf)) as (b1 & -> & Hf1).
    { destruct (Message m); lia. }
    cbn [bind]. rewrite app_nil_r in Hf1.
    destruct (Message m) as [x|].
    - pose proof (filled_len _ _ _ _ Hf1) as Hl1.
      destruct Hf1 as (Hi & Hl & ->).
      destruct (split_at buf (len buf - len (Frame_XXX_unrecognized m))
                  (isFrame_Message_Size x)) as (a & j & E & Ha & Hj & Ea);
        try lia.
      rewrite E, <- app_assoc.
      replace (len buf - len (Frame_XXX_unrecognized m) - isFrame_Message_Size x)
        with (len a) by lia.
      rewrite slice_from_app. cbn [bind].
      destruct (isFrame_Message_MarshalTo_app x j (Frame_XXX_unrecognized m))
        as (n & -> & Hw); try lia.
      cbn [bind]. rewrite firstn_len_app.
      rewrite !len_app. split.
      + f_equal. f_equal; [|lia].
        replace (len buf - (isFrame_Message_Size x + len (Frame_XXX_unrecognized m)))
          with (len buf - len (Frame_XXX_unrecognized m) - isFrame_Message_Size x)
          by lia.
        rewrite Ea. reflexivity.
      + lia.
    - cbn [bind app]. apply (filled_result _ _ _ _ _ Hf1). lia. }
  split.
  - apply (Hall (repeat x00 (Z.to_nat (Frame_Size m)))).
    unfold len. rewrite repeat_length. lia.
  - intros buf Hbuf. apply Hall, Hbuf.
Qed.

(** Marshal returns the wire form, which has [Size()] bytes. *)
Lemma marshal_with_wire {M : Type} (Size : M -> Z) (wire : M -> list byte)
  (MTSB : M -> list byte -> outcome (list byte * Z)) (m : M) :
  writes_back Size wire MTSB m -> 0 <= Size m <= MaxInt ->
  marshal_with Size MTSB m = Ok (wire m).
Proof.
  intros (Hw & Hx) Hs. unfold marshal_with, make.
  destruct (Z.leb_spec 0 (Size m)); [|lia].
  destruct (Z.leb_spec (Size m) MaxInt); [|lia].
  cbn [andb bind].
  set (buf := repeat x00 (Z.to_nat (Size m))).
  assert (len buf = Size m) as Hl
    by (unfold len, buf; rewrite repeat_length; lia).
  pose proof (slice_to_app buf []) as E. rewrite app_nil_r, Hl in E.
  rewrite E. cbn [bind]. rewrite Hx by lia. cbn [bind].
  rewrite Hl, Z.sub_diag. cbn [Z.to_nat firstn app].
  rewrite <- Hl, to_nat_len, skipn_all.
  rewrite Hl, <- Hw. apply slice_to_app.
Qed.


(** ** Reading back what Marshal wrote *)

Lemma varint_loop_S (n : nat) (wrap : Z -> Z) (dAtA : list byte) (l shift x iNdEx : Z) :
  varint_loop (S n) wrap dAtA l shift x iNdEx =
  if 64 <=? shift then Err ErrIntOverflowTunnel
  else if l <=? iNdEx then Err ErrUnexpectedEOF
  else
    b <- index dAtA iNdEx ;;
    let iNdEx := iNdEx + 1 in
    let x := Z.lor x (wrap (Z.shiftl (Z.land (b2z b) 127) shift)) in
    if b2z b <? 128 then Ok (x, iNdEx)
    else varint_loop n wrap dAtA l (shift + 7) x iNdEx.
Proof. reflexivity. Qed.

Lemma land_127_le (v : Z) : 0 <= v -> Z.land v 127 <= v.
Proof.
  intros Hv. change 127 with (Z.ones 7). rewrite Z.land_ones by lia.
  apply Z.mod_le; lia.
Qed.

Lemma shiftr7_mul_le (v : Z) : 0 <= v -> Z.shiftr v 7 * 128 <= v.
Proof.
  intros Hv. rewrite Z.shiftr_div_pow2 by lia. change (2 ^ 7) with 128.
  pose proof (Z.mul_div_le v 128). lia.
Qed.

Section VarintRead.
Variable wrap : Z -> Z.
Hypothesis wrap_small : forall z, 0 <= z < 2 ^ 63 -> wrap z = z.

Lemma wrap_shiftl (u v shift : Z) :
  0 <= shift -> 0 <= u <= v -> v * 2 ^ shift < 2 ^ 63 ->
  wrap (Z.shiftl u shift) = Z.shiftl u shift.
Proof.
  intros Hs Hu Hv. apply wrap_small. rewrite Z.shiftl_mul_pow2 by lia.
  assert (0 < 2 ^ shift) by (apply Z.pow_pos_nonneg; lia). nia.
Qed.

(** The varint loop reads back [varint_bytes]. *)
Lemma varint_loop_varint_bytes (n : nat) :
  forall (k : nat) (v : Z) (a c : list byte) (l shift x : Z),
  0 <= shift < 64 -> 0 <= v < 2 ^ (7 * Z.of_nat (S n)) ->
  v * 2 ^ shift < 2 ^ 63 ->
  len a + len (varint_bytes (S n) v) <= l ->
  varint_loop (S n + k) wrap (a ++ varint_bytes (S n) v ++ c) l shift x (len a)
  = Ok (Z.lor x (Z.shiftl v shift), len a + len (varint_bytes (S n) v)).
Proof.
  induction n as [|n IH]; intros k v a c l shift x Hs Hv Hvs Hl;
    rewrite varint_bytes_S in *; cbn [Nat.add]; rewrite varint_loop_S;
    (destruct (Z.leb_spec 64 shift); [lia|]);
    pose proof (len_nonneg a);
    destruct (Z.leb_spec 128 v) as [Hbig|Hsmall].
  - change (2 ^ (7 * Z.of_nat 1)) with 128 in Hv. lia.
  - rewrite len_cons in Hl. change (len (@nil byte)) with 0 in *.
    destruct (Z.leb_spec l (len a)); [lia|].
    cbn [app]. rewrite index_app. cbn [bind].
    rewrite b2z_uint8_small by lia. rewrite land_127_small by lia.
    rewrite (wrap_shiftl v v) by lia.
    destruct (Z.ltb_spec v 128); [|lia].
    rewrite len_cons. reflexivity.
  - rewrite len_cons in Hl. pose proof (len_nonneg (varint_bytes (S n) (Z.shiftr v 7))).
    destruct (Z.leb_spec l (len a)); [lia|].
    cbn [app]. rewrite index_app. cbn [bind].
    pose proof (land_127_range v) as Hr. pose proof (land_127_le v ltac:(lia)).
    rewrite b2z_uint8_small by (rewrite cont_byte_value; lia).
    rewrite cont_byte_low, cont_byte_value.
    rewrite (wrap_shiftl (Z.land v 127) v) by lia.
    destruct (Z.ltb_spec (Z.land v 127 + 128) 128); [lia|].
    pose proof (shiftr7_mul_le v ltac:(lia)).
    assert (0 <= Z.shiftr v 7 < 2 ^ (7 * Z.of_nat (S n))) as Hv'.
    { apply shiftr7_lt; [lia|].
      replace (7 * Z.of_nat (S n) + 7) with (7 * Z.of_nat (S (S n))) by lia.
      exact Hv. }
    assert (0 < 2 ^ shift) by (apply Z.pow_pos_nonneg; lia).
    assert (shift + 7 < 64) as Hs'.
    { destruct (Z.lt_ge_cases (shift + 7) 64) as [|Hge]; [assumption|].
      exfalso.
      assert (2 ^ 57 <= 2 ^ shift) by (apply Z.pow_le_mono_r; lia).
      change (2 ^ 57) with 144115188075855872 in *.
      change (2 ^ 63) with 9223372036854775808 in *. nia. }
    assert (Z.shiftr v 7 * 2 ^ (shift + 7) < 2 ^ 63) as Hvs'.
    { rewrite Z.pow_add_r by lia. change (2 ^ 7) with 128. nia. }
    replace (len a + 1) with (len (a ++ [uint8 (Z.land v 127 + 128)]))
      by (rewrite len_app; reflexivity).
    change (a ++ ?b :: ?r ++ c) with (a ++ [b] ++ r ++ c).
    rewrite (app_assoc a [_]).
    rewrite (IH k (Z.shiftr v 7)); try lia.
    + rewrite lor_shift_step by lia. rewrite len_app, !len_cons.
      change (len (@nil byte)) with 0. f_equal. f_equal. lia.
    + rewrite len_app. change (len [uint8 (Z.land v 127 + 128)]) with 1. lia.
  - rewrite len_cons in Hl. change (len (@nil byte)) with 0 in *.
    destruct (Z.leb_spec l (len a)); [lia|].
    cbn [app]. rewrite index_app. cbn [bind].
    rewrite b2z_uint8_small by lia. rewrite land_127_small by lia.
    rewrite (wrap_shiftl v v) by lia.
    destruct (Z.ltb_spec v 128); [|lia].
    rewrite len_cons. reflexivity.
Qed.

Lemma varint_loop_varint (v : Z) (a c : list byte) (l : Z) :
  0 <= v < 2 ^ 63 -> len a + sovTunnel v <= l ->
  varint_loop 11 wrap (a ++ varint v ++ c) l 0 0 (len a)
  = Ok (v, len a + sovTunnel v).
Proof.
  intros Hv Hl. pose proof pow64_le_pow70.
  assert (2 ^ 63 < 2 ^ 64) by (apply Z.pow_lt_mono_r; lia).
  rewrite <- len_varint in * by lia. unfold varint in *.
  change 11%nat with (10 + 1)%nat.
  rewrite varint_loop_varint_bytes; try lia.
  rewrite Z.shiftl_0_r. reflexivity.
Qed.
End VarintRead.

Lemma read_uvarint_varint (v : Z) (a c : list byte) (l : Z) :
  0 <= v < 2 ^ 63 -> len a + sovTunnel v <= l ->
  read_uvarint (a ++ varint v ++ c) l (len a) = Ok (v, len a + sovTunnel v).
Proof.
  apply varint_loop_varint. intros z Hz. apply uint64_small.
  assert (2 ^ 63 < 2 ^ 64) by (apply Z.pow_lt_mono_r; lia). lia.
Qed.

Lemma read_ivarint_varint (v : Z) (a c : list byte) (l : Z) :
  0 <= v < 2 ^ 63 -> len a + sovTunnel v <= l ->
  read_ivarint (a ++ varint v ++ c) l (len a) = Ok (v, len a + sovTunnel v).
Proof.
  apply varint_loop_varint. intros z Hz. apply int_small. lia.
Qed.

Lemma uint8_b2z (b : byte) : uint8 (b2z b) = b.
Proof.
  unfold uint8, b2z. pose proof (Byte.to_N_bounded b).
  rewrite Z.mod_small by lia. rewrite N2Z.id, Byte.of_to_N. reflexivity.
Qed.

Lemma varint_byte (t : byte) : b2z t < 128 -> varint (b2z t) = [t].
Proof.
  intros Ht. unfold varint. rewrite varint_bytes_S.
  destruct (Z.leb_spec 128 (b2z t)); [lia|]. now rewrite uint8_b2z.
Qed.

Lemma read_tag_known (msg : string) (t : byte) (a c : list byte) (l fn : Z) :
  b2z t < 128 -> Z.land (b2z t) 7 = 2 -> int32 (Z.shiftr (b2z t) 3) = fn ->
  0 < fn -> len a + 1 <= l ->
  read_tag msg (a ++ t :: c) l (len a) = Ok (fn, 2, len a + 1).
Proof.
  intros Ht Hw Hf Hfn Hl. unfold read_tag.
  pose proof (b2z_range t).
  pose proof (read_uvarint_varint (b2z t) a c l) as E.
  rewrite varint_byte, sov_small in E by lia. cbn [app] in E.
  rewrite E by lia. cbn [bind]. rewrite Hw, Hf. cbn [Z.eqb Pos.eqb].
  destruct (Z.leb_spec fn 0); [lia|reflexivity].
Qed.

Lemma post_index_ok (l iNdEx n : Z) :
  0 <= iNdEx -> 0 <= n -> iNdEx + n <= l -> l <= MaxInt ->
  post_index l iNdEx n = Ok (iNdEx + n).
Proof.
  intros Hi Hn Hl Hm. unfold post_index, MaxInt in *.
  destruct (Z.ltb_spec n 0); [lia|].
  rewrite int_small by lia.
  destruct (Z.ltb_spec (iNdEx + n) 0); [lia|].
  destruct (Z.ltb_spec l (iNdEx + n)); [lia|]. reflexivity.
Qed.

Lemma slice_app4 (a v s c : list byte) :
  slice (a ++ v ++ s ++ c) (len a + len v) (len a + len v + len s) = Ok s.
Proof.
  rewrite app_assoc, <- len_app. apply slice_app.
Qed.

Lemma read_string_app (s a c : list byte) (l : Z) :
  l = len (a ++ varint (len s) ++ s ++ c) -> l <= MaxInt ->
  read_string (a ++ varint (len s) ++ s ++ c) l (len a)
  = Ok (s, len a + sovTunnel (len s) + len s).
Proof.
  intros Hl Hm. unfold read_string, MaxInt in *.
  pose proof (len_nonneg a). pose proof (len_nonneg s). pose proof (len_nonneg c).
  pose proof (len_nonneg (varint (len s))).
  rewrite !len_app in Hl.
  assert (2 ^ 63 < 2 ^ 64) by (apply Z.pow_lt_mono_r; lia).
  pose proof (len_varint (len s) ltac:(lia)) as Hv.
  rewrite read_uvarint_varint by lia. cbn [bind].
  rewrite int_small by lia.
  rewrite post_index_ok by (unfold MaxInt; lia). cbn [bind].
  rewrite <- Hv. rewrite slice_app4. reflexivity.
Qed.

Lemma read_bytes_app (s a c : list byte) (l : Z) :
  l = len (a ++ varint (len s) ++ s ++ c) -> l <= MaxInt ->
  read_bytes (a ++ varint (len s) ++ s ++ c) l (len a)
  = Ok (s, len a + sovTunnel (len s) + len s).
Proof.
  intros Hl Hm. unfold read_bytes, MaxInt in *.
  pose proof (len_nonneg a). pose proof (len_nonneg s). pose proof (len_nonneg c).
  pose proof (len_nonneg (varint (len s))).
  rewrite !len_app in Hl.
  assert (2 ^ 63 < 2 ^ 64) by (apply Z.pow_lt_mono_r; lia).
  pose proof (len_varint (len s) ltac:(lia)) as Hv.
  rewrite read_ivarint_varint by lia. cbn [bind].
  rewrite post_index_ok by (unfold MaxInt; lia). cbn [bind].
  rewrite <- Hv. rewrite slice_app4. reflexivity.
Qed.

Lemma enough_S (fuel : nat) (buf : list byte) (i : Z) :
  enough fuel buf i -> i <= len buf -> exists fuel', fuel = S fuel'.
Proof.
  unfold enough. intros H Hi. destruct fuel as [|f]; [lia|eauto].
Qed.

Lemma enough_next (fuel : nat) (buf : list byte) (i j : Z) :
  enough (S fuel) buf i -> i < j -> enough fuel buf j.
Proof. unfold enough. lia. Qed.

(** A tagged string or bytes field [tag :: varint (len s) ++ s] at index
    [len a]: the tag, then the payload. *)
Lemma field_at (msg : string) (t : byte) (fn : Z) (s a c : list byte) (l : Z)
  (buf := a ++ (t :: varint (len s) ++ s) ++ c) :
  b2z t < 128 -> Z.land (b2z t) 7 = 2 -> int32 (Z.shiftr (b2z t) 3) = fn ->
  0 < fn -> l = len buf -> l <= MaxInt ->
  len a < l
  /\ read_tag msg buf l (len a) = Ok (fn, 2, len a + 1)
  /\ read_string buf l (len a + 1) = Ok (s, len a + len (t :: varint (len s) ++ s))
  /\ read_bytes buf l (len a + 1) = Ok (s, len a + len (t :: varint (len s) ++ s))
  /\ len a < len a + len (t :: varint (len s) ++ s) <= l.
Proof.
  intros Ht Hw Hf Hfn Hl Hm. subst buf.
  pose proof (len_nonneg a). pose proof (len_nonneg s). pose proof (len_nonneg c).
  pose proof (len_nonneg (varint (len s))).
  assert (len s < 2 ^ 64).
  { rewrite !len_app, len_cons, len_app in Hl. unfold MaxInt in Hm.
    assert (2 ^ 63 < 2 ^ 64) by (apply Z.pow_lt_mono_r; lia). lia. }
  cbn [app] in *. rewrite <- app_assoc in *.
  assert (len (t :: varint (len s) ++ s) = 1 + sovTunnel (len s) + len s) as E
    by (rewrite len_cons, len_app, len_varint by lia; lia).
  rewrite E. pose proof (sov_pos (len s) ltac:(lia)).
  assert (len a + (1 + sovTunnel (len s) + len s) <= l) as Hle.
  { rewrite Hl. rewrite len_app, len_cons, !len_app, len_varint by lia. lia. }
  split; [lia|]. split; [apply read_tag_known; try assumption; lia|].
  replace (len a + 1) with (len (a ++ [t])) by (rewrite len_app; reflexivity).
  assert (a ++ t :: varint (len s) ++ s ++ c
          = (a ++ [t]) ++ varint (len s) ++ s ++ c) as Hbuf
    by (rewrite <- app_assoc; reflexivity).
  rewrite Hbuf in *.
  rewrite read_string_app, read_bytes_app by assumption.
  rewrite len_app. change (len [t]) with 1.
  repeat split; try (f_equal; f_equal; lia); lia.
Qed.


(** ** A longer buffer does not change what was read *)

Lemma index_inv (buf : list byte) (i : Z) (b : byte) :
  index buf i = Ok b ->
  0 <= i < len buf /\ nth_error buf (Z.to_nat i) = Some b.
Proof.
  unfold index. destruct (Z.leb_spec 0 i); [|discriminate].
  destruct (Z.ltb_spec i (len buf)); [|discriminate]. cbn [andb].
  destruct (nth_error buf (Z.to_nat i)) eqn:E; [|discriminate].
  intros [= ->]. auto.
Qed.

Lemma index_ext (a uf c : list byte) (i : Z) (b : byte) :
  index uf i = Ok b -> index (a ++ uf ++ c) (len a + i) = Ok b.
Proof.
  intros H. apply index_inv in H as (Hi & Hn).
  pose proof (len_nonneg a). pose proof (len_nonneg c).
  unfold index. rewrite !len_app.
  destruct (Z.leb_spec 0 (len a + i)); [|lia].
  destruct (Z.ltb_spec (len a + i) (len a + (len uf + len c))); [|lia].
  cbn [andb].
  replace (Z.to_nat (len a + i)) with (length a + Z.to_nat i)%nat
    by (unfold len; lia).
  rewrite nth_error_app2 by lia.
  replace (length a + Z.to_nat i - length a)%nat with (Z.to_nat i) by lia.
  rewrite nth_error_app1 by (unfold len in Hi; lia).
  rewrite Hn. reflexivity.
Qed.

Lemma index_returns (buf : list byte) (i : Z) :
  0 <= i < len buf -> exists b, index buf i = Ok b.
Proof.
  intros Hi. unfold index.
  destruct (Z.leb_spec 0 i); [|lia].
  destruct (Z.ltb_spec i (len buf)); [|lia]. cbn [andb].
  destruct (nth_error buf (Z.to_nat i)) eqn:E; [eauto|].
  apply nth_error_None in E. unfold len in Hi. lia.
Qed.

Lemma varint_loop_ext (wrap : Z -> Z) (a uf c : list byte) (fuel : nat) :
  forall (shift x i v j l' : Z),
  varint_loop fuel wrap uf (len uf) shift x i = Ok (v, j) ->
  len a + len uf <= l' ->
  varint_loop fuel wrap (a ++ uf ++ c) l' shift x (len a + i)
  = Ok (v, len a + j).
Proof.
  induction fuel as [|fuel IH]; intros shift x i v j l' H Hl; [discriminate|].
  rewrite varint_loop_S in *.
  destruct (Z.leb_spec 64 shift); [discriminate|].
  destruct (Z.leb_spec (len uf) i); [discriminate|].
  destruct (Z.leb_spec l' (len a + i)); [lia|].
  destruct (index uf i) as [b| | |] eqn:E; try discriminate.
  rewrite (index_ext _ _ _ _ _ E). cbn [bind] in *.
  destruct (Z.ltb_spec (b2z b) 128).
  - injection H as <- <-. f_equal. f_equal. lia.
  - rewrite <- Z.add_assoc. apply IH; assumption.
Qed.

Lemma read_uvarint_ext (a uf c : list byte) (i v j l' : Z) :
  read_uvarint uf (len uf) i = Ok (v, j) ->
  len a + len uf <= l' ->
  read_uvarint (a ++ uf ++ c) l' (len a + i) = Ok (v, len a + j).
Proof. apply varint_loop_ext. Qed.

Lemma read_ivarint_ext (a uf c : list byte) (i v j l' : Z) :
  read_ivarint uf (len uf) i = Ok (v, j) ->
  len a + len uf <= l' ->
  read_ivarint (a ++ uf ++ c) l' (len a + i) = Ok (v, len a + j).
Proof. apply varint_loop_ext. Qed.

Lemma skip_varint_loop_S (n : nat) (dAtA : list byte) (l shift iNdEx : Z) :
  skip_varint_loop (S n) dAtA l shift iNdEx =
  if 64 <=? shift then Err ErrIntOverflowTunnel
  else if l <=? iNdEx then Err ErrUnexpectedEOF
  else
    let iNdEx := iNdEx + 1 in
    b <- index dAtA (iNdEx - 1) ;;
    if b2z b <? 128 then Ok iNdEx
    else skip_varint_loop n dAtA l (shift + 7) iNdEx.
Proof. reflexivity. Qed.

Lemma skip_varint_loop_ext (uf c : list byte) (fuel : nat) :
  forall (shift i j l' : Z),
  skip_varint_loop fuel uf (len uf) shift i = Ok j ->
  len uf <= l' ->
  skip_varint_loop fuel (uf ++ c) l' shift i = Ok j.
Proof.
  induction fuel as [|fuel IH]; intros shift i j l' H Hl; [discriminate|].
  rewrite skip_varint_loop_S in *.
  destruct (Z.leb_spec 64 shift); [discriminate|].
  destruct (Z.leb_spec (len uf) i); [discriminate|].
  destruct (Z.leb_spec l' i); [lia|].
  cbv zeta in *.
  destruct (index uf (i + 1 - 1)) as [b| | |] eqn:E; try discriminate.
  pose proof (index_ext [] uf c _ _ E) as E'. cbn [app] in E'.
  change (len (@nil byte)) with 0 in E'. rewrite Z.add_0_l in E'.
  rewrite E'. cbn [bind] in *.
  destruct (Z.ltb_spec (b2z b) 128); [assumption|].
  apply IH; assumption.
Qed.

Lemma skipTunnel_loop_S (n : nat) (dAtA : list byte) (iNdEx depth : Z) :
  skipTunnel_loop (S n) dAtA iNdEx depth =
  let l := len dAtA in
  if iNdEx <? l then
    '(wire, iNdEx) <- read_uvarint dAtA l iNdEx ;;
    let wireType := Z.land wire 7 in
    '(iNdEx, depth) <-
      (if wireType =? 0 then
         iNdEx <- skip_varint_loop 11 dAtA l 0 iNdEx ;;
         Ok (iNdEx, depth)
       else if wireType =? 1 then Ok (int (iNdEx + 8), depth)
       else if wireType =? 2 then
         '(length, iNdEx) <- read_ivarint dAtA l iNdEx ;;
         if length <? 0 then Err ErrInvalidLengthTunnel
         else Ok (int (iNdEx + length), depth)
       else if wireType =? 3 then Ok (iNdEx, depth + 1)
       else if wireType =? 4 then
         if depth =? 0 then Err ErrUnexpectedEndOfGroupTunnel
         else Ok (iNdEx, depth - 1)
       else if wireType =? 5 then Ok (int (iNdEx + 4), depth)
       else Err (ErrIllegalWireType wireType)) ;;
    if iNdEx <? 0 then Err ErrInvalidLengthTunnel
    else if depth =? 0 then Ok iNdEx
    else skipTunnel_loop n dAtA iNdEx depth
  else Err ErrUnexpectedEOF.
Proof. reflexivity. Qed.

Lemma skipTunnel_loop_ext (uf c : list byte) (fuel : nat) :
  forall (fuel' : nat) (i depth n : Z),
  skipTunnel_loop fuel uf i depth = Ok n ->
  (fuel <= fuel')%nat ->
  skipTunnel_loop fuel' (uf ++ c) i depth = Ok n.
Proof.
  induction fuel as [|fuel IH]; intros fuel' i depth n H Hf; [discriminate|].
  destruct fuel' as [|fuel']; [lia|].
  rewrite skipTunnel_loop_S in *. cbv zeta in *.
  pose proof (len_nonneg c). rewrite len_app.
  destruct (Z.ltb_spec i (len uf)); [|discriminate].
  destruct (Z.ltb_spec i (len uf + len c)); [|lia].
  destruct (read_uvarint uf (len uf) i) as [[wire i1]| | |] eqn:E1;
    try discriminate.
  pose proof (read_uvarint_ext [] uf c i wire i1 (len uf + len c) E1) as E1'.
  cbn [app] in E1'. change (len (@nil byte)) with 0 in E1'.
  rewrite !Z.add_0_l in E1'. rewrite E1' by lia. cbn [bind] in *.
  destruct (Z.land wire 7 =? 0).
  { destruct (skip_varint_loop 11 uf (len uf) 0 i1) as [i2| | |] eqn:E2;
      try discriminate.
    rewrite (skip_varint_loop_ext uf c 11 0 i1 i2 (len uf + len c) E2) by lia.
    cbn [bind] in *.
    destruct (i2 <? 0); [discriminate|].
    destruct (depth =? 0); [assumption|]. apply IH; [assumption|lia]. }
  destruct (Z.land wire 7 =? 1).
  { cbn [bind] in *. destruct (int (i1 + 8) <? 0); [discriminate|].
    destruct (depth =? 0); [assumption|]. apply IH; [assumption|lia]. }
  destruct (Z.land wire 7 =? 2).
  { destruct (read_ivarint uf (len uf) i1) as [[length i2]| | |] eqn:E2;
      try discriminate.
    pose proof (read_ivarint_ext [] uf c i1 length i2 (len uf + len c) E2) as E2'.
    cbn [app] in E2'. change (len (@nil byte)) with 0 in E2'.
    rewrite !Z.add_0_l in E2'. rewrite E2' by lia. cbn [bind] in *.
    destruct (length <? 0); [discriminate|]. cbn [bind] in *.
    destruct (int (i2 + length) <? 0); [discriminate|].
    destruct (depth =? 0); [assumption|]. apply IH; [assumption|lia]. }
  destruct (Z.land wire 7 =? 3).
  { cbn [bind] in *. destruct (i1 <? 0); [discriminate|].
    destruct (depth + 1 =? 0); [assumption|]. apply IH; [assumption|lia]. }
  destruct (Z.land wire 7 =? 4).
  { destruct (depth =? 0); [discriminate|]. cbn [bind] in *.
    destruct (i1 <? 0); [discriminate|].
    destruct (depth - 1 =? 0); [assumption|]. apply IH; [assumption|lia]. }
  destruct (Z.land wire 7 =? 5).
  { cbn [bind] in *. destruct (int (i1 + 4) <? 0); [discriminate|].
    destruct (depth =? 0); [assumption|]. apply IH; [assumption|lia]. }
  discriminate.
Qed.

Lemma skipTunnel_ext (uf c : list byte) (n : Z) :
  skipTunnel uf = Ok n -> skipTunnel (uf ++ c) = Ok n.
Proof.
  unfold skipTunnel. intros H.
  apply skipTunnel_loop_ext with (fuel := S (length uf)); [assumption|].
  rewrite length_app. lia.
Qed.


(** ** One turn of an Unmarshal loop *)

Lemma read_uvarint_nonempty (buf : list byte) (i v j : Z) :
  read_uvarint buf (len buf) i = Ok (v, j) -> i < len buf.
Proof.
  unfold read_uvarint. rewrite varint_loop_S. cbn [Z.leb].
  destruct (Z.leb_spec (len buf) i); [discriminate|lia].
Qed.

Lemma read_tag_ext (msg msg' : string) (a uf c : list byte) (fn wt i l' : Z) :
  read_tag msg uf (len uf) 0 = Ok (fn, wt, i) ->
  len a + len uf <= l' ->
  read_tag msg' (a ++ uf ++ c) l' (len a) = Ok (fn, wt, len a + i)
  /\ 0 < len uf /\ 0 < fn.
Proof.
  unfold read_tag. intros H Hl.
  destruct (read_uvarint uf (len uf) 0) as [[wire i1]| | |] eqn:E;
    try discriminate.
  pose proof (read_uvarint_nonempty _ _ _ _ E).
  pose proof (read_uvarint_ext a uf c 0 wire i1 l' E Hl) as E'.
  rewrite Z.add_0_r in E'. rewrite E'. cbn [bind] in *.
  destruct (Z.land wire 7 =? 4); [discriminate|].
  destruct (Z.leb_spec (int32 (Z.shiftr wire 3)) 0); [discriminate|].
  injection H as <- <- <-. auto.
Qed.

Lemma unknown_field_inv (known : Z -> bool) (uf : list byte) :
  unknown_field known uf = true ->
  exists fn wt i,
    read_tag "" uf (len uf) 0 = Ok (fn, wt, i)
    /\ known fn = false /\ skipTunnel uf = Ok (len uf).
Proof.
  unfold unknown_field. intros H.
  destruct (read_tag "" uf (len uf) 0) as [[[fn wt] i]| | |]; try discriminate.
  apply andb_true_iff in H as (Hk & Hs).
  destruct (skipTunnel uf) as [n| | |]; try discriminate.
  apply Z.eqb_eq in Hs as ->. apply negb_true_iff in Hk.
  exists fn, wt, i. auto.
Qed.

Lemma skip_unknown_app (a uf c : list byte) (l : Z) :
  skipTunnel uf = Ok (len uf) -> l = len (a ++ uf ++ c) -> l <= MaxInt ->
  skip_unknown (a ++ uf ++ c) l (len a) = Ok (uf, len a + len uf).
Proof.
  intros Hs Hl Hm. unfold skip_unknown, MaxInt in *.
  pose proof (len_nonneg a). pose proof (len_nonneg uf). pose proof (len_nonneg c).
  rewrite !len_app in Hl.
  rewrite slice_from_app. cbn [bind].
  rewrite (skipTunnel_ext _ _ _ Hs). cbn [bind].
  rewrite int_small by lia.
  destruct (Z.ltb_spec (len uf) 0); [lia|].
  destruct (Z.ltb_spec (len a + len uf) 0); [lia|]. cbn [orb].
  destruct (Z.ltb_spec l (len a + len uf)); [lia|].
  rewrite slice_app. reflexivity.
Qed.

Lemma finish_at_end {M : Type} (m : M) (l : Z) : finish m l l = Ok m.
Proof.
  unfold finish. destruct (Z.ltb_spec l l); [lia|reflexivity].
Qed.

(** What every step lemma needs about one unknown field. *)
Lemma unknown_field_at (known : Z -> bool) (msg : string) (a uf c : list byte)
  (l : Z) (buf := a ++ uf ++ c) :
  unknown_field known uf = true -> l = len buf -> l <= MaxInt ->
  exists fn wt i,
    read_tag msg buf l (len a) = Ok (fn, wt, i)
    /\ known fn = false
    /\ skip_unknown buf l (len a) = Ok (uf, len a + len uf)
    /\ len a < len a + len uf <= l.
Proof.
  intros Hu Hl Hm. subst buf.
  destruct (unknown_field_inv _ _ Hu) as (fn & wt & i & Ht & Hk & Hs).
  pose proof (len_nonneg a). pose proof (len_nonneg c).
  assert (len a + len uf <= l) as Hle by (rewrite Hl, !len_app; lia).
  destruct (read_tag_ext "" msg a uf c fn wt i l Ht Hle) as (Ht' & Hpos & _).
  exists fn, wt, (len a + i). repeat split; try assumption; try lia.
  apply skip_unknown_app; assumption.
Qed.

(** *** Addr *)

Lemma Addr_Unmarshal_loop_end (fuel : nat) (m : Addr) (buf : list byte) :
  enough fuel buf (len buf) ->
  Addr_Unmarshal_loop fuel m buf (len buf) = Ok m.
Proof.
  intros He. destruct (enough_S _ _ _ He) as (f & ->); [lia|].
  cbn [Addr_Unmarshal_loop].
  destruct (Z.ltb_spec (len buf) (len buf)); [lia|]. apply finish_at_end.
Qed.

Lemma Addr_step_unknown (fuel : nat) (m : Addr) (a uf c buf : list byte) :
  buf = a ++ uf ++ c ->
  unknown_field Addr_known uf = true -> len buf <= MaxInt ->
  enough fuel buf (len a) ->
  exists fuel', enough fuel' buf (len a + len uf)
    /\ Addr_Unmarshal_loop fuel m buf (len a)
       = Addr_Unmarshal_loop fuel'
           (mkAddr (Network m) (Address m) (Addr_XXX_unrecognized m ++ uf))
           buf (len a + len uf).
Proof.
  intros -> Hu Hm He.
  destruct (unknown_field_at Addr_known "Addr" a uf c _ Hu eq_refl Hm)
    as (fn & wt & i & Ht & Hk & Hs & Hr).
  destruct (enough_S _ _ _ He) as (f & ->); [lia|].
  exists f. split; [eapply enough_next; [eassumption|lia]|].
  cbn [Addr_Unmarshal_loop].
  match goal with |- context [?i <? ?l] => destruct (Z.ltb_spec i l); [|lia] end.
  rewrite Ht. cbn [bind]. unfold Addr_known in Hk.
  apply orb_false_iff in Hk as (-> & ->).
  rewrite Hs. reflexivity.
Qed.

Lemma Addr_steps_unknown (u : list byte) :
  unknown_fields Addr_known u ->
  forall (fuel : nat) (m : Addr) (a c buf : list byte),
  buf = a ++ u ++ c ->
  len buf <= MaxInt -> enough fuel buf (len a) ->
  exists fuel', enough fuel' buf (len a + len u)
    /\ Addr_Unmarshal_loop fuel m buf (len a)
       = Addr_Unmarshal_loop fuel'
           (mkAddr (Network m) (Address m) (Addr_XXX_unrecognized m ++ u))
           buf (len a + len u).
Proof.
  induction 1 as [|uf rest Huf Hrest IH]; intros fuel m a c buf Hb Hm He.
  - change (len (@nil byte)) with 0.
    rewrite Z.add_0_r, app_nil_r. exists fuel. destruct m; auto.
  - destruct (Addr_step_unknown fuel m a uf (rest ++ c) buf) as (f1 & He1 & ->);
      try assumption; [now rewrite Hb, <- app_assoc|].
    rewrite <- (len_app a uf) in *.
    destruct (IH f1 (mkAddr (Network m) (Address m) (Addr_XXX_unrecognized m ++ uf))
                 (a ++ uf) c buf) as (f2 & He2 & ->);
      try assumption; [now rewrite Hb, <- !app_assoc|].
    exists f2. cbn [Network Address Addr_XXX_unrecognized].
    rewrite !len_app in *. rewrite <- app_assoc, Z.add_assoc. auto.
Qed.

(** A string field of the wire form, present or left out. *)
Lemma Addr_step_Network (fuel : nat) (m : Addr) (s a c buf : list byte) :
  buf = a ++ wire_field x0a s ++ c ->
  len buf <= MaxInt -> enough fuel buf (len a) ->
  exists fuel', enough fuel' buf (len a + len (wire_field x0a s))
    /\ Addr_Unmarshal_loop fuel m buf (len a)
       = Addr_Unmarshal_loop fuel'
           (mkAddr (if 0 <? len s then string_of_list_byte s else Network m)
                   (Address m) (Addr_XXX_unrecognized m))
           buf (len a + len (wire_field x0a s)).
Proof.
  intros -> Hm He. unfold wire_field in *.
  destruct (Z.ltb_spec 0 (len s)).
  - destruct (field_at "Addr" x0a 1 s a c _ ltac:(cbn; lia) eq_refl eq_refl
                ltac:(lia) eq_refl Hm) as (Hlt & Ht & Hs & _ & Hr).
    destruct (enough_S _ _ _ He) as (f & ->); [lia|].
    exists f. split; [eapply enough_next; [eassumption|lia]|].
    cbn [Addr_Unmarshal_loop].
    match goal with |- context [?i <? ?l] => destruct (Z.ltb_spec i l); [|lia] end.
    rewrite Ht. cbn [bind expect_bytes Z.eqb Pos.eqb negb]. rewrite Hs.
    reflexivity.
  - cbn [app] in *. change (len (@nil byte)) with 0. rewrite Z.add_0_r.
    exists fuel. destruct m; auto.
Qed.

Lemma Addr_step_Address (fuel : nat) (m : Addr) (s a c buf : list byte) :
  buf = a ++ wire_field x12 s ++ c ->
  len buf <= MaxInt -> enough fuel buf (len a) ->
  exists fuel', enough fuel' buf (len a + len (wire_field x12 s))
    /\ Addr_Unmarshal_loop fuel m buf (len a)
       = Addr_Unmarshal_loop fuel'
           (mkAddr (Network m)
                   (if 0 <? len s then string_of_list_byte s else Address m)
                   (Addr_XXX_unrecognized m))
           buf (len a + len (wire_field x12 s)).
Proof.
  intros -> Hm He. unfold wire_field in *.
  destruct (Z.ltb_spec 0 (len s)).
  - destruct (field_at "Addr" x12 2 s a c _ ltac:(cbn; lia) eq_refl eq_refl
                ltac:(lia) eq_refl Hm) as (Hlt & Ht & Hs & _ & Hr).
    destruct (enough_S _ _ _ He) as (f & ->); [lia|].
    exists f. split; [eapply enough_next; [eassumption|lia]|].
    cbn [Addr_Unmarshal_loop].
    match goal with |- context [?i <? ?l] => destruct (Z.ltb_spec i l); [|lia] end.
    rewrite Ht. cbn [bind expect_bytes Z.eqb Pos.eqb negb]. rewrite Hs.
    reflexivity.
  - cbn [app] in *. change (len (@nil byte)) with 0. rewrite Z.add_0_r.
    exists fuel. destruct m; auto.
Qed.

Lemma string_field_back (s : string) :
  (if 0 <? slen s then string_of_list_byte (list_byte_of_string s) else ""%string) = s.
Proof.
  unfold slen. rewrite string_of_list_byte_of_string.
  destruct (Z.ltb_spec 0 (len (list_byte_of_string s))); [reflexivity|].
  destruct (list_byte_of_string s) eqn:E.
  - rewrite <- (string_of_list_byte_of_string s), E. reflexivity.
  - rewrite len_cons in *. pose proof (len_nonneg l). lia.
Qed.

(** Unmarshal of the wire form of a well-formed Addr gives the Addr back. *)
Lemma Addr_Unmarshal_wire (m : Addr) :
  Addr_wf m -> len (Addr_wire m) <= MaxInt ->
  Addr_Unmarshal Addr_zero (Addr_wire m) = Ok m.
Proof.
  intros Hwf Hm. unfold Addr_Unmarshal.
  assert (enough (S (length (Addr_wire m))) (Addr_wire m) (len (@nil byte))) as He0
    by (unfold enough, len; cbn [length]; lia).
  change 0 with (len (@nil byte)).
  destruct (Addr_step_Network _ Addr_zero (list_byte_of_string (Network m))
              [] _ (Addr_wire m) eq_refl Hm He0)
    as (n1 & He1 & ->).
  change (len [] + len ?x) with (len ([] ++ x)) in *. cbn [app] in *.
  match goal with |- Addr_Unmarshal_loop _ ?m0 _ _ = _ =>
    destruct (Addr_step_Address n1 m0 (list_byte_of_string (Address m))
                _ _ (Addr_wire m) eq_refl Hm He1)
      as (n2 & He2 & ->)
  end.
  rewrite <- len_app in *.
  match goal with |- Addr_Unmarshal_loop _ ?m0 _ _ = _ =>
    destruct (Addr_steps_unknown _ Hwf n2 m0 _ [] (Addr_wire m)
                ltac:(unfold Addr_wire; now rewrite app_nil_r, <- app_assoc)
                Hm He2)
      as (n3 & He3 & ->)
  end.
  rewrite <- len_app in *. rewrite <- app_assoc in *.
  fold (Addr_wire m) in *. rewrite Addr_Unmarshal_loop_end by assumption.
  cbn [Network Address Addr_XXX_unrecognized Addr_zero app].
  fold (slen (Network m)). fold (slen (Address m)).
  rewrite !string_field_back. destruct m; reflexivity.
Qed.


(** *** DialRequest *)

Lemma DialRequest_Unmarshal_loop_end (fuel : nat) (m : DialRequest) (buf : list byte) :
  enough fuel buf (len buf) ->
  DialRequest_Unmarshal_loop fuel m buf (len buf) = Ok m.
Proof.
  intros He. destruct (enough_S _ _ _ He) as (f & ->); [lia|].
  cbn [DialRequest_Unmarshal_loop].
  destruct (Z.ltb_spec (len buf) (len buf)); [lia|]. apply finish_at_end.
Qed.

Lemma DialRequest_step_unknown (fuel : nat) (m : DialRequest) (a uf c buf : list byte) :
  buf = a ++ uf ++ c ->
  unknown_field DialRequest_known uf = true -> len buf <= MaxInt ->
  enough fuel buf (len a) ->
  exists fuel', enough fuel' buf (len a + len uf)
    /\ DialRequest_Unmarshal_loop fuel m buf (len a)
       = DialRequest_Unmarshal_loop fuel'
           (mkDialRequest (ServerID m) (ConnType m) (To m)
                          (DialRequest_XXX_unrecognized m ++ uf))
           buf (len a + len uf).
Proof.
  intros -> Hu Hm He.
  destruct (unknown_field_at DialRequest_known "DialRequest" a uf c _ Hu eq_refl Hm)
    as (fn & wt & i & Ht & Hk & Hs & Hr).
  destruct (enough_S _ _ _ He) as (f & ->); [lia|].
  exists f. split; [eapply enough_next; [eassumption|lia]|].
  cbn [DialRequest_Unmarshal_loop].
  match goal with |- context [?i <? ?l] => destruct (Z.ltb_spec i l); [|lia] end.
  rewrite Ht. cbn [bind]. unfold DialRequest_known in Hk.
  apply orb_false_iff in Hk as (Hk & ->).
  apply orb_false_iff in Hk as (-> & ->).
  rewrite Hs. reflexivity.
Qed.

Lemma DialRequest_steps_unknown (u : list byte) :
  unknown_fields DialRequest_known u ->
  forall (fuel : nat) (m : DialRequest) (a c buf : list byte),
  buf = a ++ u ++ c ->
  len buf <= MaxInt -> enough fuel buf (len a) ->
  exists fuel', enough fuel' buf (len a + len u)
    /\ DialRequest_Unmarshal_loop fuel m buf (len a)
       = DialRequest_Unmarshal_loop fuel'
           (mkDialRequest (ServerID m) (ConnType m) (To m)
                          (DialRequest_XXX_unrecognized m ++ u))
           buf (len a + len u).
Proof.
  induction 1 as [|uf rest Huf Hrest IH]; intros fuel m a c buf Hb Hm He.
  - change (len (@nil byte)) with 0.
    rewrite Z.add_0_r, app_nil_r. exists fuel. destruct m; auto.
  - destruct (DialRequest_step_unknown fuel m a uf (rest ++ c) buf)
      as (f1 & He1 & ->); try assumption; [now rewrite Hb, <- app_assoc|].
    rewrite <- (len_app a uf) in *.
    destruct (IH f1 (mkDialRequest (ServerID m) (ConnType m) (To m)
                       (DialRequest_XXX_unrecognized m ++ uf))
                 (a ++ uf) c buf) as (f2 & He2 & ->);
      try assumption; [now rewrite Hb, <- !app_assoc|].
    exists f2. cbn [ServerID ConnType To DialRequest_XXX_unrecognized].
    rewrite !len_app in *. rewrite <- app_assoc, Z.add_assoc. auto.
Qed.

Lemma DialRequest_step_ServerID (fuel : nat) (m : DialRequest) (s a c buf : list byte) :
  buf = a ++ wire_field x0a s ++ c ->
  len buf <= MaxInt -> enough fuel buf (len a) ->
  exists fuel', enough fuel' buf (len a + len (wire_field x0a s))
    /\ DialRequest_Unmarshal_loop fuel m buf (len a)
       = DialRequest_Unmarshal_loop fuel'
           (mkDialRequest (if 0 <? len s then string_of_list_byte s else ServerID m)
                          (ConnType m) (To m) (DialRequest_XXX_unrecognized m))
           buf (len a + len (wire_field x0a s)).
Proof.
  intros -> Hm He. unfold wire_field in *.
  destruct (Z.ltb_spec 0 (len s)).
  - destruct (field_at "DialRequest" x0a 1 s a c _ ltac:(cbn; lia) eq_refl eq_refl
                ltac:(lia) eq_refl Hm) as (Hlt & Ht & Hs & _ & Hr).
    destruct (enough_S _ _ _ He) as (f & ->); [lia|].
    exists f. split; [eapply enough_next; [eassumption|lia]|].
    cbn [DialRequest_Unmarshal_loop].
    match goal with |- context [?i <? ?l] => destruct (Z.ltb_spec i l); [|lia] end.
    rewrite Ht. cbn [bind expect_bytes Z.eqb Pos.eqb negb]. rewrite Hs.
    reflexivity.
  - cbn [app] in *. change (len (@nil byte)) with 0. rewrite Z.add_0_r.
    exists fuel. destruct m; auto.
Qed.

Lemma DialRequest_step_ConnType (fuel : nat) (m : DialRequest) (s a c buf : list byte) :
  buf = a ++ wire_field x12 s ++ c ->
  len buf <= MaxInt -> enough fuel buf (len a) ->
  exists fuel', enough fuel' buf (len a + len (wire_field x12 s))
    /\ DialRequest_Unmarshal_loop fuel m buf (len a)
       = DialRequest_Unmarshal_loop fuel'
           (mkDialRequest (ServerID m)
                          (if 0 <? len s then string_of_list_byte s else ConnType m)
                          (To m) (DialRequest_XXX_unrecognized m))
           buf (len a + len (wire_field x12 s)).
Proof.
  intros -> Hm He. unfold wire_field in *.
  destruct (Z.ltb_spec 0 (len s)).
  - destruct (field_at "DialRequest" x12 2 s a c _ ltac:(cbn; lia) eq_refl eq_refl
                ltac:(lia) eq_refl Hm) as (Hlt & Ht & Hs & _ & Hr).
    destruct (enough_S _ _ _ He) as (f & ->); [lia|].
    exists f. split; [eapply enough_next; [eassumption|lia]|].
    cbn [DialRequest_Unmarshal_loop].
    match goal with |- context [?i <? ?l] => destruct (Z.ltb_spec i l); [|lia] end.
    rewrite Ht. cbn [bind expect_bytes Z.eqb Pos.eqb negb]. rewrite Hs.
    reflexivity.
  - cbn [app] in *. change (len (@nil byte)) with 0. rewrite Z.add_0_r.
    exists fuel. destruct m; auto.
Qed.

Lemma len_wire_msg_ge (tag : byte) (s : list byte) : len s <= len (wire_msg tag s).
Proof.
  unfold wire_msg. rewrite len_cons, len_app.
  pose proof (len_nonneg (varint (len s))). lia.
Qed.

Lemma DialRequest_step_To (fuel : nat) (m : DialRequest) (x : Addr)
  (a c buf : list byte) :
  buf = a ++ wire_msg x1a (Addr_wire x) ++ c ->
  len buf <= MaxInt -> enough fuel buf (len a) ->
  To m = None -> Addr_wf x ->
  exists fuel', enough fuel' buf (len a + len (wire_msg x1a (Addr_wire x)))
    /\ DialRequest_Unmarshal_loop fuel m buf (len a)
       = DialRequest_Unmarshal_loop fuel'
           (mkDialRequest (ServerID m) (ConnType m) (Some x)
                          (DialRequest_XXX_unrecognized m))
           buf (len a + len (wire_msg x1a (Addr_wire x))).
Proof.
  intros -> Hm He Hto Hwf.
  assert (len (Addr_wire x) <= MaxInt) as Hx.
  { pose proof (len_wire_msg_ge x1a (Addr_wire x)).
    pose proof (len_nonneg a). pose proof (len_nonneg c).
    rewrite !len_app in Hm. lia. }
  unfold wire_msg in *.
  destruct (field_at "DialRequest" x1a 3 (Addr_wire x) a c _ ltac:(cbn; lia)
              eq_refl eq_refl ltac:(lia) eq_refl Hm) as (Hlt & Ht & _ & Hs & Hr).
  destruct (enough_S _ _ _ He) as (f & ->); [lia|].
  exists f. split; [eapply enough_next; [eassumption|lia]|].
  cbn [DialRequest_Unmarshal_loop].
  match goal with |- context [?i <? ?l] => destruct (Z.ltb_spec i l); [|lia] end.
  rewrite Ht. cbn [bind expect_bytes Z.eqb Pos.eqb negb]. rewrite Hs.
  cbn [bind]. rewrite Hto. rewrite Addr_Unmarshal_wire by assumption.
  reflexivity.
Qed.

Lemma DialRequest_wire_bounds (m : DialRequest) :
  match To m with
  | Some a => len (Addr_wire a) <= len (DialRequest_wire m)
  | None => True
  end.
Proof.
  unfold DialRequest_wire. destruct (To m) as [a|]; [|exact I].
  rewrite !len_app. pose proof (len_wire_msg_ge x1a (Addr_wire a)).
  pose proof (len_nonneg (wire_field x0a (list_byte_of_string (ServerID m)))).
  pose proof (len_nonneg (wire_field x12 (list_byte_of_string (ConnType m)))).
  pose proof (len_nonneg (DialRequest_XXX_unrecognized m)). lia.
Qed.

(** Unmarshal of the wire form of a well-formed DialRequest gives it back. *)
Lemma DialRequest_Unmarshal_wire (m : DialRequest) :
  DialRequest_wf m -> len (DialRequest_wire m) <= MaxInt ->
  DialRequest_Unmarshal DialRequest_zero (DialRequest_wire m) = Ok m.
Proof.
  intros (Hu & Hto) Hm. unfold DialRequest_Unmarshal.
  assert (enough (S (length (DialRequest_wire m))) (DialRequest_wire m)
            (len (@nil byte))) as He0
    by (unfold enough, len; cbn [length]; lia).
  change 0 with (len (@nil byte)).
  destruct (DialRequest_step_ServerID _ DialRequest_zero
              (list_byte_of_string (ServerID m)) [] _ (DialRequest_wire m)
              eq_refl Hm He0) as (n1 & He1 & ->).
  change (len [] + len ?x) with (len ([] ++ x)) in *. cbn [app] in *.
  match goal with |- DialRequest_Unmarshal_loop _ ?m0 _ _ = _ =>
    destruct (DialRequest_step_ConnType n1 m0 (list_byte_of_string (ConnType m))
                _ _ (DialRequest_wire m) eq_refl Hm He1)
      as (n2 & He2 & ->)
  end.
  rewrite <- len_app in *.
  assert (exists n3,
    enough n3 (DialRequest_wire m)
      (len ((wire_field x0a (list_byte_of_string (ServerID m))
             ++ wire_field x12 (list_byte_of_string (ConnType m)))
            ++ match To m with
               | Some a => wire_msg x1a (Addr_wire a)
               | None => []
               end))
    /\ DialRequest_Unmarshal_loop n2
         (mkDialRequest
            (if 0 <? slen (ServerID m)
             then string_of_list_byte (list_byte_of_string (ServerID m))
             else ""%string)
            (if 0 <? slen (ConnType m)
             then string_of_list_byte (list_byte_of_string (ConnType m))
             else ""%string) None [])
         (DialRequest_wire m)
         (len (wire_field x0a (list_byte_of_string (ServerID m))
               ++ wire_field x12 (list_byte_of_string (ConnType m))))
       = DialRequest_Unmarshal_loop n3
           (mkDialRequest
              (if 0 <? slen (ServerID m)
               then string_of_list_byte (list_byte_of_string (ServerID m))
               else ""%string)
              (if 0 <? slen (ConnType m)
               then string_of_list_byte (list_byte_of_string (ConnType m))
               else ""%string) (To m) [])
           (DialRequest_wire m)
           (len ((wire_field x0a (list_byte_of_string (ServerID m))
                  ++ wire_field x12 (list_byte_of_string (ConnType m)))
                 ++ match To m with
                    | Some a => wire_msg x1a (Addr_wire a)
                    | None => []
                    end))) as (n3 & He3 & E3).
  { pose proof (DialRequest_wire_bounds m) as Hb.
    destruct (To m) as [x|] eqn:Ex.
    - assert (DialRequest_wire m
              = (wire_field x0a (list_byte_of_string (ServerID m))
                 ++ wire_field x12 (list_byte_of_string (ConnType m)))
                ++ wire_msg x1a (Addr_wire x)
                ++ DialRequest_XXX_unrecognized m) as Eb.
      { unfold DialRequest_wire. rewrite Ex. rewrite <- app_assoc. reflexivity. }
      destruct (DialRequest_step_To n2
                  (mkDialRequest
                     (if 0 <? slen (ServerID m)
                      then string_of_list_byte (list_byte_of_string (ServerID m))
                      else ""%string)
                     (if 0 <? slen (ConnType m)
                      then string_of_list_byte (list_byte_of_string (ConnType m))
                      else ""%string) None [])
                  x _ _ (DialRequest_wire m) Eb Hm He2 eq_refl Hto)
        as (n3 & He3 & E3).
      exists n3. rewrite len_app. split; [exact He3|exact E3].
    - exists n2. rewrite app_nil_r. auto. }
  unfold slen in E3. cbn [ServerID ConnType To DialRequest_XXX_unrecognized
                          DialRequest_zero].
  rewrite E3. clear E3.
  assert (DialRequest_wire m
          = ((wire_field x0a (list_byte_of_string (ServerID m))
              ++ wire_field x12 (list_byte_of_string (ConnType m)))
             ++ match To m with
                | Some a => wire_msg x1a (Addr_wire a)
                | None => []
                end)
            ++ DialRequest_XXX_unrecognized m ++ []) as Eb.
  { unfold DialRequest_wire. rewrite app_nil_r, <- !app_assoc. reflexivity. }
  match goal with |- DialRequest_Unmarshal_loop _ ?m0 _ _ = _ =>
    destruct (DialRequest_steps_unknown _ Hu n3 m0 _ [] (DialRequest_wire m)
                Eb Hm He3)
      as (n4 & He4 & ->)
  end.
  clear Eb.
  rewrite <- len_app in *. rewrite <- !app_assoc in *.
  fold (DialRequest_wire m) in *.
  rewrite DialRequest_Unmarshal_loop_end by assumption.
  cbn [ServerID ConnType To DialRequest_XXX_unrecognized app].
  fold (slen (ServerID m)). fold (slen (ConnType m)).
  rewrite !string_field_back. destruct m; reflexivity.
Qed.


(** *** Data *)

Lemma Data_Unmarshal_loop_end (fuel : nat) (m : Data) (buf : list byte) :
  enough fuel buf (len buf) ->
  Data_Unmarshal_loop fuel m buf (len buf) = Ok m.
Proof.
  intros He. destruct (enough_S _ _ _ He) as (f & ->); [lia|].
  cbn [Data_Unmarshal_loop].
  destruct (Z.ltb_spec (len buf) (len buf)); [lia|]. apply finish_at_end.
Qed.

Lemma Data_step_unknown (fuel : nat) (m : Data) (a uf c buf : list byte) :
  buf = a ++ uf ++ c ->
  unknown_field Data_known uf = true -> len buf <= MaxInt ->
  enough fuel buf (len a) ->
  exists fuel', enough fuel' buf (len a + len uf)
    /\ Data_Unmarshal_loop fuel m buf (len a)
       = Data_Unmarshal_loop fuel'
           (mkData (Bytes m) (Data_XXX_unrecognized m ++ uf))
           buf (len a + len uf).
Proof.
  intros -> Hu Hm He.
  destruct (unknown_field_at Data_known "Data" a uf c _ Hu eq_refl Hm)
    as (fn & wt & i & Ht & Hk & Hs & Hr).
  destruct (enough_S _ _ _ He) as (f & ->); [lia|].
  exists f. split; [eapply enough_next; [eassumption|lia]|].
  cbn [Data_Unmarshal_loop].
  match goal with |- context [?i <? ?l] => destruct (Z.ltb_spec i l); [|lia] end.
  rewrite Ht. cbn [bind]. unfold Data_known in Hk. rewrite Hk.
  rewrite Hs. reflexivity.
Qed.

Lemma Data_steps_unknown (u : list byte) :
  unknown_fields Data_known u ->
  forall (fuel : nat) (m : Data) (a c buf : list byte),
  buf = a ++ u ++ c ->
  len buf <= MaxInt -> enough fuel buf (len a) ->
  exists fuel', enough fuel' buf (len a + len u)
    /\ Data_Unmarshal_loop fuel m buf (len a)
       = Data_Unmarshal_loop fuel'
           (mkData (Bytes m) (Data_XXX_unrecognized m ++ u))
           buf (len a + len u).
Proof.
  induction 1 as [|uf rest Huf Hrest IH]; intros fuel m a c buf Hb Hm He.
  - change (len (@nil byte)) with 0.
    rewrite Z.add_0_r, app_nil_r. exists fuel. destruct m; auto.
  - destruct (Data_step_unknown fuel m a uf (rest ++ c) buf)
      as (f1 & He1 & ->); try assumption; [now rewrite Hb, <- app_assoc|].
    rewrite <- (len_app a uf) in *.
    destruct (IH f1 (mkData (Bytes m) (Data_XXX_unrecognized m ++ uf))
                 (a ++ uf) c buf) as (f2 & He2 & ->);
      try assumption; [now rewrite Hb, <- !app_assoc|].
    exists f2. cbn [Bytes Data_XXX_unrecognized].
    rewrite !len_app in *. rewrite <- app_assoc, Z.add_assoc. auto.
Qed.

Lemma Data_step_Bytes (fuel : nat) (m : Data) (s a c buf : list byte) :
  buf = a ++ wire_field x0a s ++ c ->
  len buf <= MaxInt -> enough fuel buf (len a) ->
  exists fuel', enough fuel' buf (len a + len (wire_field x0a s))
    /\ Data_Unmarshal_loop fuel m buf (len a)
       = Data_Unmarshal_loop fuel'
           (mkData (if 0 <? len s then s else Bytes m) (Data_XXX_unrecognized m))
           buf (len a + len (wire_field x0a s)).
Proof.
  intros -> Hm He. unfold wire_field in *.
  destruct (Z.ltb_spec 0 (len s)).
  - destruct (field_at "Data" x0a 1 s a c _ ltac:(cbn; lia) eq_refl eq_refl
                ltac:(lia) eq_refl Hm) as (Hlt & Ht & _ & Hs & Hr).
    destruct (enough_S _ _ _ He) as (f & ->); [lia|].
    exists f. split; [eapply enough_next; [eassumption|lia]|].
    cbn [Data_Unmarshal_loop].
    match goal with |- context [?i <? ?l] => destruct (Z.ltb_spec i l); [|lia] end.
    rewrite Ht. cbn [bind expect_bytes Z.eqb Pos.eqb negb]. rewrite Hs.
    reflexivity.
  - cbn [app] in *. change (len (@nil byte)) with 0. rewrite Z.add_0_r.
    exists fuel. destruct m; auto.
Qed.

Lemma bytes_field_back (s : list byte) : (if 0 <? len s then s else []) = s.
Proof.
  destruct (Z.ltb_spec 0 (len s)); [reflexivity|].
  destruct s; [reflexivity|]. rewrite len_cons in *.
  pose proof (len_nonneg s). lia.
Qed.

(** Unmarshal of the wire form of a well-formed Data gives it back. *)
Lemma Data_Unmarshal_wire (m : Data) :
  Data_wf m -> len (Data_wire m) <= MaxInt ->
  Data_Unmarshal Data_zero (Data_wire m) = Ok m.
Proof.
  intros Hu Hm. unfold Data_Unmarshal.
  assert (enough (S (length (Data_wire m))) (Data_wire m) (len (@nil byte))) as He0
    by (unfold enough, len; cbn [length]; lia).
  change 0 with (len (@nil byte)).
  destruct (Data_step_Bytes _ Data_zero (Bytes m) [] _ (Data_wire m)
              eq_refl Hm He0) as (n1 & He1 & ->).
  change (len [] + len ?x) with (len ([] ++ x)) in *. cbn [app] in *.
  match goal with |- Data_Unmarshal_loop _ ?m0 _ _ = _ =>
    destruct (Data_steps_unknown _ Hu n1 m0 _ [] (Data_wire m)
                ltac:(unfold Data_wire; now rewrite app_nil_r)
                Hm He1)
      as (n2 & He2 & ->)
  end.
  rewrite <- len_app in *. fold (Data_wire m) in *.
  rewrite Data_Unmarshal_loop_end by assumption.
  cbn [Bytes Data_XXX_unrecognized Data_zero app].
  rewrite bytes_field_back. destruct m; reflexivity.
Qed.

(** *** Frame *)

Lemma Frame_Unmarshal_loop_end (fuel : nat) (m : Frame) (buf : list byte) :
  enough fuel buf (len buf) ->
  Frame_Unmarshal_loop fuel m buf (len buf) = Ok m.
Proof.
  intros He. destruct (enough_S _ _ _ He) as (f & ->); [lia|].
  cbn [Frame_Unmarshal_loop].
  destruct (Z.ltb_spec (len buf) (len buf)); [lia|]. apply finish_at_end.
Qed.

Lemma Frame_step_unknown (fuel : nat) (m : Frame) (a uf c buf : list byte) :
  buf = a ++ uf ++ c ->
  unknown_field Frame_known uf = true -> len buf <= MaxInt ->
  enough fuel buf (len a) ->
  exists fuel', enough fuel' buf (len a + len uf)
    /\ Frame_Unmarshal_loop fuel m buf (len a)
       = Frame_Unmarshal_loop fuel'
           (mkFrame (Message m) (Frame_XXX_unrecognized m ++ uf))
           buf (len a + len uf).
Proof.
  intros -> Hu Hm He.
  destruct (unknown_field_at Frame_known "Frame" a uf c _ Hu eq_refl Hm)
    as (fn & wt & i & Ht & Hk & Hs & Hr).
  destruct (enough_S _ _ _ He) as (f & ->); [lia|].
  exists f. split; [eapply enough_next; [eassumption|lia]|].
  cbn [Frame_Unmarshal_loop].
  match goal with |- context [?i <? ?l] => destruct (Z.ltb_spec i l); [|lia] end.
  rewrite Ht. cbn [bind]. unfold Frame_known in Hk.
  apply orb_false_iff in Hk as (-> & ->).
  rewrite Hs. reflexivity.
Qed.

Lemma Frame_steps_unknown (u : list byte) :
  unknown_fields Frame_known u ->
  forall (fuel : nat) (m : Frame) (a c buf : list byte),
  buf = a ++ u ++ c ->
  len buf <= MaxInt -> enough fuel buf (len a) ->
  exists fuel', enough fuel' buf (len a + len u)
    /\ Frame_Unmarshal_loop fuel m buf (len a)
       = Frame_Unmarshal_loop fuel'
           (mkFrame (Message m) (Frame_XXX_unrecognized m ++ u))
           buf (len a + len u).
Proof.
  induction 1 as [|uf rest Huf Hrest IH]; intros fuel m a c buf Hb Hm He.
  - change (len (@nil byte)) with 0.
    rewrite Z.add_0_r, app_nil_r. exists fuel. destruct m; auto.
  - destruct (Frame_step_unknown fuel m a uf (rest ++ c) buf)
      as (f1 & He1 & ->); try assumption; [now rewrite Hb, <- app_assoc|].
    rewrite <- (len_app a uf) in *.
    destruct (IH f1 (mkFrame (Message m) (Frame_XXX_unrecognized m ++ uf))
                 (a ++ uf) c buf) as (f2 & He2 & ->);
      try assumption; [now rewrite Hb, <- !app_assoc|].
    exists f2. cbn [Message Frame_XXX_unrecognized].
    rewrite !len_app in *. rewrite <- app_assoc, Z.add_assoc. auto.
Qed.

Lemma Frame_step_DialRequest (fuel : nat) (m : Frame) (x : DialRequest)
  (a c buf : list byte) :
  buf = a ++ wire_msg x0a (DialRequest_wire x) ++ c ->
  len buf <= MaxInt -> enough fuel buf (len a) -> DialRequest_wf x ->
  exists fuel', enough fuel' buf (len a + len (wire_msg x0a (DialRequest_wire x)))
    /\ Frame_Unmarshal_loop fuel m buf (len a)
       = Frame_Unmarshal_loop fuel'
           (mkFrame (Some (Frame_DialRequest (Some x))) (Frame_XXX_unrecognized m))
           buf (len a + len (wire_msg x0a (DialRequest_wire x))).
Proof.
  intros -> Hm He Hwf.
  assert (len (DialRequest_wire x) <= MaxInt) as Hx.
  { pose proof (len_wire_msg_ge x0a (DialRequest_wire x)).
    pose proof (len_nonneg a). pose proof (len_nonneg c).
    rewrite !len_app in Hm. lia. }
  unfold wire_msg in *.
  destruct (field_at "Frame" x0a 1 (DialRequest_wire x) a c _ ltac:(cbn; lia)
              eq_refl eq_refl ltac:(lia) eq_refl Hm) as (Hlt & Ht & _ & Hs & Hr).
  destruct (enough_S _ _ _ He) as (f & ->); [lia|].
  exists f. split; [eapply enough_next; [eassumption|lia]|].
  cbn [Frame_Unmarshal_loop].
  match goal with |- context [?i <? ?l] => destruct (Z.ltb_spec i l); [|lia] end.
  rewrite Ht. cbn [bind expect_bytes Z.eqb Pos.eqb negb]. rewrite Hs.
  cbn [bind]. rewrite DialRequest_Unmarshal_wire by assumption.
  reflexivity.
Qed.

Lemma Frame_step_Data (fuel : nat) (m : Frame) (x : Data) (a c buf : list byte) :
  buf = a ++ wire_msg x12 (Data_wire x) ++ c ->
  len buf <= MaxInt -> enough fuel buf (len a) -> Data_wf x ->
  exists fuel', enough fuel' buf (len a + len (wire_msg x12 (Data_wire x)))
    /\ Frame_Unmarshal_loop fuel m buf (len a)
       = Frame_Unmarshal_loop fuel'
           (mkFrame (Some (Frame_Data (Some x))) (Frame_XXX_unrecognized m))
           buf (len a + len (wire_msg x12 (Data_wire x))).
Proof.
  intros -> Hm He Hwf.
  assert (len (Data_wire x) <= MaxInt) as Hx.
  { pose proof (len_wire_msg_ge x12 (Data_wire x)).
    pose proof (len_nonneg a). pose proof (len_nonneg c).
    rewrite !len_app in Hm. lia. }
  unfold wire_msg in *.
  destruct (field_at "Frame" x12 2 (Data_wire x) a c _ ltac:(cbn; lia)
              eq_refl eq_refl ltac:(lia) eq_refl Hm) as (Hlt & Ht & _ & Hs & Hr).
  destruct (enough_S _ _ _ He) as (f & ->); [lia|].
  exists f. split; [eapply enough_next; [eassumption|lia]|].
  cbn [Frame_Unmarshal_loop].
  match goal with |- context [?i <? ?l] => destruct (Z.ltb_spec i l); [|lia] end.
  rewrite Ht. cbn [bind expect_bytes Z.eqb Pos.eqb negb]. rewrite Hs.
  cbn [bind]. rewrite Data_Unmarshal_wire by assumption.
  reflexivity.
Qed.

(** Unmarshal of the wire form of a well-formed Frame gives it back. *)
Lemma Frame_Unmarshal_wire (m : Frame) :
  Frame_wf m -> len (Frame_wire m) <= MaxInt ->
  Frame_Unmarshal Frame_zero (Frame_wire m) = Ok m.
Proof.
  intros (Hu & Hmsg) Hm. unfold Frame_Unmarshal.
  assert (enough (S (length (Frame_wire m))) (Frame_wire m) (len (@nil byte))) as He0
    by (unfold enough, len; cbn [length]; lia).
  assert (exists n1,
    enough n1 (Frame_wire m)
      (len (match Message m with
            | Some x => isFrame_Message_wire x
            | None => []
            end))
    /\ Frame_Unmarshal_loop (S (length (Frame_wire m))) Frame_zero (Frame_wire m) 0
       = Frame_Unmarshal_loop n1 (mkFrame (Message m) []) (Frame_wire m)
           (len (match Message m with
                 | Some x => isFrame_Message_wire x
                 | None => []
                 end))) as (n1 & He1 & ->).
  { destruct (Message m) as [[[d|]|[d|]]|] eqn:Ex; try contradiction.
    - destruct (Frame_step_DialRequest _ Frame_zero d [] (Frame_XXX_unrecognized m)
                  (Frame_wire m)
                  ltac:(unfold Frame_wire; now rewrite Ex) Hm He0 Hmsg)
        as (n1 & He1 & E1).
      exists n1. split; [exact He1|exact E1].
    - destruct (Frame_step_Data _ Frame_zero d [] (Frame_XXX_unrecognized m)
                  (Frame_wire m)
                  ltac:(unfold Frame_wire; now rewrite Ex) Hm He0 Hmsg)
        as (n1 & He1 & E1).
      exists n1. split; [exact He1|exact E1].
    - eexists. split; [exact He0|reflexivity]. }
  destruct (Frame_steps_unknown _ Hu n1 (mkFrame (Message m) []) _ []
              (Frame_wire m)
              ltac:(unfold Frame_wire; now rewrite app_nil_r) Hm He1)
    as (n2 & He2 & ->).
  rewrite <- len_app in *. fold (Frame_wire m) in *.
  rewrite Frame_Unmarshal_loop_end by assumption.
  cbn [Message Frame_XXX_unrecognized app]. destruct m; reflexivity.
Qed.


(** ** Unmarshal returns on every input *)

Lemma safe_bind {A B : Type} (P : A -> Prop) (Q : B -> Prop)
  (c : outcome A) (k : A -> outcome B) :
  safe P c -> (forall a, P a -> safe Q (k a)) -> safe Q (bind c k).
Proof.
  destruct c; cbn; auto; contradiction.
Qed.

Lemma safe_weaken {A : Type} (P Q : A -> Prop) (r : outcome A) :
  safe P r -> (forall a, P a -> Q a) -> safe Q r.
Proof.
  destruct r; cbn; auto.
Qed.

Lemma safe_returns {A : Type} (P : A -> Prop) (r : outcome A) :
  safe P r -> returns r.
Proof.
  destruct r; cbn; auto.
Qed.

Lemma lor_int_range (a b : Z) :
  - 2 ^ 63 <= a < 2 ^ 63 -> - 2 ^ 63 <= b < 2 ^ 63 ->
  - 2 ^ 63 <= Z.lor a b < 2 ^ 63.
Proof.
  intros Ha Hb.
  destruct (Z.lt_ge_cases a 0) as [Ha0|Ha0]; destruct (Z.lt_ge_cases b 0) as [Hb0|Hb0].
  - assert (Z.lor a b < 0) by (apply Z.lor_neg; lia).
    pose proof (Z.sub_lor_l_same_r a b) as E.
    assert (0 <= Z.land a (Z.lnot b)).
    { apply Z.land_nonneg. right. rewrite Z.lnot_eq_pred_opp. lia. }
    lia.
  - assert (Z.lor a b < 0) by (apply Z.lor_neg; lia).
    pose proof (Z.sub_lor_l_same_r b a) as E. rewrite Z.lor_comm in E.
    assert (0 <= Z.land b (Z.lnot a)).
    { apply Z.land_nonneg. right. rewrite Z.lnot_eq_pred_opp. lia. }
    lia.
  - assert (Z.lor a b < 0) by (apply Z.lor_neg; lia).
    pose proof (Z.sub_lor_l_same_r a b) as E.
    assert (0 <= Z.land a (Z.lnot b)).
    { apply Z.land_nonneg. right. rewrite Z.lnot_eq_pred_opp. lia. }
    lia.
  - assert (0 <= Z.lor a b) by (apply Z.lor_nonneg; lia).
    split; [lia|].
    destruct (Z.eq_dec (Z.lor a b) 0) as [->|Hne]; [lia|].
    apply Z.log2_lt_pow2; [lia|].
    rewrite Z.log2_lor by lia.
    assert (Z.log2 a < 63).
    { destruct (Z.eq_dec a 0) as [->|]; [cbn; lia|]. apply Z.log2_lt_pow2; lia. }
    assert (Z.log2 b < 63).
    { destruct (Z.eq_dec b 0) as [->|]; [cbn; lia|]. apply Z.log2_lt_pow2; lia. }
    lia.
Qed.

(** The varint loop returns, and moves the index forward inside the
    buffer. *)
Lemma varint_loop_safe (wrap : Z -> Z) (dAtA : list byte) (l : Z) (fuel : nat) :
  forall shift x i : Z,
  l <= len dAtA -> 0 <= i -> shift <= 70 -> 70 - shift < 7 * Z.of_nat fuel ->
  safe (fun r => i < snd r <= l) (varint_loop fuel wrap dAtA l shift x i).
Proof.
  induction fuel as [|fuel IH]; intros shift x i Hl Hi Hs Hf; [lia|].
  rewrite varint_loop_S.
  destruct (Z.leb_spec 64 shift); [exact I|].
  destruct (Z.leb_spec l i); [exact I|].
  destruct (index_returns dAtA i ltac:(lia)) as (b & ->). cbn [bind].
  destruct (Z.ltb_spec (b2z b) 128).
  - unfold safe; cbn [fst snd]. lia.
  - eapply safe_weaken.
    + apply IH; lia.
    + cbn beta. intros r Hr. lia.
Qed.

Lemma read_uvarint_safe (dAtA : list byte) (l i : Z) :
  l <= len dAtA -> 0 <= i ->
  safe (fun r => i < snd r <= l) (read_uvarint dAtA l i).
Proof.
  intros. apply varint_loop_safe; lia.
Qed.

(** The int accumulator stays in the range of an int. *)
Lemma varint_loop_int_range (dAtA : list byte) (l : Z) (fuel : nat) :
  forall shift x i v j : Z,
  - 2 ^ 63 <= x < 2 ^ 63 ->
  varint_loop fuel int dAtA l shift x i = Ok (v, j) ->
  - 2 ^ 63 <= v < 2 ^ 63.
Proof.
  induction fuel as [|fuel IH]; intros shift x i v j Hx H; [discriminate|].
  rewrite varint_loop_S in H.
  destruct (64 <=? shift); [discriminate|].
  destruct (l <=? i); [discriminate|].
  destruct (index dAtA i) as [b| | |]; try discriminate. cbn [bind] in H.
  pose proof (lor_int_range x _ Hx
                (int_range (Z.shiftl (Z.land (b2z b) 127) shift))) as Hr.
  destruct (b2z b <? 128).
  - injection H as <- <-. exact Hr.
  - eapply IH; [exact Hr|exact H].
Qed.

Lemma read_ivarint_safe (dAtA : list byte) (l i : Z) :
  l <= len dAtA -> 0 <= i ->
  safe (fun r => i < snd r <= l /\ - 2 ^ 63 <= fst r < 2 ^ 63)
       (read_ivarint dAtA l i).
Proof.
  intros Hl Hi.
  pose proof (varint_loop_safe int dAtA l 11 0 0 i Hl Hi ltac:(lia) ltac:(lia)) as H.
  unfold read_ivarint.
  remember (varint_loop 11 int dAtA l 0 0 i) as r eqn:E.
  destruct r as [[v j]| | |]; unfold safe in *; cbn [fst snd] in *; auto.
  split; [exact H|].
  eapply varint_loop_int_range; [|symmetry; exact E]. lia.
Qed.

Lemma skip_varint_loop_safe (dAtA : list byte) (l : Z) (fuel : nat) :
  forall shift i : Z,
  l <= len dAtA -> 0 <= i -> shift <= 70 -> 70 - shift < 7 * Z.of_nat fuel ->
  safe (fun j => i < j <= l) (skip_varint_loop fuel dAtA l shift i).
Proof.
  induction fuel as [|fuel IH]; intros shift i Hl Hi Hs Hf; [lia|].
  rewrite skip_varint_loop_S.
  destruct (Z.leb_spec 64 shift); [exact I|].
  destruct (Z.leb_spec l i); [exact I|].
  cbv zeta. replace (i + 1 - 1) with i by lia.
  destruct (index_returns dAtA i ltac:(lia)) as (b & ->). cbn [bind].
  destruct (Z.ltb_spec (b2z b) 128).
  - unfold safe; cbn [fst snd]. lia.
  - eapply safe_weaken.
    + apply IH; lia.
    + cbn beta. intros r Hr. lia.
Qed.

(** An int sum that passed the [< 0] test did not wrap. *)
Lemma int_add_nonneg (a b : Z) :
  0 <= a <= MaxInt -> 0 <= b <= MaxInt -> 0 <= int (a + b) ->
  int (a + b) = a + b /\ a + b <= MaxInt.
Proof.
  intros Ha Hb H.
  destruct (Z.le_gt_cases (a + b) MaxInt) as [Hle|Hgt].
  - split; [|exact Hle]. apply int_small. unfold MaxInt in *. lia.
  - pose proof (int_add_overflow a b Ha Hb Hgt). lia.
Qed.

(** skipTunnel returns, and the length it returns is positive. *)
Lemma skipTunnel_loop_safe (dAtA : list byte) (fuel : nat) :
  forall i depth : Z,
  len dAtA <= MaxInt -> 0 <= i ->
  len dAtA - i < Z.of_nat fuel -> (0 < fuel)%nat ->
  safe (fun n => i < n <= MaxInt) (skipTunnel_loop fuel dAtA i depth).
Proof.
  induction fuel as [|fuel IH]; intros i depth Hm Hi Hf Hpos; [lia|].
  rewrite skipTunnel_loop_S. cbv zeta.
  destruct (Z.ltb_spec i (len dAtA)); [|exact I].
  assert (forall i1 d, i < i1 -> i1 <= MaxInt ->
            safe (fun n => i < n <= MaxInt)
              (if i1 <? 0 then Err ErrInvalidLengthTunnel
               else if d =? 0 then Ok i1
               else skipTunnel_loop fuel dAtA i1 d)) as Hrest.
  { intros i1 d H1 H2. destruct (Z.ltb_spec i1 0); [exact I|].
    destruct (d =? 0); [unfold safe; lia|].
    eapply safe_weaken; [apply IH; lia|]. cbn beta. intros; lia. }
  assert (forall i1 k d, i < i1 <= len dAtA -> 0 <= k <= MaxInt ->
            safe (fun n => i < n <= MaxInt)
              (if int (i1 + k) <? 0 then Err ErrInvalidLengthTunnel
               else if d =? 0 then Ok (int (i1 + k))
               else skipTunnel_loop fuel dAtA (int (i1 + k)) d)) as Hadd.
  { intros i1 k d H1 Hk. destruct (Z.ltb_spec (int (i1 + k)) 0); [exact I|].
    destruct (int_add_nonneg i1 k ltac:(lia) Hk ltac:(lia)) as (E & Hle).
    rewrite E in *.
    destruct (d =? 0); [unfold safe; lia|].
    eapply safe_weaken; [apply IH; lia|]. cbn beta. intros; lia. }
  eapply safe_bind; [apply (read_uvarint_safe dAtA (len dAtA) i); lia|].
  intros [wire i1] H1. cbn [snd] in H1. cbv beta iota zeta.
  destruct (Z.land wire 7 =? 0).
  {
    eapply safe_bind.
    - eapply safe_bind; [apply (skip_varint_loop_safe dAtA (len dAtA) 11 0 i1); lia|].
      intros i2 H2. instantiate (1 := fun r => i1 < fst r <= len dAtA /\ snd r = depth).
      unfold safe; cbn [fst snd] in *; cbv beta in *. lia.
    - intros [i2 d] (H2 & Hd). cbn [fst snd] in *. subst d.
      apply Hrest; lia. }
  destruct (Z.land wire 7 =? 1).
  { cbn [bind]. apply Hadd; unfold MaxInt; lia. }
  destruct (Z.land wire 7 =? 2).
  { eapply safe_bind.
    - eapply safe_bind; [apply (read_ivarint_safe dAtA (len dAtA) i1); lia|].
      intros [length i2] (H2 & Hr). cbn [fst snd] in *.
      instantiate (1 := fun r => exists i2 k, i1 < i2 <= len dAtA
                            /\ 0 <= k <= MaxInt /\ r = (int (i2 + k), depth)).
      destruct (Z.ltb_spec length 0); [exact I|].
      cbn. exists i2, length. unfold MaxInt. repeat split; lia.
    - intros [i3 d] (i2 & k & H2 & Hk & E). injection E as -> ->.
      apply Hadd; lia. }
  destruct (Z.land wire 7 =? 3).
  { cbn [bind]. apply Hrest; lia. }
  destruct (Z.land wire 7 =? 4).
  { destruct (depth =? 0); [exact I|]. cbn [bind]. apply Hrest; lia. }
  destruct (Z.land wire 7 =? 5).
  { cbn [bind]. apply Hadd; unfold MaxInt; lia. }
  exact I.
Qed.

Lemma skipTunnel_safe (dAtA : list byte) :
  len dAtA <= MaxInt -> safe (fun n => 0 < n <= MaxInt) (skipTunnel dAtA).
Proof.
  intros Hm. unfold skipTunnel.
  apply skipTunnel_loop_safe; unfold len in *; lia.
Qed.


Lemma slice_returns (dAtA : list byte) (lo hi : Z) :
  0 <= lo <= hi -> hi <= len dAtA ->
  exists s, slice dAtA lo hi = Ok s /\ len s = hi - lo.
Proof.
  intros H1 H2. unfold slice.
  destruct (Z.leb_spec 0 lo); [|lia].
  destruct (Z.leb_spec lo hi); [|lia].
  destruct (Z.leb_spec hi (len dAtA)); [|lia]. cbn [andb].
  eexists; split; [reflexivity|].
  unfold len in *. rewrite length_firstn, length_skipn. lia.
Qed.

Lemma read_tag_safe (msg : string) (dAtA : list byte) (l i : Z) :
  l <= len dAtA -> 0 <= i ->
  safe (fun r => i < snd r <= l) (read_tag msg dAtA l i).
Proof.
  intros Hl Hi. unfold read_tag.
  eapply safe_bind; [apply read_uvarint_safe; assumption|].
  intros [wire j] Hj. cbn [snd] in Hj. cbv beta iota zeta.
  destruct (Z.land wire 7 =? 4); [exact I|].
  destruct (int32 (Z.shiftr wire 3) <=? 0); [exact I|].
  exact Hj.
Qed.

Lemma post_index_safe (l i n : Z) :
  0 <= i <= l -> l <= MaxInt -> - 2 ^ 63 <= n < 2 ^ 63 ->
  safe (fun p => i <= p <= l) (post_index l i n).
Proof.
  intros Hi Hl Hn. unfold post_index.
  destruct (Z.ltb_spec n 0); [exact I|].
  destruct (Z.ltb_spec (int (i + n)) 0); [exact I|].
  destruct (int_add_nonneg i n ltac:(lia) ltac:(unfold MaxInt; lia) ltac:(lia))
    as (E & _).
  rewrite E. destruct (Z.ltb_spec l (i + n)); [exact I|].
  unfold safe. lia.
Qed.

Lemma read_string_safe (dAtA : list byte) (i : Z) :
  len dAtA <= MaxInt -> 0 <= i ->
  safe (fun r => i < snd r <= len dAtA /\ len (fst r) <= len dAtA)
       (read_string dAtA (len dAtA) i).
Proof.
  intros Hl Hi. unfold read_string.
  eapply safe_bind; [apply read_uvarint_safe; lia|].
  intros [stringLen j] Hj. cbn [snd] in Hj. cbv beta iota zeta.
  eapply safe_bind;
    [apply (post_index_safe (len dAtA) j (int stringLen));
     [lia|assumption|apply int_range]|].
  intros p Hp. cbv beta in Hp.
  destruct (slice_returns dAtA j p) as (s & -> & Hs); try lia.
  cbn [bind]. unfold safe. cbn [fst snd]. lia.
Qed.

Lemma read_bytes_safe (dAtA : list byte) (i : Z) :
  len dAtA <= MaxInt -> 0 <= i ->
  safe (fun r => i < snd r <= len dAtA /\ len (fst r) <= len dAtA)
       (read_bytes dAtA (len dAtA) i).
Proof.
  intros Hl Hi. unfold read_bytes.
  eapply safe_bind; [apply read_ivarint_safe; lia|].
  intros [msglen j] (Hj & Hr). cbn [fst snd] in Hj, Hr. cbv beta iota zeta.
  eapply safe_bind;
    [apply (post_index_safe (len dAtA) j msglen); [lia|assumption|assumption]|].
  intros p Hp. cbv beta in Hp.
  destruct (slice_returns dAtA j p) as (s & -> & Hs); try lia.
  cbn [bind]. unfold safe. cbn [fst snd]. lia.
Qed.

Lemma skip_unknown_safe (dAtA : list byte) (pre : Z) :
  len dAtA <= MaxInt -> 0 <= pre < len dAtA ->
  safe (fun r => pre < snd r <= len dAtA) (skip_unknown dAtA (len dAtA) pre).
Proof.
  intros Hl Hp. unfold skip_unknown, slice_from. cbv zeta.
  destruct (slice_returns dAtA pre (len dAtA)) as (sub & -> & Hs); try lia.
  cbn [bind].
  eapply safe_bind; [apply skipTunnel_safe; lia|].
  intros skippy Hk. cbv beta in Hk.
  destruct (Z.ltb_spec skippy 0); [exact I|].
  destruct (Z.ltb_spec (int (pre + skippy)) 0); [exact I|]. cbn [orb].
  destruct (int_add_nonneg pre skippy ltac:(lia) ltac:(lia) ltac:(lia)) as (E & _).
  rewrite E. destruct (Z.ltb_spec (len dAtA) (pre + skippy)); [exact I|].
  destruct (slice_returns dAtA pre (pre + skippy)) as (s & -> & _); try lia.
  cbn [bind]. unfold safe. cbn [snd]. lia.
Qed.

Lemma expect_bytes_safe (wireType : Z) (field : string) :
  safe (fun _ => True) (expect_bytes wireType field).
Proof.
  unfold expect_bytes. destruct (negb (wireType =? 2)); exact I.
Qed.

Lemma finish_safe {M : Type} (m : M) (l i : Z) :
  safe (fun _ => True) (finish m l i).
Proof.
  unfold finish. destruct (l <? i); exact I.
Qed.

Lemma enough_step (fuel : nat) (dAtA : list byte) (i j : Z) :
  enough (S fuel) dAtA i -> i < j -> enough fuel dAtA j.
Proof. unfold enough. lia. Qed.

Lemma enough_init (dAtA : list byte) : enough (S (length dAtA)) dAtA 0.
Proof. unfold enough, len. lia. Qed.

Lemma Addr_Unmarshal_loop_safe (dAtA : list byte) (fuel : nat) :
  forall (m : Addr) (i : Z),
  len dAtA <= MaxInt -> 0 <= i <= len dAtA -> enough fuel dAtA i ->
  safe (fun _ => True) (Addr_Unmarshal_loop fuel m dAtA i).
Proof.
  induction fuel as [|fuel IH]; intros m i Hl Hi He.
  - cbn [Addr_Unmarshal_loop]. cbv zeta.
    unfold enough in He. cbn [safe]. lia.
  - cbn [Addr_Unmarshal_loop]. cbv zeta.
    destruct (Z.ltb_spec i (len dAtA)); [|apply finish_safe].
    eapply safe_bind; [apply (read_tag_safe "Addr" dAtA (len dAtA) i); lia|].
    intros [[fn wt] j] Hj. cbn [snd] in Hj. cbv beta iota zeta.
    destruct (fn =? 1).
    { eapply safe_bind; [apply expect_bytes_safe|]. intros _ _.
      eapply safe_bind; [apply read_string_safe; lia|].
      intros [s p] (Hp & _). cbn [snd] in Hp. cbv beta iota zeta.
      apply IH; [assumption|lia|eapply enough_step; [eassumption|lia]]. }
    destruct (fn =? 2).
    { eapply safe_bind; [apply expect_bytes_safe|]. intros _ _.
      eapply safe_bind; [apply read_string_safe; lia|].
      intros [s p] (Hp & _). cbn [snd] in Hp. cbv beta iota zeta.
      apply IH; [assumption|lia|eapply enough_step; [eassumption|lia]]. }
    eapply safe_bind; [apply skip_unknown_safe; lia|].
    intros [s p] Hp. cbn [snd] in Hp. cbv beta iota zeta.
    apply IH; [assumption|lia|eapply enough_step; [eassumption|lia]].
Qed.

Lemma Addr_Unmarshal_safe (m : Addr) (dAtA : list byte) :
  len dAtA <= MaxInt -> safe (fun _ => True) (Addr_Unmarshal m dAtA).
Proof.
  intros Hl. apply Addr_Unmarshal_loop_safe; [assumption|pose proof (len_nonneg dAtA); lia|apply enough_init].
Qed.

Lemma DialRequest_Unmarshal_loop_safe (dAtA : list byte) (fuel : nat) :
  forall (m : DialRequest) (i : Z),
  len dAtA <= MaxInt -> 0 <= i <= len dAtA -> enough fuel dAtA i ->
  safe (fun _ => True) (DialRequest_Unmarshal_loop fuel m dAtA i).
Proof.
  induction fuel as [|fuel IH]; intros m i Hl Hi He.
  - cbn [DialRequest_Unmarshal_loop]. cbv zeta.
    unfold enough in He. cbn [safe]. lia.
  - cbn [DialRequest_Unmarshal_loop]. cbv zeta.
    destruct (Z.ltb_spec i (len dAtA)); [|apply finish_safe].
    eapply safe_bind; [apply (read_tag_safe "DialRequest" dAtA (len dAtA) i); lia|].
    intros [[fn wt] j] Hj. cbn [snd] in Hj. cbv beta iota zeta.
    destruct (fn =? 1).
    { eapply safe_bind; [apply expect_bytes_safe|]. intros _ _.
      eapply safe_bind; [apply read_string_safe; lia|].
      intros [s p] (Hp & _). cbn [snd] in Hp. cbv beta iota zeta.
      apply IH; [assumption|lia|eapply enough_step; [eassumption|lia]]. }
    destruct (fn =? 2).
    { eapply safe_bind; [apply expect_bytes_safe|]. intros _ _.
      eapply safe_bind; [apply read_string_safe; lia|].
      intros [s p] (Hp & _). cbn [snd] in Hp. cbv beta iota zeta.
      apply IH; [assumption|lia|eapply enough_step; [eassumption|lia]]. }
    destruct (fn =? 3).
    { eapply safe_bind; [apply expect_bytes_safe|]. intros _ _.
      eapply safe_bind; [apply read_bytes_safe; lia|].
      intros [s p] (Hp & Hs). cbn [fst snd] in Hp, Hs. cbv beta iota zeta.
      eapply safe_bind; [apply Addr_Unmarshal_safe; lia|]. intros to _.
      apply IH; [assumption|lia|eapply enough_step; [eassumption|lia]]. }
    eapply safe_bind; [apply skip_unknown_safe; lia|].
    intros [s p] Hp. cbn [snd] in Hp. cbv beta iota zeta.
    apply IH; [assumption|lia|eapply enough_step; [eassumption|lia]].
Qed.

Lemma DialRequest_Unmarshal_safe (m : DialRequest) (dAtA : list byte) :
  len dAtA <= MaxInt -> safe (fun _ => True) (DialRequest_Unmarshal m dAtA).
Proof.
  intros Hl.
  apply DialRequest_Unmarshal_loop_safe; [assumption|pose proof (len_nonneg dAtA); lia|apply enough_init].
Qed.

Lemma Data_Unmarshal_loop_safe (dAtA : list byte) (fuel : nat) :
  forall (m : Data) (i : Z),
  len dAtA <= MaxInt -> 0 <= i <= len dAtA -> enough fuel dAtA i ->
  safe (fun _ => True) (Data_Unmarshal_loop fuel m dAtA i).
Proof.
  induction fuel as [|fuel IH]; intros m i Hl Hi He.
  - cbn [Data_Unmarshal_loop]. cbv zeta.
    unfold enough in He. cbn [safe]. lia.
  - cbn [Data_Unmarshal_loop]. cbv zeta.
    destruct (Z.ltb_spec i (len dAtA)); [|apply finish_safe].
    eapply safe_bind; [apply (read_tag_safe "Data" dAtA (len dAtA) i); lia|].
    intros [[fn wt] j] Hj. cbn [snd] in Hj. cbv beta iota zeta.
    destruct (fn =? 1).
    { eapply safe_bind; [apply expect_bytes_safe|]. intros _ _.
      eapply safe_bind; [apply read_bytes_safe; lia|].
      intros [s p] (Hp & _). cbn [snd] in Hp. cbv beta iota zeta.
      apply IH; [assumption|lia|eapply enough_step; [eassumption|lia]]. }
    eapply safe_bind; [apply skip_unknown_safe; lia|].
    intros [s p] Hp. cbn [snd] in Hp. cbv beta iota zeta.
    apply IH; [assumption|lia|eapply enough_step; [eassumption|lia]].
Qed.

Lemma Data_Unmarshal_safe (m : Data) (dAtA : list byte) :
  len dAtA <= MaxInt -> safe (fun _ => True) (Data_Unmarshal m dAtA).
Proof.
  intros Hl. apply Data_Unmarshal_loop_safe; [assumption|pose proof (len_nonneg dAtA); lia|apply enough_init].
Qed.

Lemma Frame_Unmarshal_loop_safe (dAtA : list byte) (fuel : nat) :
  forall (m : Frame) (i : Z),
  len dAtA <= MaxInt -> 0 <= i <= len dAtA -> enough fuel dAtA i ->
  safe (fun _ => True) (Frame_Unmarshal_loop fuel m dAtA i).
Proof.
  induction fuel as [|fuel IH]; intros m i Hl Hi He.
  - cbn [Frame_Unmarshal_loop]. cbv zeta.
    unfold enough in He. cbn [safe]. lia.
  - cbn [Frame_Unmarshal_loop]. cbv zeta.
    destruct (Z.ltb_spec i (len dAtA)); [|apply finish_safe].
    eapply safe_bind; [apply (read_tag_safe "Frame" dAtA (len dAtA) i); lia|].
    intros [[fn wt] j] Hj. cbn [snd] in Hj. cbv beta iota zeta.
    destruct (fn =? 1).
    { eapply safe_bind; [apply expect_bytes_safe|]. intros _ _.
      eapply safe_bind; [apply read_bytes_safe; lia|].
      intros [s p] (Hp & Hs). cbn [fst snd] in Hp, Hs. cbv beta iota zeta.
      eapply safe_bind; [apply DialRequest_Unmarshal_safe; lia|]. intros v _.
      apply IH; [assumption|lia|eapply enough_step; [eassumption|lia]]. }
    destruct (fn =? 2).
    { eapply safe_bind; [apply expect_bytes_safe|]. intros _ _.
      eapply safe_bind; [apply read_bytes_safe; lia|].
      intros [s p] (Hp & Hs). cbn [fst snd] in Hp, Hs. cbv beta iota zeta.
      eapply safe_bind; [apply Data_Unmarshal_safe; lia|]. intros v _.
      apply IH; [assumption|lia|eapply enough_step; [eassumption|lia]]. }
    eapply safe_bind; [apply skip_unknown_safe; lia|].
    intros [s p] Hp. cbn [snd] in Hp. cbv beta iota zeta.
    apply IH; [assumption|lia|eapply enough_step; [eassumption|lia]].
Qed.

Lemma Frame_Unmarshal_safe (m : Frame) (dAtA : list byte) :
  len dAtA <= MaxInt -> safe (fun _ => True) (Frame_Unmarshal m dAtA).
Proof.
  intros Hl. apply Frame_Unmarshal_loop_safe; [assumption|pose proof (len_nonneg dAtA); lia|apply enough_init].
Qed.


(** ** A length that runs past the end of the buffer *)

Lemma int_mod (z : Z) : int z mod 2 ^ 64 = z mod 2 ^ 64.
Proof.
  unfold int.
  rewrite <- Zminus_mod_idemp_l, Z.mod_mod by lia.
  rewrite Zminus_mod_idemp_l. f_equal. lia.
Qed.

Lemma int_unique (a z : Z) :
  - 2 ^ 63 <= a < 2 ^ 63 -> a mod 2 ^ 64 = z mod 2 ^ 64 -> int z = a.
Proof.
  intros Ha E. pose proof (int_range z) as Hr. pose proof (int_mod z) as Em.
  rewrite <- E in Em.
  pose proof (Z.div_mod (int z) (2 ^ 64) ltac:(lia)) as D1.
  pose proof (Z.div_mod a (2 ^ 64) ltac:(lia)) as D2.
  rewrite Em in D1.
  assert (int z / 2 ^ 64 = a / 2 ^ 64); [|lia].
  pose proof (Z.mod_pos_bound a (2 ^ 64) ltac:(lia)).
  change (2 ^ 64) with 18446744073709551616 in *.
  change (2 ^ 63) with 9223372036854775808 in *. lia.
Qed.

Lemma mod64_lor (a b : Z) :
  Z.lor a b mod 2 ^ 64 = Z.lor (a mod 2 ^ 64) (b mod 2 ^ 64).
Proof.
  rewrite <- !Z.land_ones by lia. apply Z.land_lor_distr_l.
Qed.

Lemma int_lor (xu t : Z) : Z.lor (int xu) (int t) = int (Z.lor xu (uint64 t)).
Proof.
  symmetry. apply int_unique.
  - apply lor_int_range; apply int_range.
  - rewrite !mod64_lor, !int_mod. unfold uint64.
    rewrite Z.mod_mod by lia. reflexivity.
Qed.

(** The int accumulator is the uint64 accumulator, converted. *)
Lemma varint_loop_int_uint64 (dAtA : list byte) (l : Z) (fuel : nat) :
  forall shift xu i : Z,
  varint_loop fuel int dAtA l shift (int xu) i
  = match varint_loop fuel uint64 dAtA l shift xu i with
    | Ok (v, j) => Ok (int v, j)
    | Err e => Err e
    | Panic => Panic
    | OutOfFuel => OutOfFuel
    end.
Proof.
  induction fuel as [|fuel IH]; intros shift xu i; [reflexivity|].
  rewrite !varint_loop_S.
  destruct (64 <=? shift); [reflexivity|].
  destruct (l <=? i); [reflexivity|].
  destruct (index dAtA i) as [b| | |]; try reflexivity. cbn [bind].
  rewrite int_lor.
  destruct (b2z b <? 128); [reflexivity|]. apply IH.
Qed.

Lemma read_ivarint_uvarint (dAtA : list byte) (l i : Z) :
  read_ivarint dAtA l i
  = match read_uvarint dAtA l i with
    | Ok (v, j) => Ok (int v, j)
    | Err e => Err e
    | Panic => Panic
    | OutOfFuel => OutOfFuel
    end.
Proof.
  unfold read_ivarint, read_uvarint.
  change 0 with (int 0) at 2. apply varint_loop_int_uint64.
Qed.

Lemma lor_uint64_range (a b : Z) :
  0 <= a < 2 ^ 64 -> 0 <= b < 2 ^ 64 -> 0 <= Z.lor a b < 2 ^ 64.
Proof.
  intros Ha Hb.
  assert (0 <= Z.lor a b) by (apply Z.lor_nonneg; lia).
  split; [lia|].
  destruct (Z.eq_dec (Z.lor a b) 0) as [->|Hne]; [lia|].
  apply Z.log2_lt_pow2; [lia|].
  rewrite Z.log2_lor by lia.
  assert (Z.log2 a < 64).
  { destruct (Z.eq_dec a 0) as [->|]; [cbn; lia|]. apply Z.log2_lt_pow2; lia. }
  assert (Z.log2 b < 64).
  { destruct (Z.eq_dec b 0) as [->|]; [cbn; lia|]. apply Z.log2_lt_pow2; lia. }
  lia.
Qed.

Lemma varint_loop_uint64_range (dAtA : list byte) (l : Z) (fuel : nat) :
  forall shift x i v j : Z,
  0 <= x < 2 ^ 64 ->
  varint_loop fuel uint64 dAtA l shift x i = Ok (v, j) ->
  0 <= v < 2 ^ 64.
Proof.
  induction fuel as [|fuel IH]; intros shift x i v j Hx H; [discriminate|].
  rewrite varint_loop_S in H.
  destruct (64 <=? shift); [discriminate|].
  destruct (l <=? i); [discriminate|].
  destruct (index dAtA i) as [b| | |]; try discriminate. cbn [bind] in H.
  assert (0 <= uint64 (Z.shiftl (Z.land (b2z b) 127) shift) < 2 ^ 64) as Hu
    by (unfold uint64; apply Z.mod_pos_bound; lia).
  pose proof (lor_uint64_range x _ Hx Hu) as Hr.
  destruct (b2z b <? 128).
  - injection H as <- <-. exact Hr.
  - eapply IH; [exact Hr|exact H].
Qed.

Lemma read_uvarint_range (dAtA : list byte) (l i v j : Z) :
  read_uvarint dAtA l i = Ok (v, j) -> 0 <= v < 2 ^ 64.
Proof.
  apply varint_loop_uint64_range. lia.
Qed.

Lemma read_uvarint_bounds (dAtA : list byte) (i v j : Z) :
  0 <= i -> read_uvarint dAtA (len dAtA) i = Ok (v, j) ->
  i < j <= len dAtA.
Proof.
  intros Hi H.
  pose proof (read_uvarint_safe dAtA (len dAtA) i ltac:(lia) Hi) as Hs.
  rewrite H in Hs. exact Hs.
Qed.

Lemma is_error_bind {A B : Type} (c : outcome A) (k : A -> outcome B) :
  is_error c -> is_error (bind c k).
Proof.
  destruct c; cbn; auto; contradiction.
Qed.





Lemma int_of_nonneg (n : Z) :
  0 <= n < 2 ^ 64 -> 0 <= int n -> int n = n /\ n < 2 ^ 63.
Proof.
  intros Hn H.
  destruct (Z.lt_ge_cases n (2 ^ 63)); [split; [apply int_small|]; lia|].
  exfalso. assert (int n = n - 2 ^ 64); [|lia].
  apply int_unique; [lia|].
  rewrite <- (Z.mod_add (n - 2 ^ 64) 1 (2 ^ 64)) by lia. f_equal. lia.
Qed.




(** *** The four loops *)







(** ** A Frame cut short *)







(** ** Marshal and Unmarshal together *)

Lemma MaxInt_lt_pow64 : MaxInt < 2 ^ 64.
Proof. unfold MaxInt. assert (2 ^ 63 < 2 ^ 64) by (apply Z.pow_lt_mono_r; lia). lia. Qed.

Lemma Frame_Marshal_wire (m : Frame) :
  Frame_Size m <= MaxInt ->
  Frame_Marshal m = Ok (Frame_wire m) /\ len (Frame_wire m) = Frame_Size m.
Proof.
  intros Hm. pose proof MaxInt_lt_pow64.
  pose proof (Frame_writes_back m ltac:(lia)) as Hw.
  destruct (Frame_Size_bounds m) as (_ & H0).
  split; [apply (marshal_with_wire _ _ _ _ Hw); lia|apply Hw].
Qed.

Lemma DialRequest_Marshal_wire (m : DialRequest) :
  DialRequest_Size m <= MaxInt ->
  DialRequest_Marshal m = Ok (DialRequest_wire m)
  /\ len (DialRequest_wire m) = DialRequest_Size m.
Proof.
  intros Hm. pose proof MaxInt_lt_pow64.
  pose proof (DialRequest_writes_back m ltac:(lia)) as Hw.
  destruct (DialRequest_Size_bounds m) as (_ & _ & _ & H0).
  split; [apply (marshal_with_wire _ _ _ _ Hw); lia|apply Hw].
Qed.

Lemma Addr_Marshal_wire (m : Addr) :
  Addr_Size m <= MaxInt ->
  Addr_Marshal m = Ok (Addr_wire m) /\ len (Addr_wire m) = Addr_Size m.
Proof.
  intros Hm. pose proof MaxInt_lt_pow64.
  pose proof (Addr_writes_back m ltac:(lia)) as Hw.
  destruct (Addr_Size_bounds m) as (_ & _ & H0).
  split; [apply (marshal_with_wire _ _ _ _ Hw); lia|apply Hw].
Qed.

Lemma Data_Marshal_wire (m : Data) :
  Data_Size m <= MaxInt ->
  Data_Marshal m = Ok (Data_wire m) /\ len (Data_wire m) = Data_Size m.
Proof.
  intros Hm. pose proof MaxInt_lt_pow64.
  pose proof (Data_writes_back m ltac:(lia)) as Hw.
  destruct (Data_Size_bounds m) as (_ & H0).
  split; [apply (marshal_with_wire _ _ _ _ Hw); lia|apply Hw].
Qed.

Lemma Addr_plain_wf (m : Addr) : Addr_plain m -> Addr_wf m.
Proof. unfold Addr_plain, Addr_wf. intros ->. constructor. Qed.

Lemma DialRequest_plain_wf (m : DialRequest) :
  DialRequest_plain m -> DialRequest_wf m.
Proof.
  unfold DialRequest_plain, DialRequest_wf. intros (-> & Ht).
  split; [constructor|]. destruct (To m); [apply Addr_plain_wf, Ht|exact I].
Qed.

Lemma Data_plain_wf (m : Data) : Data_plain m -> Data_wf m.
Proof. unfold Data_plain, Data_wf. intros ->. constructor. Qed.

Lemma Frame_plain_wf (m : Frame) : Frame_plain m -> Frame_wf m.
Proof.
  unfold Frame_plain, Frame_wf. intros (-> & Hm). split; [constructor|].
  destruct (Message m) as [[[d|]|[d|]]|]; try contradiction.
  - apply DialRequest_plain_wf, Hm.
  - apply Data_plain_wf, Hm.
Qed.

(** C1.  Round trip: for every Frame of either variant (and for the Frame
    without a message), encoding it and decoding the bytes gives the same
    Frame back: the same ServerID, ConnType and To (Network and Address), or
    the same Bytes.  The Frame may carry unrecognized bytes if they are
    well-formed unknown fields, which is all Unmarshal ever stores there; a
    Frame built from the fields of the schema carries none ([Frame_plain]).
    Its size fits a Go int. *)
Theorem Frame_roundtrip (f : Frame) :
  Frame_wf f -> Frame_Size f <= MaxInt ->
  exists b, encode f = Ok b /\ decode b = Ok f.
Proof.
  intros Hwf Hm. destruct (Frame_Marshal_wire f Hm) as (E & Hl).
  exists (Frame_wire f). split; [exact E|].
  apply Frame_Unmarshal_wire; [exact Hwf|lia].
Qed.

Lemma Frame_roundtrip_witness :
  Frame_plain scenario_frame /\ Frame_plain scenario_data
  /\ (exists b, encode scenario_frame = Ok b /\ decode b = Ok scenario_frame)
  /\ (exists b, encode scenario_data = Ok b /\ decode b = Ok scenario_data).
Proof.
  assert (Frame_plain scenario_frame) as H1 by (vm_compute; repeat split).
  assert (Frame_plain scenario_data) as H2 by (vm_compute; repeat split).
  split; [exact H1|]. split; [exact H2|]. split.
  - apply (Frame_roundtrip scenario_frame (Frame_plain_wf _ H1)).
    apply Z.leb_le. vm_compute. reflexivity.
  - apply (Frame_roundtrip scenario_data (Frame_plain_wf _ H2)).
    apply Z.leb_le. vm_compute. reflexivity.
Defined.





(** C3, as stated, fails on a buffer that holds field 3 as a varint: the
    default branch skips the field and keeps its bytes. *)
Lemma decode_unknown_field_is_not_an_error :
  read_tag "Frame" [x18; x00] 2 0 = Ok (3, 0, 1)
  /\ decode [x18; x00] = Ok (mkFrame None [x18; x00])
  /\ ~ is_error (decode [x18; x00]).
Proof.
  split; [reflexivity|]. split; [reflexivity|]. intros H. exact H.
Qed.

(** C3, amended.  A field number other than 1 and 2 is not an error by
    itself.  When the buffer consists of well-formed fields with such
    numbers, Unmarshal returns a nil error, leaves Message as it was and
    appends the bytes to XXX_unrecognized.  When the first tag is illegal
    (wire type 4, or a field number that is not positive), Unmarshal returns
    an error. *)
Theorem Frame_Unmarshal_unknown (m : Frame) (dAtA : list byte) :
  len dAtA <= MaxInt ->
  (unknown_fields Frame_known dAtA ->
   Frame_Unmarshal m dAtA
   = Ok (mkFrame (Message m) (Frame_XXX_unrecognized m ++ dAtA)))
  /\ (forall wire i,
        read_uvarint dAtA (len dAtA) 0 = Ok (wire, i) ->
        Z.land wire 7 = 4 \/ int32 (Z.shiftr wire 3) <= 0 ->
        is_error (Frame_Unmarshal m dAtA)).
Proof.
  intros Hm. split.
  - intros Hu. unfold Frame_Unmarshal.
    destruct (Frame_steps_unknown dAtA Hu (S (length dAtA)) m [] [] dAtA
                ltac:(now rewrite app_nil_r) Hm (enough_init dAtA))
      as (f & He & E).
    change (len (@nil byte)) with 0 in *. rewrite Z.add_0_l in *.
    rewrite E. apply Frame_Unmarshal_loop_end. exact He.
  - intros wire i H Hbad. unfold Frame_Unmarshal.
    pose proof (read_uvarint_nonempty _ _ _ _ H).
    cbn [Frame_Unmarshal_loop]. cbv zeta.
    destruct (Z.ltb_spec 0 (len dAtA)); [|lia].
    apply is_error_bind. unfold read_tag. rewrite H. cbn [bind].
    destruct (Z.eqb_spec (Z.land wire 7) 4); [exact I|].
    destruct (Z.leb_spec (int32 (Z.shiftr wire 3)) 0); [exact I|].
    destruct Hbad; [contradiction|lia].
Qed.

Lemma Frame_Unmarshal_unknown_witness :
  Frame_Unmarshal Frame_zero [x18; x00; x25; x01; x02; x03; x04]
  = Ok (mkFrame None [x18; x00; x25; x01; x02; x03; x04])
  /\ is_error (Frame_Unmarshal Frame_zero [x0c; x00]).
Proof.
  assert (unknown_fields Frame_known [x18; x00; x25; x01; x02; x03; x04]) as Hu.
  { apply (unknown_app Frame_known [x18; x00] [x25; x01; x02; x03; x04]);
      [vm_compute; reflexivity|].
    rewrite <- (app_nil_r [x25; x01; x02; x03; x04]).
    apply unknown_app; [vm_compute; reflexivity|constructor]. }
  assert (len [x18; x00; x25; x01; x02; x03; x04] <= MaxInt) as Hl1
    by (apply Z.leb_le; vm_compute; reflexivity).
  assert (len [x0c; x00] <= MaxInt) as Hl2
    by (apply Z.leb_le; vm_compute; reflexivity).
  assert (read_uvarint [x0c; x00] (len [x0c; x00]) 0 = Ok (12, 1)) as Hr
    by (vm_compute; reflexivity).
  destruct (Frame_Unmarshal_unknown Frame_zero _ Hl1) as (H1 & _).
  destruct (Frame_Unmarshal_unknown Frame_zero _ Hl2) as (_ & H2).
  split.
  - exact (H1 Hu).
  - exact (H2 12 1 Hr (or_introl eq_refl)).
Defined.



(** C6, as stated, fails: Marshal of a DialRequest with an empty ServerID
    returns a nil error; the field is left out of the encoding. *)
Lemma Marshal_empty_ServerID_is_not_an_error :
  DialRequest_Marshal (mkDialRequest "" "ssh" None []) = Ok [x12; x03; x73; x73; x68]
  /\ ~ is_error (DialRequest_Marshal (mkDialRequest "" "ssh" None [])).
Proof.
  split; [vm_compute; reflexivity|]. intros H. vm_compute in H. exact H.
Qed.

(** C6, amended.  Marshal of a DialRequest never returns an error, whether
    ServerID is empty or not: it returns the wire form, in which an empty
    ServerID is left out. *)
Theorem DialRequest_Marshal_succeeds (m : DialRequest) :
  DialRequest_Size m <= MaxInt ->
  DialRequest_Marshal m = Ok (DialRequest_wire m)
  /\ ~ is_error (DialRequest_Marshal m)
  /\ (ServerID m = ""%string ->
      DialRequest_wire m
      = wire_field x12 (list_byte_of_string (ConnType m))
        ++ match To m with
           | Some a => wire_msg x1a (Addr_wire a)
           | None => []
           end
        ++ DialRequest_XXX_unrecognized m).
Proof.
  intros Hm. destruct (DialRequest_Marshal_wire m Hm) as (E & _).
  split; [exact E|]. split.
  - rewrite E. intros H. exact H.
  - intros Hs. unfold DialRequest_wire. rewrite Hs. reflexivity.
Qed.

Lemma DialRequest_Marshal_succeeds_witness :
  DialRequest_Marshal (mkDialRequest "" "ssh" None [])
  = Ok (DialRequest_wire (mkDialRequest "" "ssh" None []))
  /\ DialRequest_Marshal scenario_request = Ok (DialRequest_wire scenario_request).
Proof.
  split.
  - apply (DialRequest_Marshal_succeeds (mkDialRequest "" "ssh" None [])).
    apply Z.leb_le. vm_compute. reflexivity.
  - apply (DialRequest_Marshal_succeeds scenario_request).
    apply Z.leb_le. vm_compute. reflexivity.
Defined.

(** C7.  The service descriptor registers exactly one RPC: no unary method,
    and one stream, named Tunnel, in which both the client and the server
    stream; what is sent and received on it, on either side, is a Frame; the
    client and server interfaces have the one method Tunnel. *)
Theorem Tunnel_is_the_only_rpc :
  rpc_names _TunnelerService_serviceDesc = [ "Tunnel"%string ]
  /\ Methods _TunnelerService_serviceDesc = []
  /\ (forall s, In s (Streams _TunnelerService_serviceDesc) ->
        StreamName s = "Tunnel"%string /\ bidirectional s = true)
  /\ length (Streams _TunnelerService_serviceDesc) = 1%nat
  /\ Send TunnelerService_TunnelClient = Frame_type
  /\ Recv TunnelerService_TunnelClient = Frame_type
  /\ Send TunnelerService_TunnelServer = Frame_type
  /\ Recv TunnelerService_TunnelServer = Frame_type
  /\ TunnelerServiceClient = [ "Tunnel"%string ]
  /\ TunnelerServiceServer = [ "Tunnel"%string ].
Proof.
  repeat split; try reflexivity.
  - destruct H as [<-|[]]. reflexivity.
  - destruct H as [<-|[]]. reflexivity.
Qed.


(** ** The state machine *)




Lemma refused_run_runs :
  Session.run refused_run (Session.Failed Session.DialFailure).
Proof.
  apply (Session.run_step [_; _] (Session.Dialing true)); [|constructor].
  apply (Session.run_step [_] Session.AwaitingHandshake); [|constructor].
  apply (Session.run_step [] Session.Opened); constructor.
Qed.





(** ** Unknown fields *)

(** C8.  A DialRequest or an Addr decoded from its known fields followed by
    well-formed unknown fields holds the bytes of those fields in
    XXX_unrecognized, and encoding it again gives the same bytes, the
    unknown fields at the end. *)
Theorem unknown_fields_are_preserved :
  (forall (m : DialRequest) (u : list byte),
     DialRequest_plain m -> unknown_fields DialRequest_known u ->
     DialRequest_Size m + len u <= MaxInt ->
     exists m',
       DialRequest_Unmarshal DialRequest_zero (DialRequest_wire m ++ u) = Ok m'
       /\ DialRequest_XXX_unrecognized m' = u
       /\ DialRequest_Marshal m' = Ok (DialRequest_wire m ++ u))
  /\ (forall (m : Addr) (u : list byte),
        Addr_plain m -> unknown_fields Addr_known u ->
        Addr_Size m + len u <= MaxInt ->
        exists m',
          Addr_Unmarshal Addr_zero (Addr_wire m ++ u) = Ok m'
          /\ Addr_XXX_unrecognized m' = u
          /\ Addr_Marshal m' = Ok (Addr_wire m ++ u)).
Proof.
  split.
  - intros m u (Hp & Hto) Hu Hm.
    set (m' := mkDialRequest (ServerID m) (ConnType m) (To m) u).
    assert (DialRequest_wire m ++ u = DialRequest_wire m') as Ew.
    { unfold DialRequest_wire, m'. cbn [ServerID ConnType To DialRequest_XXX_unrecognized].
      rewrite Hp, app_nil_r, <- !app_assoc. reflexivity. }
    assert (DialRequest_Size m' <= MaxInt) as Hm'.
    { unfold DialRequest_Size, m' in *.
      cbn [ServerID ConnType To DialRequest_XXX_unrecognized].
      rewrite Hp in Hm. change (len (@nil byte)) with 0 in Hm. lia. }
    destruct (DialRequest_Marshal_wire m' Hm') as (E & Hl).
    exists m'. rewrite Ew. repeat split; [|exact E].
    apply DialRequest_Unmarshal_wire; [|lia].
    split; [exact Hu|]. cbn [To m'].
    destruct (To m); [apply Addr_plain_wf, Hto|exact I].
  - intros m u Hp Hu Hm.
    set (m' := mkAddr (Network m) (Address m) u).
    assert (Addr_wire m ++ u = Addr_wire m') as Ew.
    { unfold Addr_wire, m'. cbn [Network Address Addr_XXX_unrecognized].
      rewrite Hp, app_nil_r, <- !app_assoc. reflexivity. }
    assert (Addr_Size m' <= MaxInt) as Hm'.
    { unfold Addr_Size, m' in *. cbn [Network Address Addr_XXX_unrecognized].
      rewrite Hp in Hm. change (len (@nil byte)) with 0 in Hm. lia. }
    destruct (Addr_Marshal_wire m' Hm') as (E & Hl).
    exists m'. rewrite Ew. repeat split; [|exact E].
    apply Addr_Unmarshal_wire; [exact Hu|lia].
Qed.

Lemma unknown_fields_are_preserved_witness :
  (exists m',
     DialRequest_Unmarshal DialRequest_zero
       (DialRequest_wire scenario_request ++ [x20; x07]) = Ok m'
     /\ DialRequest_XXX_unrecognized m' = [x20; x07]
     /\ DialRequest_Marshal m'
        = Ok (DialRequest_wire scenario_request ++ [x20; x07]))
  /\ (exists m',
        Addr_Unmarshal Addr_zero
          (Addr_wire (mkAddr "tcp" "10.0.0.5:22" []) ++ [x1a; x01; x41]) = Ok m'
        /\ Addr_XXX_unrecognized m' = [x1a; x01; x41]
        /\ Addr_Marshal m'
           = Ok (Addr_wire (mkAddr "tcp" "10.0.0.5:22" []) ++ [x1a; x01; x41])).
Proof.
  destruct unknown_fields_are_preserved as (HD & HA).
  split.
  - apply HD.
    + vm_compute. repeat split.
    + rewrite <- (app_nil_r [x20; x07]).
      apply unknown_app; [vm_compute; reflexivity|constructor].
    + apply Z.leb_le. vm_compute. reflexivity.
  - apply HA.
    + reflexivity.
    + rewrite <- (app_nil_r [x1a; x01; x41]).
      apply unknown_app; [vm_compute; reflexivity|constructor].
    + apply Z.leb_le. vm_compute. reflexivity.
Defined.

(** ** Safety *)

(** C9.  On every input the four Unmarshal methods and skipTunnel return,
    with a value or with an error: no index or slice expression is out of
    range, and the loops end within the turns the buffer allows.  The input
    is a Go slice: its length fits an int. *)
Theorem Unmarshal_returns (dAtA : list byte) :
  len dAtA <= MaxInt ->
  (forall m, returns (Frame_Unmarshal m dAtA))
  /\ (forall m, returns (DialRequest_Unmarshal m dAtA))
  /\ (forall m, returns (Addr_Unmarshal m dAtA))
  /\ (forall m, returns (Data_Unmarshal m dAtA))
  /\ returns (skipTunnel dAtA).
Proof.
  intros Hl. repeat split; try intros m.
  - eapply safe_returns, Frame_Unmarshal_safe, Hl.
  - eapply safe_returns, DialRequest_Unmarshal_safe, Hl.
  - eapply safe_returns, Addr_Unmarshal_safe, Hl.
  - eapply safe_returns, Data_Unmarshal_safe, Hl.
  - eapply safe_returns, skipTunnel_safe, Hl.
Qed.

Lemma Unmarshal_returns_witness :
  returns (Frame_Unmarshal Frame_zero [x0a; xff; xff; x03; x1b; x80])
  /\ returns (skipTunnel [x0a; xff; xff; x03; x1b; x80]).
Proof.
  destruct (Unmarshal_returns [x0a; xff; xff; x03; x1b; x80]) as (H1 & _ & _ & _ & H5).
  - apply Z.leb_le. vm_compute. reflexivity.
  - split; [apply H1|exact H5].
Defined.

(** ** Sizes *)

Lemma filled_anywhere (dAtA : list byte) (i : Z) :
  0 <= i <= len dAtA -> filled dAtA i (skipn (Z.to_nat i) dAtA) dAtA.
Proof.
  intros Hi. unfold filled. repeat split; try lia.
  - unfold len in *. rewrite length_skipn. lia.
  - now rewrite firstn_skipn.
Qed.

(** C10.  Marshal of a Frame, a DialRequest, an Addr or a Data returns a nil
    error and as many bytes as Size says; and encodeVarintTunnel writes the
    varint of [v] in the [sovTunnel v] bytes before [offset], and returns
    the index of the first of them.  Sizes fit a Go int. *)
Theorem Marshal_length_is_Size :
  (forall m : Frame, Frame_Size m <= MaxInt ->
     exists b, Frame_Marshal m = Ok b /\ len b = Frame_Size m)
  /\ (forall m : DialRequest, DialRequest_Size m <= MaxInt ->
        exists b, DialRequest_Marshal m = Ok b /\ len b = DialRequest_Size m)
  /\ (forall m : Addr, Addr_Size m <= MaxInt ->
        exists b, Addr_Marshal m = Ok b /\ len b = Addr_Size m)
  /\ (forall m : Data, Data_Size m <= MaxInt ->
        exists b, Data_Marshal m = Ok b /\ len b = Data_Size m)
  /\ (forall (dAtA : list byte) (offset v : Z),
        0 <= v < 2 ^ 64 -> sovTunnel v <= offset <= len dAtA ->
        exists written,
          encodeVarintTunnel dAtA offset v
          = Ok (firstn (Z.to_nat (offset - sovTunnel v)) dAtA
                ++ written ++ skipn (Z.to_nat offset) dAtA,
                offset - sovTunnel v)
          /\ len written = sovTunnel v /\ written = varint v).
Proof.
  repeat split.
  - intros m Hm. destruct (Frame_Marshal_wire m Hm). eauto.
  - intros m Hm. destruct (DialRequest_Marshal_wire m Hm). eauto.
  - intros m Hm. destruct (Addr_Marshal_wire m Hm). eauto.
  - intros m Hm. destruct (Data_Marshal_wire m Hm). eauto.
  - intros dAtA offset v Hv Ho.
    pose proof (sov_pos v ltac:(lia)).
    destruct (encodeVarint_filled dAtA _ dAtA offset v
                (filled_anywhere dAtA offset ltac:(lia)) Hv ltac:(lia))
      as (buf & E & (_ & _ & ->)).
    exists (varint v). rewrite E.
    repeat split. apply len_varint, Hv.
Qed.

Lemma Marshal_length_is_Size_witness :
  (exists b, Frame_Marshal scenario_frame = Ok b /\ len b = Frame_Size scenario_frame)
  /\ (exists written,
        encodeVarintTunnel [x00; x00; x00; x00] 4 300
        = Ok (firstn (Z.to_nat (4 - sovTunnel 300)) [x00; x00; x00; x00]
              ++ written ++ skipn (Z.to_nat 4) [x00; x00; x00; x00],
              4 - sovTunnel 300)
        /\ len written = sovTunnel 300 /\ written = varint 300).
Proof.
  destruct Marshal_length_is_Size as (HF & _ & _ & _ & HV).
  split.
  - apply HF. apply Z.leb_le. vm_compute. reflexivity.
  - apply HV.
    + split; [apply Z.leb_le|apply Z.ltb_lt]; vm_compute; reflexivity.
    + split; apply Z.leb_le; vm_compute; reflexivity.
Defined.

(* ------------------------------------------------------------------ *)
(** ** The varint helpers *)

Lemma sov_log2 (v : Z) : 0 <= v -> sovTunnel v = (Z.log2 v + 7) / 7.
Proof.
  intros Hv. unfold sovTunnel. rewrite Len64_lor1 by lia.
  f_equal. lia.
Qed.

Lemma sov_le_iff (v k : Z) :
  0 <= v -> 1 <= k -> sovTunnel v <= k <-> v < 2 ^ (7 * k).
Proof.
  intros Hv Hk. rewrite sov_log2 by lia.
  pose proof (Z.log2_nonneg v).
  assert (0 < 2 ^ (7 * k)) by (apply Z.pow_pos_nonneg; lia).
  destruct (Z.eq_dec v 0) as [->|Hn].
  - change (Z.log2 0) with 0. change ((0 + 7) / 7) with 1. lia.
  - rewrite (Z.log2_lt_pow2 v (7 * k)) by lia.
    split; intros H1; Z.div_mod_to_equations; lia.
Qed.

(** X1.  sovTunnel gives the length of the base-128 varint of a uint64: between
    one and ten bytes, the least number [k] of seven-bit groups that hold
    the value. *)
Theorem sovTunnel_least_groups (v : Z) :
  0 <= v < 2 ^ 64 ->
  1 <= sovTunnel v <= 10
  /\ v < 2 ^ (7 * sovTunnel v)
  /\ forall k, 1 <= k -> v < 2 ^ (7 * k) -> sovTunnel v <= k.
Proof.
  intros Hv. pose proof (sov_pos v ltac:(lia)) as Hp.
  split; [split; [exact Hp|]|split].
  - apply sov_le_iff; lia.
  - apply sov_le_iff; lia.
  - intros k Hk Hlt. apply sov_le_iff; lia.
Qed.

Lemma sovTunnel_least_groups_witness :
  1 <= sovTunnel 300 <= 10
  /\ 300 < 2 ^ (7 * sovTunnel 300)
  /\ forall k, 1 <= k -> 300 < 2 ^ (7 * k) -> sovTunnel 300 <= k.
Proof.
  apply (sovTunnel_least_groups 300). split; [lia|reflexivity].
Defined.

Lemma lxor_ones64 (a : Z) : 0 <= a < 2 ^ 64 -> Z.lxor a (2 ^ 64 - 1) = 2 ^ 64 - 1 - a.
Proof.
  intros Ha.
  assert (Z.land a (2 ^ 64 - 1 - a) = 0) as Hdis.
  { apply Z.bits_inj'. intros n Hn. rewrite Z.land_spec, Z.bits_0.
    replace (2 ^ 64 - 1 - a) with (Z.lnot a mod 2 ^ 64).
    - destruct (Z.lt_ge_cases n 64).
      + rewrite Z.mod_pow2_bits_low by lia. rewrite Z.lnot_spec by lia.
        apply andb_negb_r.
      + rewrite Z.mod_pow2_bits_high by lia. apply andb_false_r.
    - unfold Z.lnot. rewrite <- Z.sub_1_r.
      replace (- a - 1) with (2 ^ 64 - 1 - a + (-1) * 2 ^ 64) by lia.
      rewrite Z.mod_add by lia. apply Z.mod_small. lia. }
  pose proof (Z.add_nocarry_lxor a (2 ^ 64 - 1 - a) Hdis) as E.
  replace (a + (2 ^ 64 - 1 - a)) with (2 ^ 64 - 1) in E by lia.
  replace (Z.lxor a (2 ^ 64 - 1))
    with (Z.lxor a (Z.lxor a (2 ^ 64 - 1 - a))) by (now rewrite <- E).
  rewrite <- Z.lxor_assoc, Z.lxor_nilpotent. apply Z.lxor_0_l.
Qed.

(** X2.  sozTunnel gives the varint length of the zigzag code of its argument
    read as a signed number. *)
Theorem sozTunnel_zigzag (x : Z) :
  0 <= x < 2 ^ 64 -> sozTunnel x = sovTunnel (zigzag (int x)).
Proof.
  intros Hx. unfold sozTunnel, zigzag. f_equal.
  assert (2 ^ 64 = 2 * 2 ^ 63) as E64 by reflexivity.
  rewrite Z.shiftl_mul_pow2 by lia. change (2 ^ 1) with 2.
  rewrite Z.shiftr_div_pow2 by lia.
  destruct (Z.lt_ge_cases x (2 ^ 63)) as [Hlo|Hhi].
  - rewrite (int_small x) by lia.
    destruct (Z.ltb_spec x 0); [lia|].
    rewrite (Z.div_small x) by lia. change (uint64 0) with 0.
    rewrite Z.lxor_0_r. unfold uint64. rewrite Z.mod_mod by lia.
    rewrite Z.mod_small by lia. lia.
  - assert (int x = x - 2 ^ 64) as Ei.
    { unfold int. replace (x + 2 ^ 63) with (x - 2 ^ 63 + 1 * 2 ^ 64) by lia.
      rewrite Z.mod_add by lia. rewrite Z.mod_small by lia. lia. }
    rewrite Ei. destruct (Z.ltb_spec (x - 2 ^ 64) 0); [|lia].
    assert ((x - 2 ^ 64) / 2 ^ 63 = -1) as Ed.
    { symmetry. apply (Z.div_unique _ _ _ (x - 2 ^ 63)); lia. }
    rewrite Ed. change (uint64 (-1)) with (2 ^ 64 - 1).
    assert (uint64 (x * 2) = 2 * x - 2 ^ 64) as Es.
    { unfold uint64. replace (x * 2) with (2 * x - 2 ^ 64 + 1 * 2 ^ 64) by lia.
      rewrite Z.mod_add by lia. apply Z.mod_small. lia. }
    rewrite Es. rewrite lxor_ones64 by lia.
    rewrite uint64_small by lia. lia.
Qed.

Lemma sozTunnel_zigzag_witness :
  sozTunnel (2 ^ 64 - 3) = sovTunnel (zigzag (int (2 ^ 64 - 3))).
Proof.
  apply (sozTunnel_zigzag (2 ^ 64 - 3)). split; [discriminate|reflexivity].
Defined.

(** The varint loop with a uint64 accumulator reads back [varint_bytes],
    for values up to the last bit of a uint64. *)
Lemma varint_loop_uint64_varint_bytes (n : nat) :
  forall (k : nat) (v : Z) (a c : list byte) (l shift x : Z),
  0 <= shift < 64 -> 0 <= v < 2 ^ (7 * Z.of_nat (S n)) ->
  v * 2 ^ shift < 2 ^ 64 ->
  len a + len (varint_bytes (S n) v) <= l ->
  varint_loop (S n + k) uint64 (a ++ varint_bytes (S n) v ++ c) l shift x (len a)
  = Ok (Z.lor x (Z.shiftl v shift), len a + len (varint_bytes (S n) v)).
Proof.
  assert (forall u v shift, 0 <= shift -> 0 <= u <= v -> v * 2 ^ shift < 2 ^ 64 ->
            uint64 (Z.shiftl u shift) = Z.shiftl u shift) as wrap_shiftl.
  { intros u v shift Hs Hu Hv. apply uint64_small.
    rewrite Z.shiftl_mul_pow2 by lia.
    assert (0 < 2 ^ shift) by (apply Z.pow_pos_nonneg; lia). nia. }
  induction n as [|n IH]; intros k v a c l shift x Hs Hv Hvs Hl;
    rewrite varint_bytes_S in *; cbn [Nat.add]; rewrite varint_loop_S;
    (destruct (Z.leb_spec 64 shift); [lia|]);
    pose proof (len_nonneg a);
    destruct (Z.leb_spec 128 v) as [Hbig|Hsmall].
  - change (2 ^ (7 * Z.of_nat 1)) with 128 in Hv. lia.
  - rewrite len_cons in Hl. change (len (@nil byte)) with 0 in *.
    destruct (Z.leb_spec l (len a)); [lia|].
    cbn [app]. rewrite index_app. cbn [bind].
    rewrite b2z_uint8_small by lia. rewrite land_127_small by lia.
    rewrite (wrap_shiftl v v) by lia.
    destruct (Z.ltb_spec v 128); [|lia].
    rewrite len_cons. reflexivity.
  - rewrite len_cons in Hl. pose proof (len_nonneg (varint_bytes (S n) (Z.shiftr v 7))).
    destruct (Z.leb_spec l (len a)); [lia|].
    cbn [app]. rewrite index_app. cbn [bind].
    pose proof (land_127_range v) as Hr. pose proof (land_127_le v ltac:(lia)).
    rewrite b2z_uint8_small by (rewrite cont_byte_value; lia).
    rewrite cont_byte_low, cont_byte_value.
    rewrite (wrap_shiftl (Z.land v 127) v) by lia.
    destruct (Z.ltb_spec (Z.land v 127 + 128) 128); [lia|].
    pose proof (shiftr7_mul_le v ltac:(lia)).
    assert (0 <= Z.shiftr v 7 < 2 ^ (7 * Z.of_nat (S n))) as Hv'.
    { apply shiftr7_lt; [lia|].
      replace (7 * Z.of_nat (S n) + 7) with (7 * Z.of_nat (S (S n))) by lia.
      exact Hv. }
    assert (0 < 2 ^ shift) by (apply Z.pow_pos_nonneg; lia).
    assert (shift + 7 < 64) as Hs'.
    { destruct (Z.lt_ge_cases (shift + 7) 64) as [|Hge]; [assumption|].
      exfalso.
      assert (2 ^ 57 <= 2 ^ shift) by (apply Z.pow_le_mono_r; lia).
      change (2 ^ 57) with 144115188075855872 in *.
      change (2 ^ 64) with 18446744073709551616 in *. nia. }
    assert (Z.shiftr v 7 * 2 ^ (shift + 7) < 2 ^ 64) as Hvs'.
    { rewrite Z.pow_add_r by lia. change (2 ^ 7) with 128. nia. }
    replace (len a + 1) with (len (a ++ [uint8 (Z.land v 127 + 128)]))
      by (rewrite len_app; reflexivity).
    change (a ++ ?b :: ?r ++ c) with (a ++ [b] ++ r ++ c).
    rewrite (app_assoc a [_]).
    rewrite (IH k (Z.shiftr v 7)); try lia.
    + rewrite lor_shift_step by lia. rewrite len_app, !len_cons.
      change (len (@nil byte)) with 0. f_equal. f_equal. lia.
    + rewrite len_app. change (len [uint8 (Z.land v 127 + 128)]) with 1. lia.
  - rewrite len_cons in Hl. change (len (@nil byte)) with 0 in *.
    destruct (Z.leb_spec l (len a)); [lia|].
    cbn [app]. rewrite index_app. cbn [bind].
    rewrite b2z_uint8_small by lia. rewrite land_127_small by lia.
    rewrite (wrap_shiftl v v) by lia.
    destruct (Z.ltb_spec v 128); [|lia].
    rewrite len_cons. reflexivity.
Qed.

Lemma read_uvarint_varint64 (v : Z) (a c : list byte) (l : Z) :
  0 <= v < 2 ^ 64 -> len a + sovTunnel v <= l ->
  read_uvarint (a ++ varint v ++ c) l (len a) = Ok (v, len a + sovTunnel v).
Proof.
  intros Hv Hl. pose proof pow64_le_pow70.
  rewrite <- len_varint in * by lia. unfold varint, read_uvarint in *.
  change 11%nat with (10 + 1)%nat.
  rewrite varint_loop_uint64_varint_bytes; try lia.
  rewrite Z.shiftl_0_r. reflexivity.
Qed.

(** X3.  What encodeVarintTunnel writes, the decoder's varint loop reads back:
    encodeVarintTunnel puts [sovTunnel v] bytes just before [offset], leaves
    the rest of the buffer as it was and returns the index of the first of
    them; the varint loop of Unmarshal started at that index gives [v], for
    every uint64 [v], and stops where the write ended. *)
Theorem encodeVarintTunnel_read_back (v : Z) (a junk c : list byte) :
  0 <= v < 2 ^ 64 -> len junk = sovTunnel v ->
  exists w,
    len w = sovTunnel v
    /\ encodeVarintTunnel (a ++ junk ++ c) (len a + sovTunnel v) v
       = Ok (a ++ w ++ c, len a)
    /\ read_uvarint (a ++ w ++ c) (len (a ++ w ++ c)) (len a)
       = Ok (v, len a + sovTunnel v).
Proof.
  intros Hv Hj. exists (varint v).
  pose proof (len_varint v Hv) as Hlv. pose proof pow64_le_pow70.
  pose proof (len_nonneg c).
  split; [exact Hlv|]. split.
  - unfold encodeVarintTunnel.
    replace (len a + sovTunnel v - sovTunnel v) with (len a) by lia.
    unfold varint. rewrite encodeVarint_loop_app; try lia.
    + reflexivity.
    + unfold varint, len in *. lia.
  - apply read_uvarint_varint64; [exact Hv|]. rewrite !len_app. lia.
Qed.

Lemma encodeVarintTunnel_read_back_witness :
  exists w,
    len w = sovTunnel (2 ^ 64 - 1)
    /\ encodeVarintTunnel ([x0a] ++ repeat x00 10 ++ [xff])
         (len [x0a] + sovTunnel (2 ^ 64 - 1)) (2 ^ 64 - 1)
       = Ok ([x0a] ++ w ++ [xff], len [x0a])
    /\ read_uvarint ([x0a] ++ w ++ [xff]) (len ([x0a] ++ w ++ [xff])) (len [x0a])
       = Ok (2 ^ 64 - 1, len [x0a] + sovTunnel (2 ^ 64 - 1)).
Proof.
  apply (encodeVarintTunnel_read_back (2 ^ 64 - 1) [x0a] (repeat x00 10) [xff]).
  - split; [discriminate|reflexivity].
  - reflexivity.
Defined.

(* ------------------------------------------------------------------ *)
(** ** MarshalTo and XXX_Marshal *)

Lemma marshal_with_inv {M : Type} (Size : M -> Z) (wire : M -> list byte)
  (MTSB : M -> list byte -> outcome (list byte * Z)) (m : M) (w : list byte) :
  (Size m < 2 ^ 64 -> writes_back Size wire MTSB m) ->
  marshal_with Size MTSB m = Ok w ->
  w = wire m /\ len w = Size m /\ writes_back Size wire MTSB m.
Proof.
  intros Hwb H. pose proof MaxInt_lt_pow64.
  assert (0 <= Size m <= MaxInt) as Hs.
  { unfold marshal_with, make in H.
    destruct (Z.leb_spec 0 (Size m)); [|discriminate].
    destruct (Z.leb_spec (Size m) MaxInt); [|discriminate]. lia. }
  specialize (Hwb ltac:(lia)).
  rewrite (marshal_with_wire Size wire MTSB m Hwb Hs) in H.
  injection H as <-. destruct Hwb as (Hl & Hx). repeat split; assumption.
Qed.

Lemma firstn_skipn_len (dAtA : list byte) (n : Z) :
  0 <= n <= len dAtA ->
  slice_to dAtA n = Ok (firstn (Z.to_nat n) dAtA)
  /\ len (firstn (Z.to_nat n) dAtA) = n.
Proof.
  intros Hn. unfold slice_to, slice.
  destruct (Z.leb_spec 0 0); [|lia].
  destruct (Z.leb_spec 0 n); [|lia].
  destruct (Z.leb_spec n (len dAtA)); [|lia].
  cbn [andb]. rewrite Z.sub_0_r. cbn [Z.to_nat skipn].
  split; [reflexivity|]. unfold len in *. rewrite length_firstn. lia.
Qed.

Lemma marshalTo_with_wire {M : Type} (Size : M -> Z) (wire : M -> list byte)
  (MTSB : M -> list byte -> outcome (list byte * Z)) (m : M) (dAtA : list byte) :
  writes_back Size wire MTSB m -> 0 <= Size m <= len dAtA ->
  marshalTo_with Size MTSB m dAtA
  = Ok (wire m ++ skipn (Z.to_nat (Size m)) dAtA, Size m).
Proof.
  intros (Hw & Hx) Hs. unfold marshalTo_with.
  destruct (firstn_skipn_len dAtA (Size m) Hs) as (-> & Hl). cbn [bind].
  rewrite Hx by lia. cbn [bind]. rewrite Hl, Z.sub_diag.
  cbn [Z.to_nat firstn app]. reflexivity.
Qed.

Lemma marshalTo_with_Marshal {M : Type} (Size : M -> Z) (wire : M -> list byte)
  (MTSB : M -> list byte -> outcome (list byte * Z)) (m : M)
  (w dAtA : list byte) :
  (Size m < 2 ^ 64 -> writes_back Size wire MTSB m) ->
  marshal_with Size MTSB m = Ok w -> len w <= len dAtA ->
  marshalTo_with Size MTSB m dAtA = Ok (w ++ skipn (length w) dAtA, len w).
Proof.
  intros Hwb H Hl.
  destruct (marshal_with_inv Size wire MTSB m w Hwb H) as (-> & Hs & Hw).
  pose proof (len_nonneg (wire m)).
  rewrite (marshalTo_with_wire Size wire MTSB m dAtA Hw) by lia.
  rewrite <- Hs, to_nat_len. reflexivity.
Qed.

(** X4.  MarshalTo and Marshal agree: when Marshal returns [w] and the buffer
    given to MarshalTo has room for it, MarshalTo writes [w] into the first
    [len w] bytes of the buffer, leaves the bytes after them untouched and
    returns [len w].  This holds for all four messages. *)
Theorem MarshalTo_writes_what_Marshal_returns :
  (forall (m : Frame) (w dAtA : list byte),
     Frame_Marshal m = Ok w -> len w <= len dAtA ->
     Frame_MarshalTo m dAtA = Ok (w ++ skipn (length w) dAtA, len w))
  /\ (forall (m : DialRequest) (w dAtA : list byte),
     DialRequest_Marshal m = Ok w -> len w <= len dAtA ->
     DialRequest_MarshalTo m dAtA = Ok (w ++ skipn (length w) dAtA, len w))
  /\ (forall (m : Addr) (w dAtA : list byte),
     Addr_Marshal m = Ok w -> len w <= len dAtA ->
     Addr_MarshalTo m dAtA = Ok (w ++ skipn (length w) dAtA, len w))
  /\ (forall (m : Data) (w dAtA : list byte),
     Data_Marshal m = Ok w -> len w <= len dAtA ->
     Data_MarshalTo m dAtA = Ok (w ++ skipn (length w) dAtA, len w)).
Proof.
  repeat split; intros m w dAtA H Hl.
  - exact (marshalTo_with_Marshal _ Frame_wire _ m w dAtA
             (Frame_writes_back m) H Hl).
  - exact (marshalTo_with_Marshal _ DialRequest_wire _ m w dAtA
             (DialRequest_writes_back m) H Hl).
  - exact (marshalTo_with_Marshal _ Addr_wire _ m w dAtA
             (Addr_writes_back m) H Hl).
  - exact (marshalTo_with_Marshal _ Data_wire _ m w dAtA
             (Data_writes_back m) H Hl).
Qed.

Lemma MarshalTo_writes_what_Marshal_returns_witness :
  Frame_MarshalTo scenario_data (repeat xff 8)
  = Ok ([x12; x04; x0a; x02; x68; x69; xff; xff], 6).
Proof.
  destruct MarshalTo_writes_what_Marshal_returns as (H & _).
  apply (H scenario_data [x12; x04; x0a; x02; x68; x69] (repeat xff 8)).
  - reflexivity.
  - discriminate.
Defined.

Lemma XXX_Marshal_with_wire {M : Type} (Size : M -> Z) (wire : M -> list byte)
  (MTSB : M -> list byte -> outcome (list byte * Z))
  (mi : list byte -> M -> bool -> outcome (list byte))
  (m : M) (w backing : list byte) :
  (Size m < 2 ^ 64 -> writes_back Size wire MTSB m) ->
  marshal_with Size MTSB m = Ok w -> len w <= len backing ->
  XXX_Marshal_with mi MTSB m backing false
  = Ok (firstn (length w) (firstn (length backing - length w) backing ++ w)).
Proof.
  intros Hwb H Hl.
  destruct (marshal_with_inv Size wire MTSB m w Hwb H) as (-> & Hs & (_ & Hx)).
  unfold XXX_Marshal_with. rewrite Hx by lia. cbn [bind].
  pose proof (len_nonneg (wire m)).
  set (b := firstn (Z.to_nat (len backing - Size m)) backing ++ wire m).
  assert (len b = len backing) as Hb.
  { unfold b. rewrite len_app. unfold len in *. rewrite length_firstn. lia. }
  destruct (firstn_skipn_len b (Size m) ltac:(lia)) as (-> & _).
  unfold b. rewrite <- Hs, to_nat_len.
  replace (Z.to_nat (len backing - len (wire m)))
    with (length backing - length (wire m))%nat by (unfold len; lia).
  reflexivity.
Qed.

Lemma XXX_Marshal_with_exact {M : Type} (Size : M -> Z) (wire : M -> list byte)
  (MTSB : M -> list byte -> outcome (list byte * Z))
  (mi : list byte -> M -> bool -> outcome (list byte))
  (m : M) (w backing : list byte) :
  (Size m < 2 ^ 64 -> writes_back Size wire MTSB m) ->
  marshal_with Size MTSB m = Ok w -> len backing = len w ->
  XXX_Marshal_with mi MTSB m backing false = Ok w.
Proof.
  intros Hwb H Hl.
  rewrite (XXX_Marshal_with_wire Size wire MTSB mi m w backing Hwb H) by lia.
  replace (length backing - length w)%nat with 0%nat by (unfold len in Hl; lia).
  cbn [firstn app]. rewrite firstn_all. reflexivity.
Qed.

(** X5.  XXX_Marshal with [deterministic = false], called as the proto library
    calls it, on a slice whose capacity is the size of the message, returns
    what Marshal returns, whatever the library's own Marshal is.  This holds
    for all four messages. *)
Theorem XXX_Marshal_exact_capacity :
  (forall mi (m : Frame) (w backing : list byte),
     Frame_Marshal m = Ok w -> len backing = len w ->
     Frame_XXX_Marshal mi m backing false = Ok w)
  /\ (forall mi (m : DialRequest) (w backing : list byte),
     DialRequest_Marshal m = Ok w -> len backing = len w ->
     DialRequest_XXX_Marshal mi m backing false = Ok w)
  /\ (forall mi (m : Addr) (w backing : list byte),
     Addr_Marshal m = Ok w -> len backing = len w ->
     Addr_XXX_Marshal mi m backing false = Ok w)
  /\ (forall mi (m : Data) (w backing : list byte),
     Data_Marshal m = Ok w -> len backing = len w ->
     Data_XXX_Marshal mi m backing false = Ok w).
Proof.
  repeat split; intros mi m w backing H Hl.
  - exact (XXX_Marshal_with_exact _ Frame_wire _ mi m w backing
             (Frame_writes_back m) H Hl).
  - exact (XXX_Marshal_with_exact _ DialRequest_wire _ mi m w backing
             (DialRequest_writes_back m) H Hl).
  - exact (XXX_Marshal_with_exact _ Addr_wire _ mi m w backing
             (Addr_writes_back m) H Hl).
  - exact (XXX_Marshal_with_exact _ Data_wire _ mi m w backing
             (Data_writes_back m) H Hl).
Qed.

Lemma XXX_Marshal_exact_capacity_witness :
  Frame_XXX_Marshal (fun _ _ _ => Panic) scenario_data (repeat x00 6) false
  = Ok [x12; x04; x0a; x02; x68; x69].
Proof.
  destruct XXX_Marshal_exact_capacity as (H & _).
  apply (H _ scenario_data [x12; x04; x0a; x02; x68; x69] (repeat x00 6)).
  - reflexivity.
  - reflexivity.
Defined.

(** X6.  XXX_Marshal with [deterministic = false] on a slice with spare capacity:
    MarshalToSizedBuffer fills the end of the slice's array and XXX_Marshal
    returns its start.  When the capacity is at least twice the size of the
    message, the bytes returned are the first bytes the array held before
    the call, not the encoding. *)
Theorem XXX_Marshal_spare_capacity mi (m : Frame) (w backing : list byte) :
  Frame_Marshal m = Ok w -> 2 * len w <= len backing ->
  Frame_XXX_Marshal mi m backing false = Ok (firstn (length w) backing).
Proof.
  intros H Hl. pose proof (len_nonneg w).
  unfold Frame_XXX_Marshal.
  rewrite (XXX_Marshal_with_wire _ Frame_wire _ mi m w backing
             (Frame_writes_back m) H) by lia.
  f_equal. rewrite firstn_app.
  rewrite length_firstn.
  replace (length w - Nat.min (length backing - length w) (length backing))%nat
    with 0%nat by (unfold len in *; lia).
  cbn [firstn]. rewrite app_nil_r. rewrite firstn_firstn.
  f_equal. unfold len in *. lia.
Qed.

Lemma XXX_Marshal_spare_capacity_witness :
  Frame_XXX_Marshal (fun _ _ _ => Panic) scenario_data (repeat x00 12) false
  = Ok (repeat x00 6).
Proof.
  apply (XXX_Marshal_spare_capacity _ scenario_data
           [x12; x04; x0a; x02; x68; x69] (repeat x00 12)).
  - reflexivity.
  - discriminate.
Defined.

(* ------------------------------------------------------------------ *)
(** ** Marshal is injective *)

Lemma Frame_Marshal_inv (m : Frame) (w : list byte) :
  Frame_Marshal m = Ok w -> w = Frame_wire m /\ len w <= MaxInt.
Proof.
  intros H.
  destruct (marshal_with_inv _ Frame_wire _ m w (Frame_writes_back m) H)
    as (-> & Hs & _).
  split; [reflexivity|].
  unfold Frame_Marshal, marshal_with, make in H.
  destruct (Z.leb_spec 0 (Frame_Size m)); [|discriminate].
  destruct (Z.leb_spec (Frame_Size m) MaxInt); [|discriminate]. lia.
Qed.

(** X7.  Two well-formed Frames with the same encoding are the same Frame. *)
Theorem Frame_Marshal_injective (f1 f2 : Frame) (w : list byte) :
  Frame_wf f1 -> Frame_wf f2 ->
  Frame_Marshal f1 = Ok w -> Frame_Marshal f2 = Ok w -> f1 = f2.
Proof.
  intros H1 H2 E1 E2.
  destruct (Frame_Marshal_inv f1 w E1) as (Ew1 & Hm).
  destruct (Frame_Marshal_inv f2 w E2) as (Ew2 & _).
  pose proof (Frame_Unmarshal_wire f1 H1 ltac:(now rewrite <- Ew1)) as D1.
  pose proof (Frame_Unmarshal_wire f2 H2 ltac:(now rewrite <- Ew2)) as D2.
  rewrite <- Ew1 in D1. rewrite <- Ew2 in D2. congruence.
Qed.

Lemma Frame_Marshal_injective_witness :
  scenario_data = mkFrame (Some (Frame_Data (Some (mkData [x68; x69] [])))) [].
Proof.
  assert (Frame_plain scenario_data) as H by (vm_compute; repeat split).
  apply (Frame_Marshal_injective scenario_data _ [x12; x04; x0a; x02; x68; x69]
           (Frame_plain_wf _ H) (Frame_plain_wf _ H)); reflexivity.
Defined.

(* ------------------------------------------------------------------ *)
(** ** Unmarshal on a part of a longer buffer *)

(** What was read from [u] is read again, at the same place, when [u] stands
    after [a] and before [c]. *)

Lemma read_tag_embed (msg : string) (a u c : list byte) (fn wt i j l' : Z) :
  read_tag msg u (len u) i = Ok (fn, wt, j) ->
  0 <= i -> len a + len u <= l' ->
  read_tag msg (a ++ u ++ c) l' (len a + i) = Ok (fn, wt, len a + j)
  /\ i < j <= len u.
Proof.
  intros H Hi Hl. split.
  - unfold read_tag in *.
    destruct (read_uvarint u (len u) i) as [[wire i1]| | |] eqn:E;
      try discriminate.
    rewrite (read_uvarint_ext a u c i wire i1 l' E Hl). cbn [bind] in *.
    destruct (Z.land wire 7 =? 4); [discriminate|].
    destruct (int32 (Z.shiftr wire 3) <=? 0); [discriminate|].
    injection H as <- <- <-. reflexivity.
  - pose proof (read_tag_safe msg u (len u) i ltac:(lia) Hi) as Hs.
    rewrite H in Hs. exact Hs.
Qed.

Lemma post_index_inv (l i n p : Z) :
  post_index l i n = Ok p -> 0 <= i <= MaxInt -> - 2 ^ 63 <= n < 2 ^ 63 ->
  0 <= n /\ p = i + n /\ p <= l.
Proof.
  unfold post_index. intros H Hi Hn.
  destruct (Z.ltb_spec n 0); [discriminate|].
  destruct (Z.ltb_spec (int (i + n)) 0); [discriminate|].
  destruct (Z.ltb_spec l (int (i + n))); [discriminate|].
  injection H as <-.
  destruct (int_add_nonneg i n) as (E & _); unfold MaxInt in *; lia.
Qed.

Lemma slice_inv (u : list byte) (lo hi : Z) (s : list byte) :
  slice u lo hi = Ok s ->
  exists u1 u2,
    u = u1 ++ s ++ u2 /\ len u1 = lo /\ len s = hi - lo
    /\ 0 <= lo <= hi /\ hi <= len u.
Proof.
  unfold slice. intros H.
  destruct (Z.leb_spec 0 lo); [|discriminate].
  destruct (Z.leb_spec lo hi); [|discriminate].
  destruct (Z.leb_spec hi (len u)); [|discriminate].
  cbn [andb] in H. injection H as <-.
  exists (firstn (Z.to_nat lo) u),
         (skipn (Z.to_nat (hi - lo)) (skipn (Z.to_nat lo) u)).
  rewrite !firstn_skipn. unfold len in *.
  rewrite !length_firstn, length_skipn. repeat split; lia.
Qed.

Lemma slice_embed (a u c : list byte) (lo hi : Z) (s : list byte) :
  slice u lo hi = Ok s ->
  slice (a ++ u ++ c) (len a + lo) (len a + hi) = Ok s.
Proof.
  intros H. destruct (slice_inv u lo hi s H) as (u1 & u2 & -> & H1 & H2 & _).
  replace (a ++ (u1 ++ s ++ u2) ++ c) with ((a ++ u1) ++ s ++ (u2 ++ c))
    by (now rewrite <- !app_assoc).
  replace (len a + lo) with (len (a ++ u1)) by (rewrite len_app; lia).
  replace (len a + hi) with (len (a ++ u1) + len s) by (rewrite len_app; lia).
  apply slice_app.
Qed.

Lemma slice_from_inv (u : list byte) (i : Z) (sub : list byte) :
  slice_from u i = Ok sub ->
  exists u1, u = u1 ++ sub /\ len u1 = i.
Proof.
  unfold slice_from. intros H.
  destruct (slice_inv u i (len u) sub H) as (u1 & u2 & E & H1 & H2 & H3 & _).
  assert (len u2 = 0) as H0.
  { pose proof (f_equal len E) as El. rewrite !len_app in El. lia. }
  destruct u2; [|rewrite len_cons in H0; pose proof (len_nonneg u2); lia].
  rewrite app_nil_r in E. eauto.
Qed.

Lemma read_string_embed (a u c : list byte) (i p : Z) (s : list byte) :
  read_string u (len u) i = Ok (s, p) ->
  0 <= i -> len (a ++ u ++ c) <= MaxInt ->
  read_string (a ++ u ++ c) (len (a ++ u ++ c)) (len a + i) = Ok (s, len a + p)
  /\ i < p <= len u.
Proof.
  intros H Hi Hm.
  pose proof (len_nonneg a). pose proof (len_nonneg c). pose proof (len_nonneg u).
  assert (len (a ++ u ++ c) = len a + len u + len c) as El
    by (rewrite !len_app; lia).
  split.
  - unfold read_string in *.
    destruct (read_uvarint u (len u) i) as [[n i1]| | |] eqn:E; try discriminate.
    pose proof (read_uvarint_bounds u i n i1 Hi E) as Hb.
    rewrite (read_uvarint_ext a u c i n i1 _ E) by lia. cbn [bind] in *.
    destruct (post_index (len u) i1 (int n)) as [q| | |] eqn:Ep;
      try discriminate.
    cbn [bind] in H.
    destruct (post_index_inv _ _ _ _ Ep ltac:(lia) (int_range n))
      as (Hn & -> & Hq).
    rewrite post_index_ok by lia. cbn [bind].
    destruct (slice u i1 (i1 + int n)) as [s'| | |] eqn:Es; try discriminate.
    injection H as <- <-.
    replace (len a + i1 + int n) with (len a + (i1 + int n)) by lia.
    rewrite (slice_embed a u c _ _ _ Es). reflexivity.
  - pose proof (read_string_safe u i ltac:(lia) Hi) as Hs.
    rewrite H in Hs. cbn [safe fst snd] in Hs. lia.
Qed.

Lemma read_bytes_embed (a u c : list byte) (i p : Z) (s : list byte) :
  read_bytes u (len u) i = Ok (s, p) ->
  0 <= i -> len (a ++ u ++ c) <= MaxInt ->
  read_bytes (a ++ u ++ c) (len (a ++ u ++ c)) (len a + i) = Ok (s, len a + p)
  /\ i < p <= len u.
Proof.
  intros H Hi Hm.
  pose proof (len_nonneg a). pose proof (len_nonneg c). pose proof (len_nonneg u).
  assert (len (a ++ u ++ c) = len a + len u + len c) as El
    by (rewrite !len_app; lia).
  split.
  - unfold read_bytes in *.
    destruct (read_ivarint u (len u) i) as [[n i1]| | |] eqn:E; try discriminate.
    pose proof (read_ivarint_safe u (len u) i ltac:(lia) Hi) as Hb.
    rewrite E in Hb. cbn [safe fst snd] in Hb. destruct Hb as (Hb & Hn).
    rewrite (read_ivarint_ext a u c i n i1 _ E) by lia. cbn [bind] in *.
    destruct (post_index (len u) i1 n) as [q| | |] eqn:Ep; try discriminate.
    cbn [bind] in H.
    destruct (post_index_inv _ _ _ _ Ep ltac:(lia) Hn) as (Hn0 & -> & Hq).
    rewrite post_index_ok by lia. cbn [bind].
    destruct (slice u i1 (i1 + n)) as [s'| | |] eqn:Es; try discriminate.
    injection H as <- <-.
    replace (len a + i1 + n) with (len a + (i1 + n)) by lia.
    rewrite (slice_embed a u c _ _ _ Es). reflexivity.
  - pose proof (read_bytes_safe u i ltac:(lia) Hi) as Hs.
    rewrite H in Hs. cbn [safe fst snd] in Hs. lia.
Qed.

Lemma skip_unknown_embed (a u c : list byte) (i j : Z) (s : list byte) :
  skip_unknown u (len u) i = Ok (s, j) ->
  0 <= i < len u -> len (a ++ u ++ c) <= MaxInt ->
  skip_unknown (a ++ u ++ c) (len (a ++ u ++ c)) (len a + i) = Ok (s, len a + j)
  /\ i < j <= len u.
Proof.
  intros H Hi Hm.
  pose proof (len_nonneg a). pose proof (len_nonneg c). pose proof (len_nonneg u).
  assert (len (a ++ u ++ c) = len a + len u + len c) as El
    by (rewrite !len_app; lia).
  split.
  - unfold skip_unknown in *. cbv zeta in *.
    destruct (slice_from u i) as [sub| | |] eqn:Es; try discriminate.
    destruct (slice_from_inv u i sub Es) as (u1 & Eu & Hu1).
    cbn [bind] in H.
    destruct (skipTunnel sub) as [skippy| | |] eqn:Ek; try discriminate.
    cbn [bind] in H.
    assert (len sub <= MaxInt) as Hsub.
    { pose proof (f_equal len Eu) as Eu'. rewrite len_app in Eu'.
      pose proof (len_nonneg u1). lia. }
    pose proof (skipTunnel_safe sub Hsub) as Hk. rewrite Ek in Hk.
    cbn [safe] in Hk.
    destruct (Z.ltb_spec skippy 0); [lia|].
    destruct (Z.ltb_spec (int (i + skippy)) 0); [discriminate|].
    cbn [orb] in H.
    destruct (int_add_nonneg i skippy) as (Ei & _); try lia.
    rewrite Ei in *.
    destruct (Z.ltb_spec (len u) (i + skippy)); [discriminate|].
    destruct (slice u i (i + skippy)) as [s'| | |] eqn:Esl; try discriminate.
    injection H as <- <-.
    assert (slice_from (a ++ u ++ c) (len a + i) = Ok (sub ++ c)) as ->.
    { rewrite Eu. replace (a ++ (u1 ++ sub) ++ c) with ((a ++ u1) ++ sub ++ c)
        by (now rewrite <- !app_assoc).
      replace (len a + i) with (len (a ++ u1)) by (rewrite len_app; lia).
      apply slice_from_app. }
    cbn [bind]. rewrite (skipTunnel_ext sub c skippy Ek). cbn [bind].
    rewrite int_small by (unfold MaxInt in *; lia).
    destruct (Z.ltb_spec skippy 0); [lia|].
    destruct (Z.ltb_spec (len a + i + skippy) 0); [lia|]. cbn [orb].
    destruct (Z.ltb_spec (len (a ++ u ++ c)) (len a + i + skippy)); [lia|].
    replace (len a + i + skippy) with (len a + (i + skippy)) by lia.
    rewrite (slice_embed a u c _ _ _ Esl). reflexivity.
  - pose proof (skip_unknown_safe u i ltac:(lia) Hi) as Hs.
    rewrite H in Hs. cbn [safe fst snd] in Hs. lia.
Qed.

Lemma expect_bytes_inv (wt : Z) (field : string) (x : unit) :
  expect_bytes wt field = Ok x -> wt = 2.
Proof.
  unfold expect_bytes. destruct (Z.eqb_spec wt 2); [auto|discriminate].
Qed.

Lemma finish_inv {M : Type} (m r : M) (l i : Z) :
  finish m l i = Ok r -> r = m /\ i <= l.
Proof.
  unfold finish. destruct (Z.ltb_spec l i); [discriminate|].
  intros [= ->]. auto.
Qed.

(** The steps shared by the four loops below. *)
Lemma Addr_Unmarshal_loop_embed (a u c : list byte) (fuel : nat) :
  forall (m r : Addr) (i : Z) (fuel' : nat),
  Addr_Unmarshal_loop fuel m u i = Ok r ->
  0 <= i -> len (a ++ u ++ c) <= MaxInt ->
  enough fuel' (a ++ u ++ c) (len a + i) ->
  exists fuel'', enough fuel'' (a ++ u ++ c) (len a + len u)
    /\ Addr_Unmarshal_loop fuel' m (a ++ u ++ c) (len a + i)
       = Addr_Unmarshal_loop fuel'' r (a ++ u ++ c) (len a + len u).
Proof.
  pose proof (len_nonneg a) as Ha. pose proof (len_nonneg c) as Hc.
  pose proof (len_nonneg u) as Hu.
  assert (len (a ++ u ++ c) = len a + len u + len c) as El
    by (rewrite !len_app; lia).
  induction fuel as [|fuel IH]; intros m r i fuel' H Hi Hm He; [discriminate|].
  cbn [Addr_Unmarshal_loop] in H. cbv zeta in H.
  destruct (Z.ltb_spec i (len u)) as [Hlt|Hge].
  2:{ apply finish_inv in H as (-> & Hle).
      replace i with (len u) in * by lia. eauto. }
  destruct (enough_S _ _ _ He) as (f & ->); [lia|].
  destruct (read_tag "Addr" u (len u) i) as [[[fn wt] j]| | |] eqn:Et;
    try discriminate.
  destruct (read_tag_embed "Addr" a u c fn wt i j (len (a ++ u ++ c)) Et Hi
              ltac:(lia)) as (Et' & Hj).
  cbn [Addr_Unmarshal_loop]. cbv zeta.
  destruct (Z.ltb_spec (len a + i) (len (a ++ u ++ c))); [|lia].
  rewrite Et'. cbn [bind] in *.
  destruct (fn =? 1).
  { destruct (expect_bytes wt "Network") eqn:Ex; try discriminate.
    cbn [bind] in *.
    destruct (read_string u (len u) j) as [[s p]| | |] eqn:Er; try discriminate.
    destruct (read_string_embed a u c j p s Er ltac:(lia) Hm) as (Er' & Hp).
    rewrite Er'. cbn [bind] in *.
    apply (IH _ _ _ f H); [lia|assumption|].
    eapply enough_next; [eassumption|lia]. }
  destruct (fn =? 2).
  { destruct (expect_bytes wt "Address") eqn:Ex; try discriminate.
    cbn [bind] in *.
    destruct (read_string u (len u) j) as [[s p]| | |] eqn:Er; try discriminate.
    destruct (read_string_embed a u c j p s Er ltac:(lia) Hm) as (Er' & Hp).
    rewrite Er'. cbn [bind] in *.
    apply (IH _ _ _ f H); [lia|assumption|].
    eapply enough_next; [eassumption|lia]. }
  destruct (skip_unknown u (len u) i) as [[s p]| | |] eqn:Er; try discriminate.
  destruct (skip_unknown_embed a u c i p s Er ltac:(lia) Hm) as (Er' & Hp).
  rewrite Er'. cbn [bind] in *.
  apply (IH _ _ _ f H); [lia|assumption|].
  eapply enough_next; [eassumption|lia].
Qed.

Lemma DialRequest_Unmarshal_loop_embed (a u c : list byte) (fuel : nat) :
  forall (m r : DialRequest) (i : Z) (fuel' : nat),
  DialRequest_Unmarshal_loop fuel m u i = Ok r ->
  0 <= i -> len (a ++ u ++ c) <= MaxInt ->
  enough fuel' (a ++ u ++ c) (len a + i) ->
  exists fuel'', enough fuel'' (a ++ u ++ c) (len a + len u)
    /\ DialRequest_Unmarshal_loop fuel' m (a ++ u ++ c) (len a + i)
       = DialRequest_Unmarshal_loop fuel'' r (a ++ u ++ c) (len a + len u).
Proof.
  pose proof (len_nonneg a) as Ha. pose proof (len_nonneg c) as Hc.
  pose proof (len_nonneg u) as Hu.
  assert (len (a ++ u ++ c) = len a + len u + len c) as El
    by (rewrite !len_app; lia).
  induction fuel as [|fuel IH]; intros m r i fuel' H Hi Hm He; [discriminate|].
  cbn [DialRequest_Unmarshal_loop] in H. cbv zeta in H.
  destruct (Z.ltb_spec i (len u)) as [Hlt|Hge].
  2:{ apply finish_inv in H as (-> & Hle).
      replace i with (len u) in * by lia. eauto. }
  destruct (enough_S _ _ _ He) as (f & ->); [lia|].
  destruct (read_tag "DialRequest" u (len u) i) as [[[fn wt] j]| | |] eqn:Et;
    try discriminate.
  destruct (read_tag_embed "DialRequest" a u c fn wt i j (len (a ++ u ++ c))
              Et Hi ltac:(lia)) as (Et' & Hj).
  cbn [DialRequest_Unmarshal_loop]. cbv zeta.
  destruct (Z.ltb_spec (len a + i) (len (a ++ u ++ c))); [|lia].
  rewrite Et'. cbn [bind] in *.
  destruct (fn =? 1).
  { destruct (expect_bytes wt "ServerID") eqn:Ex; try discriminate.
    cbn [bind] in *.
    destruct (read_string u (len u) j) as [[s p]| | |] eqn:Er; try discriminate.
    destruct (read_string_embed a u c j p s Er ltac:(lia) Hm) as (Er' & Hp).
    rewrite Er'. cbn [bind] in *.
    apply (IH _ _ _ f H); [lia|assumption|].
    eapply enough_next; [eassumption|lia]. }
  destruct (fn =? 2).
  { destruct (expect_bytes wt "ConnType") eqn:Ex; try discriminate.
    cbn [bind] in *.
    destruct (read_string u (len u) j) as [[s p]| | |] eqn:Er; try discriminate.
    destruct (read_string_embed a u c j p s Er ltac:(lia) Hm) as (Er' & Hp).
    rewrite Er'. cbn [bind] in *.
    apply (IH _ _ _ f H); [lia|assumption|].
    eapply enough_next; [eassumption|lia]. }
  destruct (fn =? 3).
  { destruct (expect_bytes wt "To") eqn:Ex; try discriminate.
    cbn [bind] in *.
    destruct (read_bytes u (len u) j) as [[s p]| | |] eqn:Er; try discriminate.
    destruct (read_bytes_embed a u c j p s Er ltac:(lia) Hm) as (Er' & Hp).
    rewrite Er'. cbn [bind] in *.
    destruct (Addr_Unmarshal _ s) as [to| | |]; try discriminate.
    cbn [bind] in *.
    apply (IH _ _ _ f H); [lia|assumption|].
    eapply enough_next; [eassumption|lia]. }
  destruct (skip_unknown u (len u) i) as [[s p]| | |] eqn:Er; try discriminate.
  destruct (skip_unknown_embed a u c i p s Er ltac:(lia) Hm) as (Er' & Hp).
  rewrite Er'. cbn [bind] in *.
  apply (IH _ _ _ f H); [lia|assumption|].
  eapply enough_next; [eassumption|lia].
Qed.

Lemma Data_Unmarshal_loop_embed (a u c : list byte) (fuel : nat) :
  forall (m r : Data) (i : Z) (fuel' : nat),
  Data_Unmarshal_loop fuel m u i = Ok r ->
  0 <= i -> len (a ++ u ++ c) <= MaxInt ->
  enough fuel' (a ++ u ++ c) (len a + i) ->
  exists fuel'', enough fuel'' (a ++ u ++ c) (len a + len u)
    /\ Data_Unmarshal_loop fuel' m (a ++ u ++ c) (len a + i)
       = Data_Unmarshal_loop fuel'' r (a ++ u ++ c) (len a + len u).
Proof.
  pose proof (len_nonneg a) as Ha. pose proof (len_nonneg c) as Hc.
  pose proof (len_nonneg u) as Hu.
  assert (len (a ++ u ++ c) = len a + len u + len c) as El
    by (rewrite !len_app; lia).
  induction fuel as [|fuel IH]; intros m r i fuel' H Hi Hm He; [discriminate|].
  cbn [Data_Unmarshal_loop] in H. cbv zeta in H.
  destruct (Z.ltb_spec i (len u)) as [Hlt|Hge].
  2:{ apply finish_inv in H as (-> & Hle).
      replace i with (len u) in * by lia. eauto. }
  destruct (enough_S _ _ _ He) as (f & ->); [lia|].
  destruct (read_tag "Data" u (len u) i) as [[[fn wt] j]| | |] eqn:Et;
    try discriminate.
  destruct (read_tag_embed "Data" a u c fn wt i j (len (a ++ u ++ c))
              Et Hi ltac:(lia)) as (Et' & Hj).
  cbn [Data_Unmarshal_loop]. cbv zeta.
  destruct (Z.ltb_spec (len a + i) (len (a ++ u ++ c))); [|lia].
  rewrite Et'. cbn [bind] in *.
  destruct (fn =? 1).
  { destruct (expect_bytes wt "Bytes") eqn:Ex; try discriminate.
    cbn [bind] in *.
    destruct (read_bytes u (len u) j) as [[s p]| | |] eqn:Er; try discriminate.
    destruct (read_bytes_embed a u c j p s Er ltac:(lia) Hm) as (Er' & Hp).
    rewrite Er'. cbn [bind] in *.
    apply (IH _ _ _ f H); [lia|assumption|].
    eapply enough_next; [eassumption|lia]. }
  destruct (skip_unknown u (len u) i) as [[s p]| | |] eqn:Er; try discriminate.
  destruct (skip_unknown_embed a u c i p s Er ltac:(lia) Hm) as (Er' & Hp).
  rewrite Er'. cbn [bind] in *.
  apply (IH _ _ _ f H); [lia|assumption|].
  eapply enough_next; [eassumption|lia].
Qed.

Lemma Frame_Unmarshal_loop_embed (a u c : list byte) (fuel : nat) :
  forall (m r : Frame) (i : Z) (fuel' : nat),
  Frame_Unmarshal_loop fuel m u i = Ok r ->
  0 <= i -> len (a ++ u ++ c) <= MaxInt ->
  enough fuel' (a ++ u ++ c) (len a + i) ->
  exists fuel'', enough fuel'' (a ++ u ++ c) (len a + len u)
    /\ Frame_Unmarshal_loop fuel' m (a ++ u ++ c) (len a + i)
       = Frame_Unmarshal_loop fuel'' r (a ++ u ++ c) (len a + len u).
Proof.
  pose proof (len_nonneg a) as Ha. pose proof (len_nonneg c) as Hc.
  pose proof (len_nonneg u) as Hu.
  assert (len (a ++ u ++ c) = len a + len u + len c) as El
    by (rewrite !len_app; lia).
  induction fuel as [|fuel IH]; intros m r i fuel' H Hi Hm He; [discriminate|].
  cbn [Frame_Unmarshal_loop] in H. cbv zeta in H.
  destruct (Z.ltb_spec i (len u)) as [Hlt|Hge].
  2:{ apply finish_inv in H as (-> & Hle).
      replace i with (len u) in * by lia. eauto. }
  destruct (enough_S _ _ _ He) as (f & ->); [lia|].
  destruct (read_tag "Frame" u (len u) i) as [[[fn wt] j]| | |] eqn:Et;
    try discriminate.
  destruct (read_tag_embed "Frame" a u c fn wt i j (len (a ++ u ++ c))
              Et Hi ltac:(lia)) as (Et' & Hj).
  cbn [Frame_Unmarshal_loop]. cbv zeta.
  destruct (Z.ltb_spec (len a + i) (len (a ++ u ++ c))); [|lia].
  rewrite Et'. cbn [bind] in *.
  destruct (fn =? 1).
  { destruct (expect_bytes wt "DialRequest") eqn:Ex; try discriminate.
    cbn [bind] in *.
    destruct (read_bytes u (len u) j) as [[s p]| | |] eqn:Er; try discriminate.
    destruct (read_bytes_embed a u c j p s Er ltac:(lia) Hm) as (Er' & Hp).
    rewrite Er'. cbn [bind] in *.
    destruct (DialRequest_Unmarshal _ s) as [v| | |]; try discriminate.
    cbn [bind] in *.
    apply (IH _ _ _ f H); [lia|assumption|].
    eapply enough_next; [eassumption|lia]. }
  destruct (fn =? 2).
  { destruct (expect_bytes wt "Data") eqn:Ex; try discriminate.
    cbn [bind] in *.
    destruct (read_bytes u (len u) j) as [[s p]| | |] eqn:Er; try discriminate.
    destruct (read_bytes_embed a u c j p s Er ltac:(lia) Hm) as (Er' & Hp).
    rewrite Er'. cbn [bind] in *.
    destruct (Data_Unmarshal _ s) as [v| | |]; try discriminate.
    cbn [bind] in *.
    apply (IH _ _ _ f H); [lia|assumption|].
    eapply enough_next; [eassumption|lia]. }
  destruct (skip_unknown u (len u) i) as [[s p]| | |] eqn:Er; try discriminate.
  destruct (skip_unknown_embed a u c i p s Er ltac:(lia) Hm) as (Er' & Hp).
  rewrite Er'. cbn [bind] in *.
  apply (IH _ _ _ f H); [lia|assumption|].
  eapply enough_next; [eassumption|lia].
Qed.

(* ------------------------------------------------------------------ *)
(** ** Unmarshal of two buffers, one after the other *)

Lemma Addr_Unmarshal_app (m m1 m2 : Addr) (b1 b2 : list byte) :
  Addr_Unmarshal m b1 = Ok m1 -> Addr_Unmarshal m1 b2 = Ok m2 ->
  len (b1 ++ b2) <= MaxInt ->
  Addr_Unmarshal m (b1 ++ b2) = Ok m2.
Proof.
  unfold Addr_Unmarshal. intros H1 H2 Hm.
  assert (b1 ++ b2 = [] ++ b1 ++ b2) as E1 by reflexivity.
  assert (b1 ++ b2 = b1 ++ b2 ++ []) as E2 by (now rewrite app_nil_r).
  destruct (Addr_Unmarshal_loop_embed [] b1 b2 _ m m1 0 (S (length (b1 ++ b2)))
              H1 ltac:(lia) Hm (enough_init _)) as (f1 & He1 & E).
  cbn [app] in E, He1. change (len (@nil byte)) with 0 in E, He1.
  rewrite !Z.add_0_l in *. rewrite E.
  rewrite E2 in Hm, He1 |- *.
  replace (len b1) with (len b1 + 0) in He1 |- * by lia.
  destruct (Addr_Unmarshal_loop_embed b1 b2 [] _ m1 m2 0 f1
              H2 ltac:(lia) Hm He1) as (f2 & He2 & E').
  rewrite E'.
  replace (len b1 + len b2) with (len (b1 ++ b2 ++ [])) in *
    by (rewrite !len_app; change (len (@nil byte)) with 0; lia).
  apply Addr_Unmarshal_loop_end. exact He2.
Qed.

Lemma DialRequest_Unmarshal_app (m m1 m2 : DialRequest) (b1 b2 : list byte) :
  DialRequest_Unmarshal m b1 = Ok m1 -> DialRequest_Unmarshal m1 b2 = Ok m2 ->
  len (b1 ++ b2) <= MaxInt ->
  DialRequest_Unmarshal m (b1 ++ b2) = Ok m2.
Proof.
  unfold DialRequest_Unmarshal. intros H1 H2 Hm.
  assert (b1 ++ b2 = [] ++ b1 ++ b2) as E1 by reflexivity.
  assert (b1 ++ b2 = b1 ++ b2 ++ []) as E2 by (now rewrite app_nil_r).
  destruct (DialRequest_Unmarshal_loop_embed [] b1 b2 _ m m1 0
              (S (length (b1 ++ b2))) H1 ltac:(lia) Hm (enough_init _))
    as (f1 & He1 & E).
  cbn [app] in E, He1. change (len (@nil byte)) with 0 in E, He1.
  rewrite !Z.add_0_l in *. rewrite E.
  rewrite E2 in Hm, He1 |- *.
  replace (len b1) with (len b1 + 0) in He1 |- * by lia.
  destruct (DialRequest_Unmarshal_loop_embed b1 b2 [] _ m1 m2 0 f1
              H2 ltac:(lia) Hm He1) as (f2 & He2 & E').
  rewrite E'.
  replace (len b1 + len b2) with (len (b1 ++ b2 ++ [])) in *
    by (rewrite !len_app; change (len (@nil byte)) with 0; lia).
  apply DialRequest_Unmarshal_loop_end. exact He2.
Qed.

Lemma Data_Unmarshal_app (m m1 m2 : Data) (b1 b2 : list byte) :
  Data_Unmarshal m b1 = Ok m1 -> Data_Unmarshal m1 b2 = Ok m2 ->
  len (b1 ++ b2) <= MaxInt ->
  Data_Unmarshal m (b1 ++ b2) = Ok m2.
Proof.
  unfold Data_Unmarshal. intros H1 H2 Hm.
  assert (b1 ++ b2 = [] ++ b1 ++ b2) as E1 by reflexivity.
  assert (b1 ++ b2 = b1 ++ b2 ++ []) as E2 by (now rewrite app_nil_r).
  destruct (Data_Unmarshal_loop_embed [] b1 b2 _ m m1 0 (S (length (b1 ++ b2)))
              H1 ltac:(lia) Hm (enough_init _)) as (f1 & He1 & E).
  cbn [app] in E, He1. change (len (@nil byte)) with 0 in E, He1.
  rewrite !Z.add_0_l in *. rewrite E.
  rewrite E2 in Hm, He1 |- *.
  replace (len b1) with (len b1 + 0) in He1 |- * by lia.
  destruct (Data_Unmarshal_loop_embed b1 b2 [] _ m1 m2 0 f1
              H2 ltac:(lia) Hm He1) as (f2 & He2 & E').
  rewrite E'.
  replace (len b1 + len b2) with (len (b1 ++ b2 ++ [])) in *
    by (rewrite !len_app; change (len (@nil byte)) with 0; lia).
  apply Data_Unmarshal_loop_end. exact He2.
Qed.

Lemma Frame_Unmarshal_app (m m1 m2 : Frame) (b1 b2 : list byte) :
  Frame_Unmarshal m b1 = Ok m1 -> Frame_Unmarshal m1 b2 = Ok m2 ->
  len (b1 ++ b2) <= MaxInt ->
  Frame_Unmarshal m (b1 ++ b2) = Ok m2.
Proof.
  unfold Frame_Unmarshal. intros H1 H2 Hm.
  assert (b1 ++ b2 = [] ++ b1 ++ b2) as E1 by reflexivity.
  assert (b1 ++ b2 = b1 ++ b2 ++ []) as E2 by (now rewrite app_nil_r).
  destruct (Frame_Unmarshal_loop_embed [] b1 b2 _ m m1 0 (S (length (b1 ++ b2)))
              H1 ltac:(lia) Hm (enough_init _)) as (f1 & He1 & E).
  cbn [app] in E, He1. change (len (@nil byte)) with 0 in E, He1.
  rewrite !Z.add_0_l in *. rewrite E.
  rewrite E2 in Hm, He1 |- *.
  replace (len b1) with (len b1 + 0) in He1 |- * by lia.
  destruct (Frame_Unmarshal_loop_embed b1 b2 [] _ m1 m2 0 f1
              H2 ltac:(lia) Hm He1) as (f2 & He2 & E').
  rewrite E'.
  replace (len b1 + len b2) with (len (b1 ++ b2 ++ [])) in *
    by (rewrite !len_app; change (len (@nil byte)) with 0; lia).
  apply Frame_Unmarshal_loop_end. exact He2.
Qed.

(** X8.  Unmarshal of a Frame works through a buffer field by field and keeps
    no other state than the receiver: when Unmarshal of [b1] into [m] gives
    [m1] and Unmarshal of [b2] into [m1] gives [m2], Unmarshal of [b1]
    followed by [b2] into [m] gives [m2]. *)
Theorem Frame_Unmarshal_concatenation (m m1 m2 : Frame) (b1 b2 : list byte) :
  Frame_Unmarshal m b1 = Ok m1 -> Frame_Unmarshal m1 b2 = Ok m2 ->
  len (b1 ++ b2) <= MaxInt ->
  Frame_Unmarshal m (b1 ++ b2) = Ok m2.
Proof. apply Frame_Unmarshal_app. Qed.

Lemma Frame_Unmarshal_concatenation_witness :
  Frame_Unmarshal Frame_zero
    ([x12; x04; x0a; x02; x68; x69] ++ [x12; x03; x0a; x01; x21])
  = Ok (mkFrame (Some (Frame_Data (Some (mkData [x21] [])))) []).
Proof.
  apply (Frame_Unmarshal_concatenation Frame_zero scenario_data).
  - reflexivity.
  - reflexivity.
  - apply Z.leb_le. reflexivity.
Defined.

(** X9.  Unmarshal of a DialRequest, an Addr or a Data works through a buffer
    field by field in the same way: decoding [b1] into [m] and then [b2]
    into the result gives what decoding [b1] followed by [b2] into [m]
    gives. *)
Theorem Unmarshal_concatenation :
  (forall (m m1 m2 : DialRequest) (b1 b2 : list byte),
     DialRequest_Unmarshal m b1 = Ok m1 -> DialRequest_Unmarshal m1 b2 = Ok m2 ->
     len (b1 ++ b2) <= MaxInt ->
     DialRequest_Unmarshal m (b1 ++ b2) = Ok m2)
  /\ (forall (m m1 m2 : Addr) (b1 b2 : list byte),
     Addr_Unmarshal m b1 = Ok m1 -> Addr_Unmarshal m1 b2 = Ok m2 ->
     len (b1 ++ b2) <= MaxInt ->
     Addr_Unmarshal m (b1 ++ b2) = Ok m2)
  /\ (forall (m m1 m2 : Data) (b1 b2 : list byte),
     Data_Unmarshal m b1 = Ok m1 -> Data_Unmarshal m1 b2 = Ok m2 ->
     len (b1 ++ b2) <= MaxInt ->
     Data_Unmarshal m (b1 ++ b2) = Ok m2).
Proof.
  split; [exact DialRequest_Unmarshal_app|].
  split; [exact Addr_Unmarshal_app|exact Data_Unmarshal_app].
Qed.

Lemma Unmarshal_concatenation_witness :
  Addr_Unmarshal Addr_zero ([x0a; x03; x74; x63; x70] ++ [x12; x01; x3a])
  = Ok (mkAddr "tcp" ":" []).
Proof.
  destruct Unmarshal_concatenation as (_ & H & _).
  apply (H Addr_zero (mkAddr "tcp" "" [])).
  - reflexivity.
  - reflexivity.
  - apply Z.leb_le. reflexivity.
Defined.

(* ------------------------------------------------------------------ *)
(** ** Unmarshal into a receiver that is not empty *)

Lemma merge_string_back (old new : string) :
  (if 0 <? len (list_byte_of_string new)
   then string_of_list_byte (list_byte_of_string new) else old)
  = merge_string old new.
Proof.
  unfold merge_string, slen. rewrite string_of_list_byte_of_string. reflexivity.
Qed.

Lemma Addr_Unmarshal_merge (m x : Addr) :
  Addr_wf x -> len (Addr_wire x) <= MaxInt ->
  Addr_Unmarshal m (Addr_wire x) = Ok (Addr_merge m x).
Proof.
  intros Hwf Hm. unfold Addr_Unmarshal.
  assert (enough (S (length (Addr_wire x))) (Addr_wire x) (len (@nil byte))) as He0
    by (unfold enough, len; cbn [length]; lia).
  change 0 with (len (@nil byte)).
  destruct (Addr_step_Network _ m (list_byte_of_string (Network x))
              [] _ (Addr_wire x) eq_refl Hm He0)
    as (n1 & He1 & ->).
  change (len [] + len ?x) with (len ([] ++ x)) in *. cbn [app] in *.
  match goal with |- Addr_Unmarshal_loop _ ?m0 _ _ = _ =>
    destruct (Addr_step_Address n1 m0 (list_byte_of_string (Address x))
                _ _ (Addr_wire x) eq_refl Hm He1)
      as (n2 & He2 & ->)
  end.
  rewrite <- len_app in *.
  match goal with |- Addr_Unmarshal_loop _ ?m0 _ _ = _ =>
    destruct (Addr_steps_unknown _ Hwf n2 m0 _ [] (Addr_wire x)
                ltac:(unfold Addr_wire; now rewrite app_nil_r, <- app_assoc)
                Hm He2)
      as (n3 & He3 & ->)
  end.
  rewrite <- len_app in *. rewrite <- app_assoc in *.
  fold (Addr_wire x) in *. rewrite Addr_Unmarshal_loop_end by assumption.
  cbn [Network Address Addr_XXX_unrecognized].
  rewrite !merge_string_back. reflexivity.
Qed.

Lemma Data_Unmarshal_merge (m x : Data) :
  Data_wf x -> len (Data_wire x) <= MaxInt ->
  Data_Unmarshal m (Data_wire x) = Ok (Data_merge m x).
Proof.
  intros Hu Hm. unfold Data_Unmarshal.
  assert (enough (S (length (Data_wire x))) (Data_wire x) (len (@nil byte))) as He0
    by (unfold enough, len; cbn [length]; lia).
  change 0 with (len (@nil byte)).
  destruct (Data_step_Bytes _ m (Bytes x) [] _ (Data_wire x)
              eq_refl Hm He0) as (n1 & He1 & ->).
  change (len [] + len ?x) with (len ([] ++ x)) in *. cbn [app] in *.
  match goal with |- Data_Unmarshal_loop _ ?m0 _ _ = _ =>
    destruct (Data_steps_unknown _ Hu n1 m0 _ [] (Data_wire x)
                ltac:(unfold Data_wire; now rewrite app_nil_r)
                Hm He1)
      as (n2 & He2 & ->)
  end.
  rewrite <- len_app in *. fold (Data_wire x) in *.
  rewrite Data_Unmarshal_loop_end by assumption.
  reflexivity.
Qed.

(** The embedded Addr of a DialRequest is decoded into the Addr the
    receiver holds, or into a new one when it holds none. *)
Lemma DialRequest_step_To_merge (fuel : nat) (m : DialRequest) (x : Addr)
  (a c buf : list byte) :
  buf = a ++ wire_msg x1a (Addr_wire x) ++ c ->
  len buf <= MaxInt -> enough fuel buf (len a) -> Addr_wf x ->
  exists fuel', enough fuel' buf (len a + len (wire_msg x1a (Addr_wire x)))
    /\ DialRequest_Unmarshal_loop fuel m buf (len a)
       = DialRequest_Unmarshal_loop fuel'
           (mkDialRequest (ServerID m) (ConnType m)
              (Some (Addr_merge match To m with
                                | Some a0 => a0
                                | None => Addr_zero
                                end x))
              (DialRequest_XXX_unrecognized m))
           buf (len a + len (wire_msg x1a (Addr_wire x))).
Proof.
  intros -> Hm He Hwf.
  assert (len (Addr_wire x) <= MaxInt) as Hx.
  { pose proof (len_wire_msg_ge x1a (Addr_wire x)).
    pose proof (len_nonneg a). pose proof (len_nonneg c).
    rewrite !len_app in Hm. lia. }
  unfold wire_msg in *.
  destruct (field_at "DialRequest" x1a 3 (Addr_wire x) a c _ ltac:(cbn; lia)
              eq_refl eq_refl ltac:(lia) eq_refl Hm) as (Hlt & Ht & _ & Hs & Hr).
  destruct (enough_S _ _ _ He) as (f & ->); [lia|].
  exists f. split; [eapply enough_next; [eassumption|lia]|].
  cbn [DialRequest_Unmarshal_loop].
  match goal with |- context [?i <? ?l] => destruct (Z.ltb_spec i l); [|lia] end.
  rewrite Ht. cbn [bind expect_bytes Z.eqb Pos.eqb negb]. rewrite Hs.
  cbn [bind]. rewrite Addr_Unmarshal_merge by assumption.
  reflexivity.
Qed.

Lemma DialRequest_Unmarshal_merge (m x : DialRequest) :
  DialRequest_wf x -> len (DialRequest_wire x) <= MaxInt ->
  DialRequest_Unmarshal m (DialRequest_wire x) = Ok (DialRequest_merge m x).
Proof.
  intros (Hu & Hto) Hm. unfold DialRequest_Unmarshal.
  pose proof (enough_init (DialRequest_wire x)) as He0.
  remember (DialRequest_wire x) as buf eqn:Eb.
  remember (wire_field x0a (list_byte_of_string (ServerID x))) as w1 eqn:E1.
  remember (wire_field x12 (list_byte_of_string (ConnType x))) as w2 eqn:E2.
  remember (match To x with
            | Some a => wire_msg x1a (Addr_wire a)
            | None => []
            end) as w3 eqn:E3.
  assert (buf = w1 ++ w2 ++ w3 ++ DialRequest_XXX_unrecognized x) as Eb'
    by (subst; reflexivity).
  clear Eb.
  (* ServerID *)
  destruct (DialRequest_step_ServerID (S (length buf)) m
              (list_byte_of_string (ServerID x)) []
              (w2 ++ w3 ++ DialRequest_XXX_unrecognized x) buf)
    as (n1 & He1 & Es1); [now rewrite Eb', E1|assumption|exact He0|].
  rewrite <- E1 in He1, Es1.
  change (len [] + len w1) with (len w1) in He1, Es1.
  change (len (@nil byte)) with 0 in Es1. rewrite Es1. clear Es1.
  (* ConnType *)
  match goal with |- DialRequest_Unmarshal_loop _ ?m0 _ _ = _ =>
    destruct (DialRequest_step_ConnType n1 m0
                (list_byte_of_string (ConnType x)) w1
                (w3 ++ DialRequest_XXX_unrecognized x) buf)
      as (n2 & He2 & Es2); [now rewrite Eb', E2|assumption|exact He1|]
  end.
  rewrite <- E2 in He2, Es2. rewrite <- len_app in He2, Es2.
  rewrite Es2. clear Es2.
  cbn [ServerID ConnType To DialRequest_XXX_unrecognized].
  (* To *)
  assert (exists n3,
    enough n3 buf (len ((w1 ++ w2) ++ w3))
    /\ DialRequest_Unmarshal_loop n2
         (mkDialRequest
            (if 0 <? len (list_byte_of_string (ServerID x))
             then string_of_list_byte (list_byte_of_string (ServerID x))
             else ServerID m)
            (if 0 <? len (list_byte_of_string (ConnType x))
             then string_of_list_byte (list_byte_of_string (ConnType x))
             else ConnType m)
            (To m) (DialRequest_XXX_unrecognized m))
         buf (len (w1 ++ w2))
       = DialRequest_Unmarshal_loop n3
           (mkDialRequest
              (if 0 <? len (list_byte_of_string (ServerID x))
               then string_of_list_byte (list_byte_of_string (ServerID x))
               else ServerID m)
              (if 0 <? len (list_byte_of_string (ConnType x))
               then string_of_list_byte (list_byte_of_string (ConnType x))
               else ConnType m)
              match To x with
              | Some a => Some (Addr_merge match To m with
                                           | Some a0 => a0
                                           | None => Addr_zero
                                           end a)
              | None => To m
              end
              (DialRequest_XXX_unrecognized m))
           buf (len ((w1 ++ w2) ++ w3))) as (n3 & He3 & Es3).
  { destruct (To x) as [t|] eqn:Et.
    - match goal with |- exists _, _ /\ DialRequest_Unmarshal_loop _ ?m0 _ _ = _ =>
        destruct (DialRequest_step_To_merge n2 m0 t (w1 ++ w2)
                    (DialRequest_XXX_unrecognized x) buf)
          as (n3 & He3 & Es3);
          [rewrite Eb', E3; now rewrite <- app_assoc|assumption|exact He2|exact Hto|]
      end.
      rewrite <- E3 in He3, Es3. rewrite <- len_app in He3, Es3.
      exists n3. split; [exact He3|exact Es3].
    - exists n2. rewrite E3, app_nil_r. auto. }
  rewrite Es3. clear Es3.
  (* unrecognized *)
  match goal with |- DialRequest_Unmarshal_loop _ ?m0 _ _ = _ =>
    destruct (DialRequest_steps_unknown _ Hu n3 m0 ((w1 ++ w2) ++ w3) [] buf)
      as (n4 & He4 & Es4);
      [rewrite Eb', app_nil_r; now rewrite <- !app_assoc|assumption|exact He3|]
  end.
  rewrite Es4. clear Es4.
  assert (len ((w1 ++ w2) ++ w3) + len (DialRequest_XXX_unrecognized x) = len buf)
    as El by (rewrite Eb', !len_app; lia).
  rewrite El in *.
  rewrite DialRequest_Unmarshal_loop_end by assumption.
  cbn [ServerID ConnType To DialRequest_XXX_unrecognized].
  rewrite !merge_string_back. reflexivity.
Qed.

Lemma Frame_Unmarshal_merge (m x : Frame) :
  Frame_wf x -> len (Frame_wire x) <= MaxInt ->
  Frame_Unmarshal m (Frame_wire x) = Ok (Frame_merge m x).
Proof.
  intros (Hu & Hmsg) Hm. unfold Frame_Unmarshal.
  assert (enough (S (length (Frame_wire x))) (Frame_wire x) (len (@nil byte))) as He0
    by (unfold enough, len; cbn [length]; lia).
  assert (exists n1,
    enough n1 (Frame_wire x)
      (len (match Message x with
            | Some v => isFrame_Message_wire v
            | None => []
            end))
    /\ Frame_Unmarshal_loop (S (length (Frame_wire x))) m (Frame_wire x) 0
       = Frame_Unmarshal_loop n1
           (mkFrame match Message x with
                    | Some v => Some v
                    | None => Message m
                    end (Frame_XXX_unrecognized m))
           (Frame_wire x)
           (len (match Message x with
                 | Some v => isFrame_Message_wire v
                 | None => []
                 end))) as (n1 & He1 & ->).
  { destruct (Message x) as [[[d|]|[d|]]|] eqn:Ex; try contradiction.
    - destruct (Frame_step_DialRequest _ m d [] (Frame_XXX_unrecognized x)
                  (Frame_wire x)
                  ltac:(unfold Frame_wire; now rewrite Ex) Hm He0 Hmsg)
        as (n1 & He1 & E1).
      exists n1. split; [exact He1|exact E1].
    - destruct (Frame_step_Data _ m d [] (Frame_XXX_unrecognized x)
                  (Frame_wire x)
                  ltac:(unfold Frame_wire; now rewrite Ex) Hm He0 Hmsg)
        as (n1 & He1 & E1).
      exists n1. split; [exact He1|exact E1].
    - exists (S (length (Frame_wire x))). split; [exact He0|].
      destruct m; reflexivity. }
  match goal with |- Frame_Unmarshal_loop _ ?m0 _ _ = _ =>
    destruct (Frame_steps_unknown _ Hu n1 m0 _ []
                (Frame_wire x)
                ltac:(unfold Frame_wire; now rewrite app_nil_r) Hm He1)
      as (n2 & He2 & ->)
  end.
  rewrite <- len_app in *. fold (Frame_wire x) in *.
  rewrite Frame_Unmarshal_loop_end by assumption.
  reflexivity.
Qed.

(** X10.  Unmarshal does not reset its receiver.  Decoding the encoding of a
    well-formed Frame [x] into a receiver [m] replaces the Message of [m]
    by the one of [x] when [x] has one, whatever variant [m] held, and
    leaves it as it was when [x] has none; the unrecognized bytes of [x]
    are appended to those of [m]. *)
Theorem Frame_Unmarshal_replaces_Message (m x : Frame) (w : list byte) :
  Frame_wf x -> Frame_Marshal x = Ok w ->
  Frame_Unmarshal m w
  = Ok (mkFrame match Message x with
                | Some v => Some v
                | None => Message m
                end
                (Frame_XXX_unrecognized m ++ Frame_XXX_unrecognized x)).
Proof.
  intros Hwf H. destruct (Frame_Marshal_inv x w H) as (-> & Hl).
  apply Frame_Unmarshal_merge; assumption.
Qed.

Lemma Frame_Unmarshal_replaces_Message_witness :
  Frame_Unmarshal scenario_frame [x12; x04; x0a; x02; x68; x69]
  = Ok scenario_data.
Proof.
  assert (Frame_plain scenario_data) as H by (vm_compute; repeat split).
  apply (Frame_Unmarshal_replaces_Message scenario_frame scenario_data
           [x12; x04; x0a; x02; x68; x69] (Frame_plain_wf _ H)).
  reflexivity.
Defined.

Lemma DialRequest_Marshal_inv (m : DialRequest) (w : list byte) :
  DialRequest_Marshal m = Ok w -> w = DialRequest_wire m /\ len w <= MaxInt.
Proof.
  intros H.
  destruct (marshal_with_inv _ DialRequest_wire _ m w
              (DialRequest_writes_back m) H) as (-> & Hs & _).
  split; [reflexivity|].
  unfold DialRequest_Marshal, marshal_with, make in H.
  destruct (Z.leb_spec 0 (DialRequest_Size m)); [|discriminate].
  destruct (Z.leb_spec (DialRequest_Size m) MaxInt); [|discriminate]. lia.
Qed.

Lemma Addr_Marshal_inv (m : Addr) (w : list byte) :
  Addr_Marshal m = Ok w -> w = Addr_wire m /\ len w <= MaxInt.
Proof.
  intros H.
  destruct (marshal_with_inv _ Addr_wire _ m w (Addr_writes_back m) H)
    as (-> & Hs & _).
  split; [reflexivity|].
  unfold Addr_Marshal, marshal_with, make in H.
  destruct (Z.leb_spec 0 (Addr_Size m)); [|discriminate].
  destruct (Z.leb_spec (Addr_Size m) MaxInt); [|discriminate]. lia.
Qed.

Lemma Data_Marshal_inv (m : Data) (w : list byte) :
  Data_Marshal m = Ok w -> w = Data_wire m /\ len w <= MaxInt.
Proof.
  intros H.
  destruct (marshal_with_inv _ Data_wire _ m w (Data_writes_back m) H)
    as (-> & Hs & _).
  split; [reflexivity|].
  unfold Data_Marshal, marshal_with, make in H.
  destruct (Z.leb_spec 0 (Data_Size m)); [|discriminate].
  destruct (Z.leb_spec (Data_Size m) MaxInt); [|discriminate]. lia.
Qed.

(** X11.  Decoding the encoding of a well-formed DialRequest, Addr or Data [x]
    into a receiver [m] merges [x] into [m]: a string or bytes field of [x]
    that is not empty replaces the one of [m], an empty one leaves it; the
    Addr of [x] is merged in the same way into the Addr [m] holds, or into
    an empty one; unrecognized bytes are appended. *)
Theorem Unmarshal_merges_into_receiver :
  (forall (m x : DialRequest) (w : list byte),
     DialRequest_wf x -> DialRequest_Marshal x = Ok w ->
     DialRequest_Unmarshal m w = Ok (DialRequest_merge m x))
  /\ (forall (m x : Addr) (w : list byte),
     Addr_wf x -> Addr_Marshal x = Ok w ->
     Addr_Unmarshal m w = Ok (Addr_merge m x))
  /\ (forall (m x : Data) (w : list byte),
     Data_wf x -> Data_Marshal x = Ok w ->
     Data_Unmarshal m w = Ok (Data_merge m x)).
Proof.
  split; [|split]; intros m x w Hwf H.
  - destruct (DialRequest_Marshal_inv x w H) as (-> & Hl).
    apply DialRequest_Unmarshal_merge; assumption.
  - destruct (Addr_Marshal_inv x w H) as (-> & Hl).
    apply Addr_Unmarshal_merge; assumption.
  - destruct (Data_Marshal_inv x w H) as (-> & Hl).
    apply Data_Unmarshal_merge; assumption.
Qed.

Lemma Unmarshal_merges_into_receiver_witness :
  DialRequest_Unmarshal scenario_request
    [x0a; x01; x6e; x1a; x05; x12; x03; x3a; x38; x30]
  = Ok (mkDialRequest "n" "ssh" (Some (mkAddr "tcp" ":80" [])) []).
Proof.
  destruct Unmarshal_merges_into_receiver as (H & _).
  assert (DialRequest_plain (mkDialRequest "n" "" (Some (mkAddr "" ":80" [])) []))
    as Hp by (vm_compute; repeat split).
  apply (H scenario_request
           (mkDialRequest "n" "" (Some (mkAddr "" ":80" [])) []) _
           (DialRequest_plain_wf _ Hp)).
  reflexivity.
Defined.

(** X12.  Two encoded Frames, one after the other, decode without an error to
    one Frame: its Message is the one of the second Frame when that has
    one, and the unrecognized bytes of both are kept, in order. *)
Theorem decode_of_two_encodings (f1 f2 : Frame) (w1 w2 : list byte) :
  Frame_wf f1 -> Frame_wf f2 ->
  encode f1 = Ok w1 -> encode f2 = Ok w2 -> len (w1 ++ w2) <= MaxInt ->
  decode (w1 ++ w2)
  = Ok (mkFrame match Message f2 with
                | Some v => Some v
                | None => Message f1
                end
                (Frame_XXX_unrecognized f1 ++ Frame_XXX_unrecognized f2)).
Proof.
  intros H1 H2 E1 E2 Hl. unfold encode, decode in *.
  destruct (Frame_Marshal_inv f1 w1 E1) as (-> & Hl1).
  destruct (Frame_Marshal_inv f2 w2 E2) as (-> & Hl2).
  apply (Frame_Unmarshal_app Frame_zero f1); [|
    |exact Hl].
  - apply Frame_Unmarshal_wire; assumption.
  - apply Frame_Unmarshal_merge; assumption.
Qed.

Lemma decode_of_two_encodings_witness :
  decode ([x0a; x21; x0a; x06; x6e; x6f; x64; x65; x2d; x37; x12; x03; x73;
           x73; x68; x1a; x12; x0a; x03; x74; x63; x70; x12; x0b; x31; x30;
           x2e; x30; x2e; x30; x2e; x35; x3a; x32; x32]
          ++ [x12; x04; x0a; x02; x68; x69])
  = Ok scenario_data.
Proof.
  assert (Frame_plain scenario_frame) as H1 by (vm_compute; repeat split).
  assert (Frame_plain scenario_data) as H2 by (vm_compute; repeat split).
  apply (decode_of_two_encodings scenario_frame scenario_data _ _
           (Frame_plain_wf _ H1) (Frame_plain_wf _ H2)).
  - reflexivity.
  - reflexivity.
  - apply Z.leb_le. reflexivity.
Defined.

(* ------------------------------------------------------------------ *)
(** ** What was read does not depend on the bytes after it *)

Lemma index_restrict (u c : list byte) (i : Z) (b : byte) :
  index (u ++ c) i = Ok b -> i < len u -> index u i = Ok b.
Proof.
  intros H Hi. apply index_inv in H as (H0 & Hn). unfold index.
  destruct (Z.leb_spec 0 i); [|lia].
  destruct (Z.ltb_spec i (len u)); [|lia]. cbn [andb].
  rewrite nth_error_app1 in Hn by (unfold len in *; lia).
  rewrite Hn. reflexivity.
Qed.

Lemma varint_loop_restrict (wrap : Z -> Z) (u c : list byte) (fuel : nat) :
  forall (l shift x i v j : Z),
  varint_loop fuel wrap (u ++ c) l shift x i = Ok (v, j) -> j <= len u ->
  varint_loop fuel wrap u (len u) shift x i = Ok (v, j) /\ i < j.
Proof.
  induction fuel as [|fuel IH]; intros l shift x i v j H Hj; [discriminate|].
  rewrite varint_loop_S in *.
  destruct (Z.leb_spec 64 shift); [discriminate|].
  destruct (Z.leb_spec l i); [discriminate|].
  destruct (index (u ++ c) i) as [b| | |] eqn:E; try discriminate.
  cbn [bind] in H.
  destruct (Z.ltb_spec (b2z b) 128).
  - injection H as <- <-.
    destruct (Z.leb_spec (len u) i); [lia|].
    rewrite (index_restrict u c i b E) by lia. cbn [bind].
    destruct (Z.ltb_spec (b2z b) 128); [|lia]. split; [reflexivity|lia].
  - destruct (IH _ _ _ _ _ _ H Hj) as (E' & Hlt).
    destruct (Z.leb_spec (len u) i); [lia|].
    rewrite (index_restrict u c i b E) by lia. cbn [bind].
    destruct (Z.ltb_spec (b2z b) 128); [lia|]. split; [exact E'|lia].
Qed.

Lemma skip_varint_loop_restrict (u c : list byte) (fuel : nat) :
  forall (l shift i j : Z),
  skip_varint_loop fuel (u ++ c) l shift i = Ok j -> j <= len u ->
  skip_varint_loop fuel u (len u) shift i = Ok j /\ i < j.
Proof.
  induction fuel as [|fuel IH]; intros l shift i j H Hj; [discriminate|].
  rewrite skip_varint_loop_S in *. cbv zeta in *.
  destruct (Z.leb_spec 64 shift); [discriminate|].
  destruct (Z.leb_spec l i); [discriminate|].
  replace (i + 1 - 1) with i in * by lia.
  destruct (index (u ++ c) i) as [b| | |] eqn:E; try discriminate.
  cbn [bind] in H.
  destruct (Z.ltb_spec (b2z b) 128).
  - injection H as <-.
    destruct (Z.leb_spec (len u) i); [lia|].
    rewrite (index_restrict u c i b E) by lia. cbn [bind].
    destruct (Z.ltb_spec (b2z b) 128); [|lia]. split; [reflexivity|lia].
  - destruct (IH _ _ _ _ H Hj) as (E' & Hlt).
    destruct (Z.leb_spec (len u) i); [lia|].
    rewrite (index_restrict u c i b E) by lia. cbn [bind].
    destruct (Z.ltb_spec (b2z b) 128); [lia|]. split; [exact E'|lia].
Qed.

(** skipTunnel moves forward. *)
Lemma skipTunnel_loop_lt (d : list byte) (fuel : nat) :
  forall (i depth n : Z),
  skipTunnel_loop fuel d i depth = Ok n ->
  0 <= i -> len d <= MaxInt -> i < n.
Proof.
  induction fuel as [|fuel IH]; intros i depth n H Hi Hm; [discriminate|].
  rewrite skipTunnel_loop_S in H. cbv zeta in H.
  destruct (Z.ltb_spec i (len d)); [|discriminate].
  destruct (read_uvarint d (len d) i) as [[wire i1]| | |] eqn:E1;
    try discriminate.
  pose proof (read_uvarint_bounds d i wire i1 Hi E1) as H1.
  cbn [bind] in H.
  assert (forall i' dd, i < i' ->
            (if i' <? 0 then Err ErrInvalidLengthTunnel
             else if dd =? 0 then Ok i'
             else skipTunnel_loop fuel d i' dd) = Ok n -> i < n) as Hrest.
  { intros i' dd Hlt Hr. destruct (Z.ltb_spec i' 0); [discriminate|].
    destruct (dd =? 0); [injection Hr as <-; lia|].
    pose proof (IH _ _ _ Hr ltac:(lia) Hm). lia. }
  assert (forall i2 k dd, i < i2 <= len d -> 0 <= k <= MaxInt ->
            (if int (i2 + k) <? 0 then Err ErrInvalidLengthTunnel
             else if dd =? 0 then Ok (int (i2 + k))
             else skipTunnel_loop fuel d (int (i2 + k)) dd) = Ok n -> i < n)
    as Hadd.
  { intros i2 k dd H2 Hk Hr.
    destruct (Z.ltb_spec (int (i2 + k)) 0); [discriminate|].
    destruct (int_add_nonneg i2 k ltac:(lia) Hk ltac:(lia)) as (E & Hle).
    rewrite E in *. apply (Hrest (i2 + k) dd); [lia|].
    destruct (Z.ltb_spec (i2 + k) 0); [lia|exact Hr]. }
  destruct (Z.land wire 7 =? 0).
  { destruct (skip_varint_loop 11 d (len d) 0 i1) as [i2| | |] eqn:E2;
      try discriminate.
    pose proof (skip_varint_loop_safe d (len d) 11 0 i1 ltac:(lia) ltac:(lia)
                  ltac:(lia) ltac:(lia)) as H2.
    rewrite E2 in H2. cbn [safe] in H2. cbn [bind] in H.
    apply (Hrest i2 depth); [lia|exact H]. }
  destruct (Z.land wire 7 =? 1).
  { cbn [bind] in H. apply (Hadd i1 8 depth); [lia|unfold MaxInt; lia|exact H]. }
  destruct (Z.land wire 7 =? 2).
  { destruct (read_ivarint d (len d) i1) as [[length i2]| | |] eqn:E2;
      try discriminate.
    pose proof (read_ivarint_safe d (len d) i1 ltac:(lia) ltac:(lia)) as H2.
    rewrite E2 in H2. cbn [safe fst snd] in H2. cbn [bind] in H.
    destruct (Z.ltb_spec length 0); [discriminate|]. cbn [bind] in H.
    apply (Hadd i2 length depth); [lia|unfold MaxInt; lia|exact H]. }
  destruct (Z.land wire 7 =? 3).
  { cbn [bind] in H. apply (Hrest i1 (depth + 1)); [lia|exact H]. }
  destruct (Z.land wire 7 =? 4).
  { destruct (depth =? 0); [discriminate|]. cbn [bind] in H.
    apply (Hrest i1 (depth - 1)); [lia|exact H]. }
  destruct (Z.land wire 7 =? 5).
  { cbn [bind] in H. apply (Hadd i1 4 depth); [lia|unfold MaxInt; lia|exact H]. }
  discriminate.
Qed.

(** The bytes skipTunnel has skipped are all it has looked at. *)
Lemma skipTunnel_loop_restrict (u c : list byte) (fuel : nat) :
  forall (fuel' : nat) (i depth n : Z),
  skipTunnel_loop fuel (u ++ c) i depth = Ok n ->
  n <= len u -> 0 <= i -> len (u ++ c) <= MaxInt ->
  len u - i < Z.of_nat fuel' ->
  skipTunnel_loop fuel' u i depth = Ok n.
Proof.
  induction fuel as [|fuel IH]; intros fuel' i depth n H Hn Hi Hm Hf;
    [discriminate|].
  pose proof (skipTunnel_loop_lt _ _ _ _ _ H Hi Hm) as Hlt.
  destruct fuel' as [|f']; [lia|].
  rewrite skipTunnel_loop_S in *. cbv zeta in *.
  pose proof (len_nonneg c) as Hc. rewrite len_app in H, Hm.
  destruct (Z.ltb_spec i (len u + len c)); [|discriminate].
  destruct (Z.ltb_spec i (len u)); [|lia].
  destruct (read_uvarint (u ++ c) (len u + len c) i) as [[wire i1]| | |] eqn:E1;
    try discriminate.
  assert (i < i1 <= len u + len c) as Hb1.
  { pose proof (read_uvarint_safe (u ++ c) (len u + len c) i
                  ltac:(rewrite len_app; lia) Hi) as Hs.
    rewrite E1 in Hs. exact Hs. }
  cbn [bind] in H.
  (* the end of a turn *)
  assert (forall i' dd, i1 <= i' ->
            (if i' <? 0 then Err ErrInvalidLengthTunnel
             else if dd =? 0 then Ok i'
             else skipTunnel_loop fuel (u ++ c) i' dd) = Ok n ->
            i' <= n
            /\ (if i' <? 0 then Err ErrInvalidLengthTunnel
                else if dd =? 0 then Ok i'
                else skipTunnel_loop f' u i' dd) = Ok n) as Hrest.
  { intros i' dd Hle Hr. destruct (Z.ltb_spec i' 0); [discriminate|].
    destruct (dd =? 0); [injection Hr as <-; split; [lia|reflexivity]|].
    pose proof (skipTunnel_loop_lt _ _ _ _ _ Hr ltac:(lia)
                  ltac:(rewrite len_app; lia)).
    split; [lia|]. apply IH; try assumption; try lia.
    rewrite len_app; lia. }
  assert (forall i2 k dd, i1 <= i2 <= len u + len c -> 0 <= k <= MaxInt ->
            (if int (i2 + k) <? 0 then Err ErrInvalidLengthTunnel
             else if dd =? 0 then Ok (int (i2 + k))
             else skipTunnel_loop fuel (u ++ c) (int (i2 + k)) dd) = Ok n ->
            i2 <= n
            /\ (if int (i2 + k) <? 0 then Err ErrInvalidLengthTunnel
                else if dd =? 0 then Ok (int (i2 + k))
                else skipTunnel_loop f' u (int (i2 + k)) dd) = Ok n) as Hadd.
  { intros i2 k dd H2 Hk Hr.
    destruct (Z.ltb_spec (int (i2 + k)) 0); [discriminate|].
    destruct (int_add_nonneg i2 k ltac:(lia) Hk ltac:(lia)) as (E & Hle).
    rewrite E in *.
    destruct (Hrest (i2 + k) dd ltac:(lia)) as (Hle' & Hr').
    - destruct (Z.ltb_spec (i2 + k) 0); [lia|exact Hr].
    - split; [lia|].
      destruct (Z.ltb_spec (i2 + k) 0); [lia|exact Hr']. }
  destruct (Z.land wire 7 =? 0) eqn:W0.
  { destruct (skip_varint_loop 11 (u ++ c) (len u + len c) 0 i1) as [i2| | |]
      eqn:E2; try discriminate.
    cbn [bind] in H.
    pose proof (skip_varint_loop_safe (u ++ c) (len u + len c) 11 0 i1
                  ltac:(rewrite len_app; lia) ltac:(lia) ltac:(lia) ltac:(lia))
      as H2.
    rewrite E2 in H2. cbn [safe] in H2.
    destruct (Hrest i2 depth ltac:(lia) H) as (Hle & Hr).
    destruct (skip_varint_loop_restrict u c 11 _ 0 i1 i2 E2 ltac:(lia))
      as (E2' & _).
    destruct (varint_loop_restrict uint64 u c 11 _ 0 0 i wire i1 E1 ltac:(lia))
      as (E1' & _).
    unfold read_uvarint. rewrite E1'. cbn [bind]. rewrite W0.
    rewrite E2'. cbn [bind]. exact Hr. }
  destruct (Z.land wire 7 =? 1) eqn:W1.
  { cbn [bind] in H.
    destruct (Hadd i1 8 depth ltac:(lia) ltac:(unfold MaxInt; lia) H)
      as (Hle & Hr).
    destruct (varint_loop_restrict uint64 u c 11 _ 0 0 i wire i1 E1 ltac:(lia))
      as (E1' & _).
    unfold read_uvarint. rewrite E1'. cbn [bind]. rewrite W0, W1.
    cbn [bind]. exact Hr. }
  destruct (Z.land wire 7 =? 2) eqn:W2.
  { destruct (read_ivarint (u ++ c) (len u + len c) i1) as [[length i2]| | |]
      eqn:E2; try discriminate.
    pose proof (read_ivarint_safe (u ++ c) (len u + len c) i1
                  ltac:(rewrite len_app; lia) ltac:(lia)) as H2.
    rewrite E2 in H2. cbn [safe fst snd] in H2. cbn [bind] in H.
    destruct (Z.ltb_spec length 0); [discriminate|]. cbn [bind] in H.
    destruct (Hadd i2 length depth ltac:(lia) ltac:(unfold MaxInt; lia) H)
      as (Hle & Hr).
    destruct (varint_loop_restrict uint64 u c 11 _ 0 0 i wire i1 E1 ltac:(lia))
      as (E1' & _).
    destruct (varint_loop_restrict int u c 11 _ 0 0 i1 length i2 E2 ltac:(lia))
      as (E2' & _).
    unfold read_uvarint, read_ivarint. rewrite E1'. cbn [bind].
    rewrite W0, W1, W2. rewrite E2'. cbn [bind].
    destruct (Z.ltb_spec length 0); [lia|]. cbn [bind]. exact Hr. }
  destruct (Z.land wire 7 =? 3) eqn:W3.
  { cbn [bind] in H.
    destruct (Hrest i1 (depth + 1) ltac:(lia) H) as (Hle & Hr).
    destruct (varint_loop_restrict uint64 u c 11 _ 0 0 i wire i1 E1 ltac:(lia))
      as (E1' & _).
    unfold read_uvarint. rewrite E1'. cbn [bind]. rewrite W0, W1, W2, W3.
    cbn [bind]. exact Hr. }
  destruct (Z.land wire 7 =? 4) eqn:W4.
  { destruct (depth =? 0) eqn:D0; [discriminate|]. cbn [bind] in H.
    destruct (Hrest i1 (depth - 1) ltac:(lia) H) as (Hle & Hr).
    destruct (varint_loop_restrict uint64 u c 11 _ 0 0 i wire i1 E1 ltac:(lia))
      as (E1' & _).
    unfold read_uvarint. rewrite E1'. cbn [bind].
    rewrite W0, W1, W2, W3, W4. cbn [bind]. exact Hr. }
  destruct (Z.land wire 7 =? 5) eqn:W5.
  { cbn [bind] in H.
    destruct (Hadd i1 4 depth ltac:(lia) ltac:(unfold MaxInt; lia) H)
      as (Hle & Hr).
    destruct (varint_loop_restrict uint64 u c 11 _ 0 0 i wire i1 E1 ltac:(lia))
      as (E1' & _).
    unfold read_uvarint. rewrite E1'. cbn [bind].
    rewrite W0, W1, W2, W3, W4, W5. cbn [bind]. exact Hr. }
  discriminate.
Qed.

Lemma skipTunnel_restrict (s rest : list byte) :
  skipTunnel (s ++ rest) = Ok (len s) -> len (s ++ rest) <= MaxInt ->
  skipTunnel s = Ok (len s).
Proof.
  unfold skipTunnel. intros H Hm.
  apply (skipTunnel_loop_restrict s rest _ _ _ _ _ H); try lia.
  unfold len. lia.
Qed.

Lemma app_len_inj {A : Type} (a b x y : list A) :
  a ++ x = b ++ y -> len a = len b -> a = b /\ x = y.
Proof.
  revert b. induction a as [|h a IH]; intros [|k b] E Hl.
  - auto.
  - rewrite len_cons in Hl. change (len (@nil A)) with 0 in Hl.
    pose proof (len_nonneg b). lia.
  - rewrite len_cons in Hl. change (len (@nil A)) with 0 in Hl.
    pose proof (len_nonneg a). lia.
  - cbn [app] in E. injection E as -> E. rewrite !len_cons in Hl.
    destruct (IH b E ltac:(lia)) as (-> & ->). auto.
Qed.

(** The bytes the default branch of an Unmarshal loop appends to
    XXX_unrecognized are one well-formed unknown field. *)
Lemma skip_unknown_is_unknown_field (known : Z -> bool) (msg : string)
  (dAtA : list byte) (pre fn wt i j : Z) (s : list byte) :
  len dAtA <= MaxInt -> 0 <= pre < len dAtA ->
  read_tag msg dAtA (len dAtA) pre = Ok (fn, wt, i) -> known fn = false ->
  skip_unknown dAtA (len dAtA) pre = Ok (s, j) ->
  unknown_field known s = true.
Proof.
  intros Hm Hp Ht Hk H. unfold skip_unknown in H. cbv zeta in H.
  destruct (slice_from dAtA pre) as [sub| | |] eqn:Es; try discriminate.
  destruct (slice_from_inv dAtA pre sub Es) as (u1 & Eu & Hu1).
  cbn [bind] in H.
  destruct (skipTunnel sub) as [skippy| | |] eqn:Ek; try discriminate.
  cbn [bind] in H.
  assert (len sub <= MaxInt) as Hsub.
  { pose proof (f_equal len Eu) as Eu'. rewrite len_app in Eu'.
    pose proof (len_nonneg u1). lia. }
  pose proof (skipTunnel_safe sub Hsub) as Hs. rewrite Ek in Hs.
  cbn [safe] in Hs.
  destruct (Z.ltb_spec skippy 0); [lia|].
  destruct (Z.ltb_spec (int (pre + skippy)) 0); [discriminate|].
  cbn [orb] in H.
  destruct (int_add_nonneg pre skippy) as (Ei & _); try lia.
  rewrite Ei in *.
  destruct (Z.ltb_spec (len dAtA) (pre + skippy)); [discriminate|].
  destruct (slice dAtA pre (pre + skippy)) as [s'| | |] eqn:Esl;
    try discriminate.
  injection H as <- <-.
  destruct (slice_inv dAtA pre (pre + skippy) s' Esl)
    as (v1 & v2 & Ev & Hv1 & Hs' & _).
  assert (u1 = v1 /\ sub = s' ++ v2) as (-> & ->).
  { apply app_len_inj; [congruence|lia]. }
  assert (len s' = skippy) as Hls by lia. subst skippy.
  pose proof (skipTunnel_restrict s' v2 Ek Hsub) as Ek'.
  (* the tag *)
  assert (exists wire i1, read_uvarint s' (len s') 0 = Ok (wire, i1))
    as (wire & i1 & E1).
  { unfold skipTunnel in Ek'. rewrite skipTunnel_loop_S in Ek'. cbv zeta in Ek'.
    destruct (0 <? len s'); [|discriminate].
    destruct (read_uvarint s' (len s') 0) as [[wire i1]| | |];
      try discriminate. eauto. }
  pose proof (read_uvarint_ext v1 s' v2 0 wire i1 (len dAtA) E1) as E1'.
  rewrite Z.add_0_r, <- Ev, Hv1 in E1'.
  unfold read_tag in Ht. rewrite E1' in Ht.
  2:{ rewrite Ev, !len_app. pose proof (len_nonneg v2). lia. }
  cbn [bind] in Ht.
  unfold unknown_field, read_tag. rewrite E1. cbn [bind].
  destruct (Z.land wire 7 =? 4); [discriminate|].
  destruct (int32 (Z.shiftr wire 3) <=? 0); [discriminate|].
  injection Ht as <- <- <-. rewrite Hk, Ek', Z.eqb_refl. reflexivity.
Qed.

Lemma unknown_fields_app (known : Z -> bool) (u v : list byte) :
  unknown_fields known u -> unknown_fields known v ->
  unknown_fields known (u ++ v).
Proof.
  induction 1 as [|uf rest Huf Hrest IH]; intros Hv; [exact Hv|].
  rewrite <- app_assoc. apply unknown_app; auto.
Qed.

Lemma unknown_fields_snoc (known : Z -> bool) (u s : list byte) :
  unknown_fields known u -> unknown_field known s = true ->
  unknown_fields known (u ++ s).
Proof.
  intros Hu Hs. apply unknown_fields_app; [exact Hu|].
  rewrite <- (app_nil_r s). apply unknown_app; [exact Hs|apply unknown_nil].
Qed.

(* ------------------------------------------------------------------ *)
(** ** What Unmarshal returns is well-formed *)

Lemma Addr_Unmarshal_loop_wf (dAtA : list byte) (fuel : nat) :
  forall (m r : Addr) (i : Z),
  Addr_Unmarshal_loop fuel m dAtA i = Ok r ->
  len dAtA <= MaxInt -> 0 <= i -> Addr_wf m -> Addr_wf r.
Proof.
  induction fuel as [|fuel IH]; intros m r i H Hm Hi Hwf; [discriminate|].
  cbn [Addr_Unmarshal_loop] in H. cbv zeta in H.
  destruct (Z.ltb_spec i (len dAtA)) as [Hlt|Hge].
  2:{ apply finish_inv in H as (-> & _). exact Hwf. }
  destruct (read_tag "Addr" dAtA (len dAtA) i) as [[[fn wt] j]| | |] eqn:Et;
    try discriminate.
  pose proof (read_tag_safe "Addr" dAtA (len dAtA) i ltac:(lia) Hi) as Hj.
  rewrite Et in Hj. cbn [safe snd] in Hj. cbn [bind] in H.
  destruct (fn =? 1) eqn:F1.
  { destruct (expect_bytes wt "Network"); try discriminate. cbn [bind] in H.
    destruct (read_string dAtA (len dAtA) j) as [[s p]| | |] eqn:Er;
      try discriminate.
    pose proof (read_string_safe dAtA j Hm ltac:(lia)) as Hp.
    rewrite Er in Hp. cbn [safe fst snd] in Hp. cbn [bind] in H.
    apply (IH _ _ _ H Hm); [lia|exact Hwf]. }
  destruct (fn =? 2) eqn:F2.
  { destruct (expect_bytes wt "Address"); try discriminate. cbn [bind] in H.
    destruct (read_string dAtA (len dAtA) j) as [[s p]| | |] eqn:Er;
      try discriminate.
    pose proof (read_string_safe dAtA j Hm ltac:(lia)) as Hp.
    rewrite Er in Hp. cbn [safe fst snd] in Hp. cbn [bind] in H.
    apply (IH _ _ _ H Hm); [lia|exact Hwf]. }
  destruct (skip_unknown dAtA (len dAtA) i) as [[s p]| | |] eqn:Er;
    try discriminate.
  pose proof (skip_unknown_safe dAtA i Hm ltac:(lia)) as Hp.
  rewrite Er in Hp. cbn [safe snd] in Hp. cbn [bind] in H.
  apply (IH _ _ _ H Hm); [lia|].
  unfold Addr_wf. cbn [Addr_XXX_unrecognized].
  apply unknown_fields_snoc; [exact Hwf|].
  apply (skip_unknown_is_unknown_field Addr_known "Addr" dAtA i fn wt j p s
           Hm ltac:(lia) Et); [|exact Er].
  unfold Addr_known. rewrite F1, F2. reflexivity.
Qed.

Lemma Addr_Unmarshal_wf (m r : Addr) (dAtA : list byte) :
  Addr_Unmarshal m dAtA = Ok r -> len dAtA <= MaxInt -> Addr_wf m -> Addr_wf r.
Proof.
  unfold Addr_Unmarshal. intros H Hm Hwf.
  apply (Addr_Unmarshal_loop_wf _ _ _ _ _ H Hm); [lia|exact Hwf].
Qed.

Lemma Addr_zero_wf : Addr_wf Addr_zero.
Proof. apply unknown_nil. Qed.

Lemma DialRequest_Unmarshal_loop_wf (dAtA : list byte) (fuel : nat) :
  forall (m r : DialRequest) (i : Z),
  DialRequest_Unmarshal_loop fuel m dAtA i = Ok r ->
  len dAtA <= MaxInt -> 0 <= i -> DialRequest_wf m -> DialRequest_wf r.
Proof.
  induction fuel as [|fuel IH]; intros m r i H Hm Hi Hwf; [discriminate|].
  cbn [DialRequest_Unmarshal_loop] in H. cbv zeta in H.
  destruct (Z.ltb_spec i (len dAtA)) as [Hlt|Hge].
  2:{ apply finish_inv in H as (-> & _). exact Hwf. }
  destruct (read_tag "DialRequest" dAtA (len dAtA) i) as [[[fn wt] j]| | |]
    eqn:Et; try discriminate.
  pose proof (read_tag_safe "DialRequest" dAtA (len dAtA) i ltac:(lia) Hi) as Hj.
  rewrite Et in Hj. cbn [safe snd] in Hj. cbn [bind] in H.
  destruct Hwf as (Hu & Hto).
  destruct (fn =? 1) eqn:F1.
  { destruct (expect_bytes wt "ServerID"); try discriminate. cbn [bind] in H.
    destruct (read_string dAtA (len dAtA) j) as [[s p]| | |] eqn:Er;
      try discriminate.
    pose proof (read_string_safe dAtA j Hm ltac:(lia)) as Hp.
    rewrite Er in Hp. cbn [safe fst snd] in Hp. cbn [bind] in H.
    apply (IH _ _ _ H Hm); [lia|]. split; assumption. }
  destruct (fn =? 2) eqn:F2.
  { destruct (expect_bytes wt "ConnType"); try discriminate. cbn [bind] in H.
    destruct (read_string dAtA (len dAtA) j) as [[s p]| | |] eqn:Er;
      try discriminate.
    pose proof (read_string_safe dAtA j Hm ltac:(lia)) as Hp.
    rewrite Er in Hp. cbn [safe fst snd] in Hp. cbn [bind] in H.
    apply (IH _ _ _ H Hm); [lia|]. split; assumption. }
  destruct (fn =? 3) eqn:F3.
  { destruct (expect_bytes wt "To"); try discriminate. cbn [bind] in H.
    destruct (read_bytes dAtA (len dAtA) j) as [[s p]| | |] eqn:Er;
      try discriminate.
    pose proof (read_bytes_safe dAtA j Hm ltac:(lia)) as Hp.
    rewrite Er in Hp. cbn [safe fst snd] in Hp. cbn [bind] in H.
    destruct (Addr_Unmarshal _ s) as [to| | |] eqn:Ea; try discriminate.
    cbn [bind] in H.
    apply (IH _ _ _ H Hm); [lia|]. split; [exact Hu|].
    cbn [To]. apply (Addr_Unmarshal_wf _ _ _ Ea); [lia|].
    destruct (To m); [exact Hto|apply Addr_zero_wf]. }
  destruct (skip_unknown dAtA (len dAtA) i) as [[s p]| | |] eqn:Er;
    try discriminate.
  pose proof (skip_unknown_safe dAtA i Hm ltac:(lia)) as Hp.
  rewrite Er in Hp. cbn [safe snd] in Hp. cbn [bind] in H.
  apply (IH _ _ _ H Hm); [lia|].
  split; [|exact Hto]. cbn [DialRequest_XXX_unrecognized].
  apply unknown_fields_snoc; [exact Hu|].
  apply (skip_unknown_is_unknown_field DialRequest_known "DialRequest" dAtA i
           fn wt j p s Hm ltac:(lia) Et); [|exact Er].
  unfold DialRequest_known. rewrite F1, F2, F3. reflexivity.
Qed.

Lemma DialRequest_Unmarshal_wf (m r : DialRequest) (dAtA : list byte) :
  DialRequest_Unmarshal m dAtA = Ok r -> len dAtA <= MaxInt ->
  DialRequest_wf m -> DialRequest_wf r.
Proof.
  unfold DialRequest_Unmarshal. intros H Hm Hwf.
  apply (DialRequest_Unmarshal_loop_wf _ _ _ _ _ H Hm); [lia|exact Hwf].
Qed.

Lemma DialRequest_zero_wf : DialRequest_wf DialRequest_zero.
Proof. split; [apply unknown_nil|exact I]. Qed.

Lemma Data_Unmarshal_loop_wf (dAtA : list byte) (fuel : nat) :
  forall (m r : Data) (i : Z),
  Data_Unmarshal_loop fuel m dAtA i = Ok r ->
  len dAtA <= MaxInt -> 0 <= i -> Data_wf m -> Data_wf r.
Proof.
  induction fuel as [|fuel IH]; intros m r i H Hm Hi Hwf; [discriminate|].
  cbn [Data_Unmarshal_loop] in H. cbv zeta in H.
  destruct (Z.ltb_spec i (len dAtA)) as [Hlt|Hge].
  2:{ apply finish_inv in H as (-> & _). exact Hwf. }
  destruct (read_tag "Data" dAtA (len dAtA) i) as [[[fn wt] j]| | |] eqn:Et;
    try discriminate.
  pose proof (read_tag_safe "Data" dAtA (len dAtA) i ltac:(lia) Hi) as Hj.
  rewrite Et in Hj. cbn [safe snd] in Hj. cbn [bind] in H.
  destruct (fn =? 1) eqn:F1.
  { destruct (expect_bytes wt "Bytes"); try discriminate. cbn [bind] in H.
    destruct (read_bytes dAtA (len dAtA) j) as [[s p]| | |] eqn:Er;
      try discriminate.
    pose proof (read_bytes_safe dAtA j Hm ltac:(lia)) as Hp.
    rewrite Er in Hp. cbn [safe fst snd] in Hp. cbn [bind] in H.
    apply (IH _ _ _ H Hm); [lia|exact Hwf]. }
  destruct (skip_unknown dAtA (len dAtA) i) as [[s p]| | |] eqn:Er;
    try discriminate.
  pose proof (skip_unknown_safe dAtA i Hm ltac:(lia)) as Hp.
  rewrite Er in Hp. cbn [safe snd] in Hp. cbn [bind] in H.
  apply (IH _ _ _ H Hm); [lia|].
  unfold Data_wf. cbn [Data_XXX_unrecognized].
  apply unknown_fields_snoc; [exact Hwf|].
  apply (skip_unknown_is_unknown_field Data_known "Data" dAtA i fn wt j p s
           Hm ltac:(lia) Et); [|exact Er].
  unfold Data_known. exact F1.
Qed.

Lemma Data_Unmarshal_wf (m r : Data) (dAtA : list byte) :
  Data_Unmarshal m dAtA = Ok r -> len dAtA <= MaxInt -> Data_wf m -> Data_wf r.
Proof.
  unfold Data_Unmarshal. intros H Hm Hwf.
  apply (Data_Unmarshal_loop_wf _ _ _ _ _ H Hm); [lia|exact Hwf].
Qed.

Lemma Data_zero_wf : Data_wf Data_zero.
Proof. apply unknown_nil. Qed.

Lemma Frame_Unmarshal_loop_wf (dAtA : list byte) (fuel : nat) :
  forall (m r : Frame) (i : Z),
  Frame_Unmarshal_loop fuel m dAtA i = Ok r ->
  len dAtA <= MaxInt -> 0 <= i -> Frame_wf m -> Frame_wf r.
Proof.
  induction fuel as [|fuel IH]; intros m r i H Hm Hi Hwf; [discriminate|].
  cbn [Frame_Unmarshal_loop] in H. cbv zeta in H.
  destruct (Z.ltb_spec i (len dAtA)) as [Hlt|Hge].
  2:{ apply finish_inv in H as (-> & _). exact Hwf. }
  destruct (read_tag "Frame" dAtA (len dAtA) i) as [[[fn wt] j]| | |] eqn:Et;
    try discriminate.
  pose proof (read_tag_safe "Frame" dAtA (len dAtA) i ltac:(lia) Hi) as Hj.
  rewrite Et in Hj. cbn [safe snd] in Hj. cbn [bind] in H.
  destruct Hwf as (Hu & Hmsg).
  destruct (fn =? 1) eqn:F1.
  { destruct (expect_bytes wt "DialRequest"); try discriminate.
    cbn [bind] in H.
    destruct (read_bytes dAtA (len dAtA) j) as [[s p]| | |] eqn:Er;
      try discriminate.
    pose proof (read_bytes_safe dAtA j Hm ltac:(lia)) as Hp.
    rewrite Er in Hp. cbn [safe fst snd] in Hp. cbn [bind] in H.
    destruct (DialRequest_Unmarshal _ s) as [v| | |] eqn:Ea; try discriminate.
    cbn [bind] in H.
    apply (IH _ _ _ H Hm); [lia|]. split; [exact Hu|].
    cbn [Message].
    apply (DialRequest_Unmarshal_wf _ _ _ Ea); [lia|apply DialRequest_zero_wf]. }
  destruct (fn =? 2) eqn:F2.
  { destruct (expect_bytes wt "Data"); try discriminate. cbn [bind] in H.
    destruct (read_bytes dAtA (len dAtA) j) as [[s p]| | |] eqn:Er;
      try discriminate.
    pose proof (read_bytes_safe dAtA j Hm ltac:(lia)) as Hp.
    rewrite Er in Hp. cbn [safe fst snd] in Hp. cbn [bind] in H.
    destruct (Data_Unmarshal _ s) as [v| | |] eqn:Ea; try discriminate.
    cbn [bind] in H.
    apply (IH _ _ _ H Hm); [lia|]. split; [exact Hu|].
    cbn [Message].
    apply (Data_Unmarshal_wf _ _ _ Ea); [lia|apply Data_zero_wf]. }
  destruct (skip_unknown dAtA (len dAtA) i) as [[s p]| | |] eqn:Er;
    try discriminate.
  pose proof (skip_unknown_safe dAtA i Hm ltac:(lia)) as Hp.
  rewrite Er in Hp. cbn [safe snd] in Hp. cbn [bind] in H.
  apply (IH _ _ _ H Hm); [lia|].
  split; [|exact Hmsg]. cbn [Frame_XXX_unrecognized].
  apply unknown_fields_snoc; [exact Hu|].
  apply (skip_unknown_is_unknown_field Frame_known "Frame" dAtA i fn wt j p s
           Hm ltac:(lia) Et); [|exact Er].
  unfold Frame_known. rewrite F1, F2. reflexivity.
Qed.

Lemma Frame_Unmarshal_wf (m r : Frame) (dAtA : list byte) :
  Frame_Unmarshal m dAtA = Ok r -> len dAtA <= MaxInt -> Frame_wf m -> Frame_wf r.
Proof.
  unfold Frame_Unmarshal. intros H Hm Hwf.
  apply (Frame_Unmarshal_loop_wf _ _ _ _ _ H Hm); [lia|exact Hwf].
Qed.

Lemma Frame_zero_wf : Frame_wf Frame_zero.
Proof. split; [apply unknown_nil|exact I]. Qed.

(* ------------------------------------------------------------------ *)
(** ** The size of what Unmarshal returns *)

Lemma lor_lt_pow2 (a b n : Z) :
  0 <= n -> 0 <= a < 2 ^ n -> 0 <= b < 2 ^ n -> 0 <= Z.lor a b < 2 ^ n.
Proof.
  intros Hn Ha Hb.
  assert (0 <= Z.lor a b) by (apply Z.lor_nonneg; lia).
  split; [lia|].
  destruct (Z.eq_dec (Z.lor a b) 0) as [->|Hne]; [lia|].
  assert (0 < n) as Hpos.
  { destruct (Z.eq_dec n 0) as [->|]; [|lia]. change (2 ^ 0) with 1 in *.
    assert (a = 0) as -> by lia. assert (b = 0) as -> by lia.
    cbn in Hne. lia. }
  apply Z.log2_lt_pow2; [lia|].
  rewrite Z.log2_lor by lia.
  assert (Z.log2 a < n).
  { destruct (Z.eq_dec a 0) as [->|]; [cbn; lia|]. apply Z.log2_lt_pow2; lia. }
  assert (Z.log2 b < n).
  { destruct (Z.eq_dec b 0) as [->|]; [cbn; lia|]. apply Z.log2_lt_pow2; lia. }
  lia.
Qed.

(** A varint of [k] bytes holds a value below [2 ^ (7 * k)]. *)
Lemma varint_loop_bound (d : list byte) (l : Z) (fuel : nat) :
  forall shift x i v j : Z,
  varint_loop fuel uint64 d l shift x i = Ok (v, j) ->
  0 <= shift -> 0 <= x < 2 ^ shift ->
  i < j /\ 0 <= v < 2 ^ (shift + 7 * (j - i)).
Proof.
  induction fuel as [|fuel IH]; intros shift x i v j H Hs Hx; [discriminate|].
  rewrite varint_loop_S in H.
  destruct (64 <=? shift); [discriminate|].
  destruct (l <=? i); [discriminate|].
  destruct (index d i) as [b| | |]; try discriminate. cbn [bind] in H.
  assert (0 < 2 ^ shift) as Hp by (apply Z.pow_pos_nonneg; lia).
  assert (2 ^ (shift + 7) = 128 * 2 ^ shift) as Ep
    by (rewrite Z.pow_add_r by lia; change (2 ^ 7) with 128; lia).
  assert (0 <= uint64 (Z.shiftl (Z.land (b2z b) 127) shift) < 2 ^ (shift + 7))
    as Ht.
  { pose proof (land_127_range (b2z b)) as Hr.
    assert (0 <= Z.shiftl (Z.land (b2z b) 127) shift < 2 ^ (shift + 7)) as Hsh
      by (rewrite Z.shiftl_mul_pow2 by lia; nia).
    unfold uint64.
    pose proof (Z.mod_le (Z.shiftl (Z.land (b2z b) 127) shift) (2 ^ 64)
                  ltac:(lia) ltac:(lia)).
    pose proof (Z.mod_pos_bound (Z.shiftl (Z.land (b2z b) 127) shift) (2 ^ 64)
                  ltac:(lia)).
    lia. }
  pose proof (lor_lt_pow2 x _ (shift + 7) ltac:(lia) ltac:(lia) Ht) as Hr.
  destruct (b2z b <? 128).
  - injection H as <- <-. split; [lia|].
    replace (shift + 7 * (i + 1 - i)) with (shift + 7) by lia. exact Hr.
  - destruct (IH _ _ _ _ _ H ltac:(lia) Hr) as (Hlt & Hv).
    split; [lia|].
    replace (shift + 7 * (j - i)) with (shift + 7 + 7 * (j - (i + 1))) by lia.
    exact Hv.
Qed.

(** The varint the decoder has read is at least as long as the shortest
    varint of its value. *)
Lemma read_uvarint_sov (d : list byte) (l i v j : Z) :
  read_uvarint d l i = Ok (v, j) -> sovTunnel v <= j - i.
Proof.
  intros H.
  destruct (varint_loop_bound d l 11 0 0 i v j H ltac:(lia) ltac:(lia))
    as (Hlt & Hv).
  rewrite Z.add_0_l in Hv. apply sov_le_iff; lia.
Qed.

Lemma sov_mono (a b : Z) : 0 <= a <= b -> sovTunnel a <= sovTunnel b.
Proof.
  intros H. pose proof (sov_pos b ltac:(lia)).
  apply sov_le_iff; try lia.
  assert (b < 2 ^ (7 * sovTunnel b)) by (apply sov_le_iff; lia). lia.
Qed.

Lemma sov_add (a b : Z) :
  0 <= a -> 0 <= b -> sovTunnel (a + b) <= sovTunnel a + sovTunnel b.
Proof.
  intros Ha Hb.
  pose proof (sov_pos a Ha) as Hpa. pose proof (sov_pos b Hb) as Hpb.
  assert (a < 2 ^ (7 * sovTunnel a)) as Ha' by (apply sov_le_iff; lia).
  assert (b < 2 ^ (7 * sovTunnel b)) as Hb' by (apply sov_le_iff; lia).
  apply sov_le_iff; try lia.
  set (p := sovTunnel a) in *. set (q := sovTunnel b) in *.
  assert (2 ^ (7 * p) <= 2 ^ (7 * Z.max p q)) by (apply Z.pow_le_mono_r; lia).
  assert (2 ^ (7 * q) <= 2 ^ (7 * Z.max p q)) by (apply Z.pow_le_mono_r; lia).
  assert (2 ^ (7 * Z.max p q + 1) = 2 * 2 ^ (7 * Z.max p q)) as E
    by (rewrite Z.pow_add_r by lia; change (2 ^ 1) with 2; lia).
  assert (2 ^ (7 * Z.max p q + 1) <= 2 ^ (7 * (p + q)))
    by (apply Z.pow_le_mono_r; lia).
  lia.
Qed.

Lemma size_msg_mono (a b : Z) :
  0 <= a <= b -> b < 2 ^ 64 -> size_msg a <= size_msg b.
Proof.
  intros H Hb. unfold size_msg. rewrite !uint64_small by lia.
  pose proof (sov_mono a b H). lia.
Qed.

Lemma size_field_le_msg (l : Z) : 0 <= l -> 0 <= size_field l <= size_msg l.
Proof.
  intros H. unfold size_field, size_msg.
  assert (0 <= uint64 l) by (unfold uint64; apply Z.mod_pos_bound; lia).
  pose proof (sov_pos (uint64 l) ltac:(lia)).
  destruct (0 <? l); lia.
Qed.

(** A length-delimited payload and its length varint take at least the
    bytes Size counts for them. *)
Lemma read_bytes_size (d : list byte) (j p : Z) (s : list byte) :
  read_bytes d (len d) j = Ok (s, p) -> 0 <= j -> len d <= MaxInt ->
  size_msg (len s) <= 1 + (p - j) /\ j < p <= len d /\ len s <= p - j.
Proof.
  intros H Hj Hm. pose proof MaxInt_lt_pow64 as HM.
  unfold read_bytes in H. rewrite read_ivarint_uvarint in H.
  destruct (read_uvarint d (len d) j) as [[n i1]| | |] eqn:E; try discriminate.
  cbn [bind] in H.
  pose proof (read_uvarint_bounds d j n i1 Hj E) as Hb.
  pose proof (read_uvarint_range d (len d) j n i1 E) as Hr.
  pose proof (read_uvarint_sov d (len d) j n i1 E) as Hsv.
  destruct (post_index (len d) i1 (int n)) as [q| | |] eqn:Ep; try discriminate.
  cbn [bind] in H.
  destruct (post_index_inv _ _ _ _ Ep ltac:(lia) (int_range n))
    as (Hn & -> & Hq).
  destruct (slice d i1 (i1 + int n)) as [s'| | |] eqn:Es; try discriminate.
  injection H as <- <-.
  destruct (slice_inv _ _ _ _ Es) as (_ & _ & _ & _ & Hl & _).
  destruct (int_of_nonneg n Hr Hn) as (Ei & Hn63). rewrite Ei in *.
  unfold size_msg. rewrite uint64_small by lia.
  replace (len s') with n by lia. lia.
Qed.

Lemma read_string_size (d : list byte) (j p : Z) (s : list byte) :
  read_string d (len d) j = Ok (s, p) -> 0 <= j -> len d <= MaxInt ->
  size_msg (len s) <= 1 + (p - j) /\ j < p <= len d /\ len s <= p - j.
Proof.
  intros H Hj Hm. pose proof MaxInt_lt_pow64 as HM.
  unfold read_string in H.
  destruct (read_uvarint d (len d) j) as [[n i1]| | |] eqn:E; try discriminate.
  cbn [bind] in H.
  pose proof (read_uvarint_bounds d j n i1 Hj E) as Hb.
  pose proof (read_uvarint_range d (len d) j n i1 E) as Hr.
  pose proof (read_uvarint_sov d (len d) j n i1 E) as Hsv.
  destruct (post_index (len d) i1 (int n)) as [q| | |] eqn:Ep; try discriminate.
  cbn [bind] in H.
  destruct (post_index_inv _ _ _ _ Ep ltac:(lia) (int_range n))
    as (Hn & -> & Hq).
  destruct (slice d i1 (i1 + int n)) as [s'| | |] eqn:Es; try discriminate.
  injection H as <- <-.
  destruct (slice_inv _ _ _ _ Es) as (_ & _ & _ & _ & Hl & _).
  destruct (int_of_nonneg n Hr Hn) as (Ei & Hn63). rewrite Ei in *.
  unfold size_msg. rewrite uint64_small by lia.
  replace (len s') with n by lia. lia.
Qed.

Lemma slen_string_of_list_byte (s : list byte) :
  slen (string_of_list_byte s) = len s.
Proof. unfold slen. rewrite list_byte_of_string_of_list_byte. reflexivity. Qed.

Lemma Addr_Unmarshal_loop_size (d : list byte) (fuel : nat) :
  forall (m r : Addr) (i : Z),
  Addr_Unmarshal_loop fuel m d i = Ok r ->
  len d <= MaxInt -> 0 <= i ->
  Addr_Size r <= Addr_Size m + (len d - i).
Proof.
  induction fuel as [|fuel IH]; intros m r i H Hm Hi; [discriminate|].
  cbn [Addr_Unmarshal_loop] in H. cbv zeta in H.
  destruct (Z.ltb_spec i (len d)) as [Hlt|Hge].
  2:{ apply finish_inv in H as (-> & Hle). lia. }
  destruct (read_tag "Addr" d (len d) i) as [[[fn wt] j]| | |] eqn:Et;
    try discriminate.
  pose proof (read_tag_safe "Addr" d (len d) i ltac:(lia) Hi) as Hj.
  rewrite Et in Hj. cbn [safe snd] in Hj. cbn [bind] in H.
  pose proof (size_field_le_msg (slen (Network m)) (slen_nonneg _)) as Hn.
  pose proof (size_field_le_msg (slen (Address m)) (slen_nonneg _)) as Ha.
  destruct (fn =? 1).
  { destruct (expect_bytes wt "Network"); try discriminate. cbn [bind] in H.
    destruct (read_string d (len d) j) as [[s p]| | |] eqn:Er; try discriminate.
    destruct (read_string_size d j p s Er ltac:(lia) Hm) as (Hs & Hp & _).
    cbn [bind] in H. specialize (IH _ _ _ H Hm ltac:(lia)).
    unfold Addr_Size in *. cbn [Network Address Addr_XXX_unrecognized] in IH.
    rewrite slen_string_of_list_byte in IH.
    pose proof (size_field_le_msg (len s) (len_nonneg s)). lia. }
  destruct (fn =? 2).
  { destruct (expect_bytes wt "Address"); try discriminate. cbn [bind] in H.
    destruct (read_string d (len d) j) as [[s p]| | |] eqn:Er; try discriminate.
    destruct (read_string_size d j p s Er ltac:(lia) Hm) as (Hs & Hp & _).
    cbn [bind] in H. specialize (IH _ _ _ H Hm ltac:(lia)).
    unfold Addr_Size in *. cbn [Network Address Addr_XXX_unrecognized] in IH.
    rewrite slen_string_of_list_byte in IH.
    pose proof (size_field_le_msg (len s) (len_nonneg s)). lia. }
  destruct (skip_unknown d (len d) i) as [[s p]| | |] eqn:Er; try discriminate.
  pose proof (skip_unknown_safe d i Hm ltac:(lia)) as Hp.
  rewrite Er in Hp. cbn [safe snd] in Hp. cbn [bind] in H.
  specialize (IH _ _ _ H Hm ltac:(lia)).
  assert (len s = p - i) as Hs.
  { unfold skip_unknown in Er. cbv zeta in Er.
    destruct (slice_from d i); try discriminate. cbn [bind] in Er.
    destruct (skipTunnel _); try discriminate. cbn [bind] in Er.
    destruct (_ || _); [discriminate|].
    destruct (_ <? _); [discriminate|].
    destruct (slice d i _) as [s'| | |] eqn:Es; try discriminate.
    injection Er as <- <-.
    destruct (slice_inv _ _ _ _ Es) as (_ & _ & _ & _ & Hl & _). lia. }
  unfold Addr_Size in *. cbn [Network Address Addr_XXX_unrecognized] in IH.
  rewrite len_app in IH. lia.
Qed.

Lemma skip_unknown_len (d : list byte) (l i p : Z) (s : list byte) :
  skip_unknown d l i = Ok (s, p) -> len s = p - i.
Proof.
  intros Er. unfold skip_unknown in Er. cbv zeta in Er.
  destruct (slice_from d i); try discriminate. cbn [bind] in Er.
  destruct (skipTunnel _); try discriminate. cbn [bind] in Er.
  destruct (_ || _); [discriminate|].
  destruct (_ <? _); [discriminate|].
  destruct (slice d i _) as [s'| | |] eqn:Es; try discriminate.
  injection Er as <- <-.
  destruct (slice_inv _ _ _ _ Es) as (_ & _ & _ & _ & Hl & _). lia.
Qed.

Lemma Addr_Unmarshal_size (m r : Addr) (d : list byte) :
  Addr_Unmarshal m d = Ok r -> len d <= MaxInt ->
  Addr_Size r <= Addr_Size m + len d.
Proof.
  unfold Addr_Unmarshal. intros H Hm.
  pose proof (Addr_Unmarshal_loop_size _ _ _ _ _ H Hm ltac:(lia)). lia.
Qed.

Lemma Data_Unmarshal_loop_size (d : list byte) (fuel : nat) :
  forall (m r : Data) (i : Z),
  Data_Unmarshal_loop fuel m d i = Ok r ->
  len d <= MaxInt -> 0 <= i ->
  Data_Size r <= Data_Size m + (len d - i).
Proof.
  induction fuel as [|fuel IH]; intros m r i H Hm Hi; [discriminate|].
  cbn [Data_Unmarshal_loop] in H. cbv zeta in H.
  destruct (Z.ltb_spec i (len d)) as [Hlt|Hge].
  2:{ apply finish_inv in H as (-> & Hle). lia. }
  destruct (read_tag "Data" d (len d) i) as [[[fn wt] j]| | |] eqn:Et;
    try discriminate.
  pose proof (read_tag_safe "Data" d (len d) i ltac:(lia) Hi) as Hj.
  rewrite Et in Hj. cbn [safe snd] in Hj. cbn [bind] in H.
  pose proof (size_field_le_msg (len (Bytes m)) (len_nonneg _)) as Hn.
  destruct (fn =? 1).
  { destruct (expect_bytes wt "Bytes"); try discriminate. cbn [bind] in H.
    destruct (read_bytes d (len d) j) as [[s p]| | |] eqn:Er; try discriminate.
    destruct (read_bytes_size d j p s Er ltac:(lia) Hm) as (Hs & Hp & _).
    cbn [bind] in H. specialize (IH _ _ _ H Hm ltac:(lia)).
    unfold Data_Size in *. cbn [Bytes Data_XXX_unrecognized] in IH.
    pose proof (size_field_le_msg (len s) (len_nonneg s)). lia. }
  destruct (skip_unknown d (len d) i) as [[s p]| | |] eqn:Er; try discriminate.
  pose proof (skip_unknown_safe d i Hm ltac:(lia)) as Hp.
  rewrite Er in Hp. cbn [safe snd] in Hp. cbn [bind] in H.
  specialize (IH _ _ _ H Hm ltac:(lia)).
  pose proof (skip_unknown_len _ _ _ _ _ Er) as Hs.
  unfold Data_Size in *. cbn [Bytes Data_XXX_unrecognized] in IH.
  rewrite len_app in IH. lia.
Qed.

Lemma Data_Unmarshal_size (m r : Data) (d : list byte) :
  Data_Unmarshal m d = Ok r -> len d <= MaxInt ->
  Data_Size r <= Data_Size m + len d.
Proof.
  unfold Data_Unmarshal. intros H Hm.
  pose proof (Data_Unmarshal_loop_size _ _ _ _ _ H Hm ltac:(lia)). lia.
Qed.

Lemma DialRequest_Unmarshal_loop_size (d : list byte) (fuel : nat) :
  forall (m r : DialRequest) (i : Z),
  DialRequest_Unmarshal_loop fuel m d i = Ok r ->
  len d <= MaxInt -> 0 <= i ->
  DialRequest_Size m + (len d - i) <= MaxInt ->
  DialRequest_Size r <= DialRequest_Size m + (len d - i).
Proof.
  pose proof MaxInt_lt_pow64 as HM.
  induction fuel as [|fuel IH]; intros m r i H Hm Hi Hb; [discriminate|].
  cbn [DialRequest_Unmarshal_loop] in H. cbv zeta in H.
  destruct (Z.ltb_spec i (len d)) as [Hlt|Hge].
  2:{ apply finish_inv in H as (-> & Hle). lia. }
  destruct (read_tag "DialRequest" d (len d) i) as [[[fn wt] j]| | |] eqn:Et;
    try discriminate.
  pose proof (read_tag_safe "DialRequest" d (len d) i ltac:(lia) Hi) as Hj.
  rewrite Et in Hj. cbn [safe snd] in Hj. cbn [bind] in H.
  pose proof (size_field_le_msg (slen (ServerID m)) (slen_nonneg _)) as Hn.
  pose proof (size_field_le_msg (slen (ConnType m)) (slen_nonneg _)) as Ha.
  pose proof (len_nonneg (DialRequest_XXX_unrecognized m)) as Hu.
  assert (0 <= match To m with
               | Some a => size_msg (Addr_Size a)
               | None => 0
               end) as Ht0.
  { destruct (To m) as [t|]; [|lia].
    destruct (Addr_Size_bounds t) as (_ & _ & H0).
    pose proof (size_msg_bounds _ H0). lia. }
  destruct (fn =? 1).
  { destruct (expect_bytes wt "ServerID"); try discriminate. cbn [bind] in H.
    destruct (read_string d (len d) j) as [[s p]| | |] eqn:Er; try discriminate.
    destruct (read_string_size d j p s Er ltac:(lia) Hm) as (Hs & Hp & _).
    cbn [bind] in H.
    pose proof (size_field_le_msg (len s) (len_nonneg s)).
    match type of H with DialRequest_Unmarshal_loop _ ?m' _ _ = _ =>
      assert (DialRequest_Size m' <= DialRequest_Size m + (p - i)) as Hstep
    end.
    { unfold DialRequest_Size.
      cbn [ServerID ConnType To DialRequest_XXX_unrecognized].
      rewrite slen_string_of_list_byte. lia. }
    specialize (IH _ _ _ H Hm ltac:(lia) ltac:(lia)). lia. }
  destruct (fn =? 2).
  { destruct (expect_bytes wt "ConnType"); try discriminate. cbn [bind] in H.
    destruct (read_string d (len d) j) as [[s p]| | |] eqn:Er; try discriminate.
    destruct (read_string_size d j p s Er ltac:(lia) Hm) as (Hs & Hp & _).
    cbn [bind] in H.
    pose proof (size_field_le_msg (len s) (len_nonneg s)).
    match type of H with DialRequest_Unmarshal_loop _ ?m' _ _ = _ =>
      assert (DialRequest_Size m' <= DialRequest_Size m + (p - i)) as Hstep
    end.
    { unfold DialRequest_Size.
      cbn [ServerID ConnType To DialRequest_XXX_unrecognized].
      rewrite slen_string_of_list_byte. lia. }
    specialize (IH _ _ _ H Hm ltac:(lia) ltac:(lia)). lia. }
  destruct (fn =? 3).
  { destruct (expect_bytes wt "To"); try discriminate. cbn [bind] in H.
    destruct (read_bytes d (len d) j) as [[s p]| | |] eqn:Er; try discriminate.
    destruct (read_bytes_size d j p s Er ltac:(lia) Hm) as (Hs & Hp & Hls).
    cbn [bind] in H.
    destruct (Addr_Unmarshal _ s) as [to| | |] eqn:Ea; try discriminate.
    cbn [bind] in H.
    pose proof (Addr_Unmarshal_size _ _ _ Ea ltac:(lia)) as Hto.
    destruct (Addr_Size_bounds to) as (_ & _ & Hto0).
    pose proof (len_nonneg s) as Hs0.
    match type of H with DialRequest_Unmarshal_loop _ ?m' _ _ = _ =>
      assert (DialRequest_Size m' <= DialRequest_Size m + (p - i)) as Hstep
    end.
    { unfold DialRequest_Size in *.
      cbn [ServerID ConnType To DialRequest_XXX_unrecognized].
      destruct (To m) as [t|] eqn:Et0; cbv iota in Hb, Hto.
      - destruct (Addr_Size_bounds t) as (_ & _ & Ht).
        assert (0 <= uint64 (Addr_Size t))
          by (unfold uint64; apply Z.mod_pos_bound; lia).
        pose proof (sov_pos (uint64 (Addr_Size t)) ltac:(lia)).
        unfold size_msg in *.
        rewrite (uint64_small (len s)) in Hs by lia.
        assert (Addr_Size t < 2 ^ 64) as Ht64 by lia.
        assert (Addr_Size to < 2 ^ 64) as Hto64 by lia.
        rewrite (uint64_small (Addr_Size t)) in * by lia.
        rewrite (uint64_small (Addr_Size to)) by lia.
        pose proof (sov_mono (Addr_Size to) (Addr_Size t + len s) ltac:(lia)).
        pose proof (sov_add (Addr_Size t) (len s) Ht Hs0). lia.
      - change (Addr_Size Addr_zero) with 0 in Hto.
        pose proof (size_msg_mono (Addr_Size to) (len s) ltac:(lia) ltac:(lia)).
        lia. }
    specialize (IH _ _ _ H Hm ltac:(lia) ltac:(lia)). lia. }
  destruct (skip_unknown d (len d) i) as [[s p]| | |] eqn:Er; try discriminate.
  pose proof (skip_unknown_safe d i Hm ltac:(lia)) as Hp.
  rewrite Er in Hp. cbn [safe snd] in Hp. cbn [bind] in H.
  pose proof (skip_unknown_len _ _ _ _ _ Er) as Hs.
  match type of H with DialRequest_Unmarshal_loop _ ?m' _ _ = _ =>
    assert (DialRequest_Size m' <= DialRequest_Size m + (p - i)) as Hstep
  end.
  { unfold DialRequest_Size.
    cbn [ServerID ConnType To DialRequest_XXX_unrecognized].
    rewrite len_app. lia. }
  specialize (IH _ _ _ H Hm ltac:(lia) ltac:(lia)). lia.
Qed.

Lemma DialRequest_Unmarshal_size (r : DialRequest) (d : list byte) :
  DialRequest_Unmarshal DialRequest_zero d = Ok r -> len d <= MaxInt ->
  DialRequest_Size r <= len d.
Proof.
  unfold DialRequest_Unmarshal. intros H Hm.
  pose proof (DialRequest_Unmarshal_loop_size _ _ _ _ _ H Hm ltac:(lia)) as Hs.
  change (DialRequest_Size DialRequest_zero) with 0 in Hs. lia.
Qed.

Lemma Frame_Unmarshal_loop_size (d : list byte) (fuel : nat) :
  forall (m r : Frame) (i : Z),
  Frame_Unmarshal_loop fuel m d i = Ok r ->
  len d <= MaxInt -> 0 <= i ->
  Frame_Size r <= Frame_Size m + (len d - i).
Proof.
  pose proof MaxInt_lt_pow64 as HM.
  induction fuel as [|fuel IH]; intros m r i H Hm Hi; [discriminate|].
  cbn [Frame_Unmarshal_loop] in H. cbv zeta in H.
  destruct (Z.ltb_spec i (len d)) as [Hlt|Hge].
  2:{ apply finish_inv in H as (-> & Hle). lia. }
  destruct (read_tag "Frame" d (len d) i) as [[[fn wt] j]| | |] eqn:Et;
    try discriminate.
  pose proof (read_tag_safe "Frame" d (len d) i ltac:(lia) Hi) as Hj.
  rewrite Et in Hj. cbn [safe snd] in Hj. cbn [bind] in H.
  destruct (Frame_Size_bounds m) as (Hx & _).
  assert (0 <= match Message m with
               | Some x => isFrame_Message_Size x
               | None => 0
               end) as Hmsg by (destruct (Message m); lia).
  destruct (fn =? 1).
  { destruct (expect_bytes wt "DialRequest"); try discriminate.
    cbn [bind] in H.
    destruct (read_bytes d (len d) j) as [[s p]| | |] eqn:Er; try discriminate.
    destruct (read_bytes_size d j p s Er ltac:(lia) Hm) as (Hs & Hp & Hls).
    cbn [bind] in H.
    destruct (DialRequest_Unmarshal _ s) as [v| | |] eqn:Ea; try discriminate.
    cbn [bind] in H.
    pose proof (DialRequest_Unmarshal_size _ _ Ea ltac:(lia)) as Hv.
    destruct (DialRequest_Size_bounds v) as (_ & _ & _ & Hv0).
    pose proof (size_msg_mono (DialRequest_Size v) (len s) ltac:(lia)
                  ltac:(lia)).
    specialize (IH _ _ _ H Hm ltac:(lia)).
    unfold Frame_Size in *.
    cbn [Message Frame_XXX_unrecognized isFrame_Message_Size] in IH. lia. }
  destruct (fn =? 2).
  { destruct (expect_bytes wt "Data"); try discriminate. cbn [bind] in H.
    destruct (read_bytes d (len d) j) as [[s p]| | |] eqn:Er; try discriminate.
    destruct (read_bytes_size d j p s Er ltac:(lia) Hm) as (Hs & Hp & Hls).
    cbn [bind] in H.
    destruct (Data_Unmarshal _ s) as [v| | |] eqn:Ea; try discriminate.
    cbn [bind] in H.
    pose proof (Data_Unmarshal_size _ _ _ Ea ltac:(lia)) as Hv.
    change (Data_Size Data_zero) with 0 in Hv.
    destruct (Data_Size_bounds v) as (_ & Hv0).
    pose proof (size_msg_mono (Data_Size v) (len s) ltac:(lia) ltac:(lia)).
    specialize (IH _ _ _ H Hm ltac:(lia)).
    unfold Frame_Size in *.
    cbn [Message Frame_XXX_unrecognized isFrame_Message_Size] in IH. lia. }
  destruct (skip_unknown d (len d) i) as [[s p]| | |] eqn:Er; try discriminate.
  pose proof (skip_unknown_safe d i Hm ltac:(lia)) as Hp.
  rewrite Er in Hp. cbn [safe snd] in Hp. cbn [bind] in H.
  pose proof (skip_unknown_len _ _ _ _ _ Er) as Hs.
  specialize (IH _ _ _ H Hm ltac:(lia)).
  unfold Frame_Size in *. cbn [Message Frame_XXX_unrecognized] in IH.
  rewrite len_app in IH. lia.
Qed.

Lemma Frame_Unmarshal_size (m r : Frame) (d : list byte) :
  Frame_Unmarshal m d = Ok r -> len d <= MaxInt ->
  Frame_Size r <= Frame_Size m + len d.
Proof.
  unfold Frame_Unmarshal. intros H Hm.
  pose proof (Frame_Unmarshal_loop_size _ _ _ _ _ H Hm ltac:(lia)). lia.
Qed.

(* ------------------------------------------------------------------ *)
(** ** Decoding, encoding and decoding again *)

(** X13.  Whatever bytes a Frame was decoded from, it can be encoded again: the
    Frame is well-formed, Marshal returns an encoding that is not longer than
    the bytes it came from, and that encoding decodes to the same Frame. *)
Theorem decoded_Frame_encodes_and_decodes_back (b : list byte) (f : Frame) :
  decode b = Ok f -> len b <= MaxInt ->
  Frame_wf f
  /\ exists w, encode f = Ok w /\ len w <= len b /\ decode w = Ok f.
Proof.
  unfold decode, encode. intros H Hm.
  pose proof (Frame_Unmarshal_wf _ _ _ H Hm Frame_zero_wf) as Hwf.
  pose proof (Frame_Unmarshal_size _ _ _ H Hm) as Hs.
  change (Frame_Size Frame_zero) with 0 in Hs.
  destruct (Frame_Marshal_wire f ltac:(lia)) as (E & Hl).
  split; [exact Hwf|]. exists (Frame_wire f).
  split; [exact E|]. split; [lia|].
  apply Frame_Unmarshal_wire; [exact Hwf|lia].
Qed.

Lemma decoded_Frame_encodes_and_decodes_back_witness :
  Frame_wf scenario_data
  /\ exists w, encode scenario_data = Ok w
               /\ len w <= len [x12; x03; x0a; x01; x78; x12; x05; x0a; x82; x00; x68; x69]
               /\ decode w = Ok scenario_data.
Proof.
  apply (decoded_Frame_encodes_and_decodes_back
           [x12; x03; x0a; x01; x78; x12; x05; x0a; x82; x00; x68; x69]).
  - reflexivity.
  - apply Z.leb_le. reflexivity.
Defined.

(* ------------------------------------------------------------------ *)
(** ** skipTunnel *)

(** X14.  skipTunnel looks at no byte after the field it skips: when it returns
    the length of [s] on a buffer that starts with [s], it returns the
    same on every buffer that starts with [s]. *)
Theorem skipTunnel_reads_the_field_only (s r1 r2 : list byte) :
  skipTunnel (s ++ r1) = Ok (len s) -> len (s ++ r1) <= MaxInt ->
  skipTunnel (s ++ r2) = Ok (len s).
Proof.
  intros H Hm. apply skipTunnel_ext. apply (skipTunnel_restrict s r1 H Hm).
Qed.

Lemma skipTunnel_reads_the_field_only_witness :
  skipTunnel ([x1b; x08; x01; x1c] ++ [x00; x00]) = Ok (len [x1b; x08; x01; x1c]).
Proof.
  apply (skipTunnel_reads_the_field_only [x1b; x08; x01; x1c] [xff] [x00; x00]).
  - reflexivity.
  - apply Z.leb_le. reflexivity.
Defined.

(* ------------------------------------------------------------------ *)
(** ** Errors at the start of a field *)

(** Unmarshal of [b1 ++ c] into [m], when Unmarshal of [b1] into [m] gives
    [m1], goes on at the first byte of [c] with [m1]. *)
Lemma Frame_Unmarshal_continue (m m1 : Frame) (b1 c : list byte) :
  Frame_Unmarshal m b1 = Ok m1 -> len (b1 ++ c) <= MaxInt ->
  exists f, enough f (b1 ++ c) (len b1)
    /\ Frame_Unmarshal m (b1 ++ c) = Frame_Unmarshal_loop f m1 (b1 ++ c) (len b1).
Proof.
  unfold Frame_Unmarshal. intros H Hm.
  destruct (Frame_Unmarshal_loop_embed [] b1 c _ m m1 0 (S (length (b1 ++ c)))
              H ltac:(lia) Hm (enough_init _)) as (f1 & He1 & E).
  cbn [app] in E, He1. change (len (@nil byte)) with 0 in E, He1.
  rewrite !Z.add_0_l in *. eauto.
Qed.

Lemma read_uvarint_byte (a c : list byte) (t : byte) (l : Z) :
  b2z t < 128 -> len a + 1 <= l ->
  read_uvarint (a ++ t :: c) l (len a) = Ok (b2z t, len a + 1).
Proof.
  intros Ht Hl. pose proof (b2z_range t).
  pose proof (read_uvarint_varint (b2z t) a c l) as E.
  rewrite varint_byte, sov_small in E by lia. cbn [app] in E.
  apply E; lia.
Qed.

(** The value of a one-byte tag: field number and wire type. *)
Lemma tag_byte (fn wt : Z) :
  0 <= fn < 16 -> 0 <= wt < 8 ->
  b2z (uint8 (8 * fn + wt)) = 8 * fn + wt
  /\ Z.shiftr (8 * fn + wt) 3 = fn
  /\ Z.land (8 * fn + wt) 7 = wt.
Proof.
  intros Hf Hw. split; [apply b2z_uint8_small; lia|]. split.
  - rewrite Z.shiftr_div_pow2 by lia. change (2 ^ 3) with 8.
    symmetry. apply (Z.div_unique _ _ _ wt); lia.
  - change 7 with (Z.ones 3). rewrite Z.land_ones by lia. change (2 ^ 3) with 8.
    symmetry. apply (Z.mod_unique _ _ fn); lia.
Qed.

Lemma int32_small (z : Z) : - 2 ^ 31 <= z < 2 ^ 31 -> int32 z = z.
Proof.
  intros H. unfold int32. rewrite Z.mod_small by lia. lia.
Qed.

(** The first turn of the loop at a one-byte tag. *)
Lemma Frame_Unmarshal_loop_tag (f : nat) (m : Frame) (a rest : list byte)
  (fn wt : Z) :
  0 <= fn < 16 -> 0 <= wt < 8 ->
  enough f (a ++ uint8 (8 * fn + wt) :: rest) (len a) ->
  exists f' l,
    Frame_Unmarshal_loop f m (a ++ uint8 (8 * fn + wt) :: rest) (len a)
    = ('(fieldNum, wireType, iNdEx) <-
         (if wt =? 4 then Err (ErrEndGroup "Frame")
          else if fn <=? 0 then Err (ErrIllegalTag "Frame" fn (8 * fn + wt))
          else Ok (fn, wt, len a + 1)) ;;
       if fieldNum =? 1 then
         _ <- expect_bytes wireType "DialRequest" ;;
         '(s, postIndex) <- read_bytes (a ++ uint8 (8 * fn + wt) :: rest) l iNdEx ;;
         v <- DialRequest_Unmarshal DialRequest_zero s ;;
         Frame_Unmarshal_loop f'
           (mkFrame (Some (Frame_DialRequest (Some v))) (Frame_XXX_unrecognized m))
           (a ++ uint8 (8 * fn + wt) :: rest) postIndex
       else if fieldNum =? 2 then
         _ <- expect_bytes wireType "Data" ;;
         '(s, postIndex) <- read_bytes (a ++ uint8 (8 * fn + wt) :: rest) l iNdEx ;;
         v <- Data_Unmarshal Data_zero s ;;
         Frame_Unmarshal_loop f'
           (mkFrame (Some (Frame_Data (Some v))) (Frame_XXX_unrecognized m))
           (a ++ uint8 (8 * fn + wt) :: rest) postIndex
       else
         '(s, iNdEx) <- skip_unknown (a ++ uint8 (8 * fn + wt) :: rest) l (len a) ;;
         Frame_Unmarshal_loop f'
           (mkFrame (Message m) (Frame_XXX_unrecognized m ++ s))
           (a ++ uint8 (8 * fn + wt) :: rest) iNdEx).
Proof.
  intros Hf Hw He.
  destruct (tag_byte fn wt Hf Hw) as (Eb & Es & El).
  pose proof (len_nonneg a). pose proof (len_nonneg rest).
  assert (len (a ++ uint8 (8 * fn + wt) :: rest) = len a + 1 + len rest) as Elen
    by (rewrite len_app, len_cons; lia).
  destruct (enough_S _ _ _ He) as (f' & ->); [lia|].
  exists f', (len (a ++ uint8 (8 * fn + wt) :: rest)).
  cbn [Frame_Unmarshal_loop]. cbv zeta.
  destruct (Z.ltb_spec (len a) (len (a ++ uint8 (8 * fn + wt) :: rest))); [|lia].
  unfold read_tag. rewrite read_uvarint_byte by lia. cbn [bind].
  rewrite Eb, Es, El. rewrite int32_small by lia.
  destruct (wt =? 4); [reflexivity|].
  destruct (fn <=? 0); reflexivity.
Qed.

(** X15.  A field that Frame knows, sent with another wire type than 2, is not
    skipped as an unknown field: Unmarshal stops with the error "wrong
    wireType" for that field, wherever the field stands and whatever
    follows it. *)
Theorem Frame_Unmarshal_wrong_wire_type (m m1 : Frame) (b1 rest : list byte)
  (fn wt : Z) :
  Frame_Unmarshal m b1 = Ok m1 ->
  len (b1 ++ uint8 (8 * fn + wt) :: rest) <= MaxInt ->
  fn = 1 \/ fn = 2 -> 0 <= wt < 8 -> wt <> 2 -> wt <> 4 ->
  Frame_Unmarshal m (b1 ++ uint8 (8 * fn + wt) :: rest)
  = Err (ErrWrongWireType wt (if fn =? 1 then "DialRequest" else "Data")).
Proof.
  intros H Hm Hf Hw H2 H4.
  destruct (Frame_Unmarshal_continue m m1 b1 _ H Hm) as (f & He & ->).
  destruct (Frame_Unmarshal_loop_tag f m1 b1 rest fn wt ltac:(lia) Hw He)
    as (f' & l & ->).
  destruct (Z.eqb_spec wt 4); [lia|].
  destruct (Z.leb_spec fn 0); [lia|]. cbn [bind].
  unfold expect_bytes. destruct (Z.eqb_spec wt 2); [lia|]. cbn [negb bind].
  destruct Hf as [-> | ->]; reflexivity.
Qed.

Lemma Frame_Unmarshal_wrong_wire_type_witness :
  Frame_Unmarshal Frame_zero
    ([x12; x04; x0a; x02; x68; x69] ++ uint8 (8 * 1 + 0) :: [x07])
  = Err (ErrWrongWireType 0 "DialRequest").
Proof.
  apply (Frame_Unmarshal_wrong_wire_type Frame_zero scenario_data
           [x12; x04; x0a; x02; x68; x69] [x07] 1 0).
  - reflexivity.
  - apply Z.leb_le. reflexivity.
  - left. reflexivity.
  - lia.
  - lia.
  - lia.
Defined.

(** X16.  A tag with wire type 4 (end of group) or with field number 0 stops
    Unmarshal with an error of its own. *)
Theorem Frame_Unmarshal_illegal_tag (m m1 : Frame) (b1 rest : list byte)
  (fn wt : Z) :
  Frame_Unmarshal m b1 = Ok m1 ->
  len (b1 ++ uint8 (8 * fn + wt) :: rest) <= MaxInt ->
  0 <= fn < 16 -> 0 <= wt < 8 -> wt = 4 \/ fn = 0 ->
  Frame_Unmarshal m (b1 ++ uint8 (8 * fn + wt) :: rest)
  = Err (if wt =? 4 then ErrEndGroup "Frame"
         else ErrIllegalTag "Frame" 0 wt).
Proof.
  intros H Hm Hf Hw Hbad.
  destruct (Frame_Unmarshal_continue m m1 b1 _ H Hm) as (f & He & ->).
  destruct (Frame_Unmarshal_loop_tag f m1 b1 rest fn wt Hf Hw He)
    as (f' & l & ->).
  destruct (Z.eqb_spec wt 4); [reflexivity|].
  destruct Hbad as [?| ->]; [lia|]. reflexivity.
Qed.

Lemma Frame_Unmarshal_illegal_tag_witness :
  Frame_Unmarshal Frame_zero
    ([x12; x04; x0a; x02; x68; x69] ++ uint8 (8 * 0 + 2) :: [x00])
  = Err (ErrIllegalTag "Frame" 0 2).
Proof.
  apply (Frame_Unmarshal_illegal_tag Frame_zero scenario_data
           [x12; x04; x0a; x02; x68; x69] [x00] 0 2).
  - reflexivity.
  - apply Z.leb_le. reflexivity.
  - lia.
  - lia.
  - right. reflexivity.
Defined.

(** Ten bytes with the continuation bit set are no varint. *)
Lemma varint_loop_overflow (wrap : Z -> Z) (bs : list byte) :
  forall (a c : list byte) (l shift x : Z) (fuel : nat),
  Forall (fun b => 128 <= b2z b) bs ->
  0 <= shift -> 64 <= shift + 7 * len bs ->
  (length bs < fuel)%nat -> len a + len bs <= l ->
  varint_loop fuel wrap (a ++ bs ++ c) l shift x (len a)
  = Err ErrIntOverflowTunnel.
Proof.
  induction bs as [|b bs IH]; intros a c l shift x fuel Hall Hs Hsh Hf Hl;
    (destruct fuel as [|fuel]; [cbn in Hf; lia|]); rewrite varint_loop_S.
  - change (len (@nil byte)) with 0 in Hsh.
    destruct (Z.leb_spec 64 shift); [reflexivity|lia].
  - destruct (Z.leb_spec 64 shift); [reflexivity|].
    rewrite len_cons in Hsh, Hl. pose proof (len_nonneg bs).
    destruct (Z.leb_spec l (len a)); [lia|].
    cbn [app]. rewrite index_app. cbn [bind].
    inversion Hall as [|? ? Hb Hall']; subst.
    destruct (Z.ltb_spec (b2z b) 128); [lia|].
    replace (len a + 1) with (len (a ++ [b])) by (rewrite len_app; reflexivity).
    change (a ++ b :: bs ++ c) with (a ++ [b] ++ bs ++ c).
    rewrite (app_assoc a [b]).
    apply IH; try assumption; try lia.
    + cbn [length] in Hf. lia.
    + rewrite len_app. change (len [b]) with 1. lia.
Qed.

(** X17.  A tag of ten bytes that all have the continuation bit set stops
    Unmarshal with the integer overflow error, wherever it stands. *)
Theorem Frame_Unmarshal_varint_overflow (m m1 : Frame) (b1 bs rest : list byte) :
  Frame_Unmarshal m b1 = Ok m1 ->
  len (b1 ++ bs ++ rest) <= MaxInt ->
  Forall (fun b => 128 <= b2z b) bs -> length bs = 10%nat ->
  Frame_Unmarshal m (b1 ++ bs ++ rest) = Err ErrIntOverflowTunnel.
Proof.
  intros H Hm Hall Hlen.
  destruct (Frame_Unmarshal_continue m m1 b1 _ H Hm) as (f & He & ->).
  pose proof (len_nonneg b1). pose proof (len_nonneg rest).
  assert (len bs = 10) as Hl by (unfold len; rewrite Hlen; reflexivity).
  assert (len (b1 ++ bs ++ rest) = len b1 + 10 + len rest) as Elen
    by (rewrite !len_app; lia).
  destruct (enough_S _ _ _ He) as (f' & ->); [lia|].
  cbn [Frame_Unmarshal_loop]. cbv zeta.
  destruct (Z.ltb_spec (len b1) (len (b1 ++ bs ++ rest))); [|lia].
  unfold read_tag, read_uvarint.
  rewrite varint_loop_overflow; try assumption; try lia.
  reflexivity.
Qed.

Lemma Frame_Unmarshal_varint_overflow_witness :
  Frame_Unmarshal Frame_zero
    ([x12; x04; x0a; x02; x68; x69] ++ repeat xff 10 ++ [x01])
  = Err ErrIntOverflowTunnel.
Proof.
  apply (Frame_Unmarshal_varint_overflow Frame_zero scenario_data).
  - reflexivity.
  - apply Z.leb_le. reflexivity.
  - repeat constructor; discriminate.
  - reflexivity.
Defined.

(* ------------------------------------------------------------------ *)
(** ** What Unmarshal keeps of its receiver *)

Lemma Frame_Unmarshal_loop_keeps (d : list byte) (fuel : nat) :
  forall (m r : Frame) (i : Z),
  Frame_Unmarshal_loop fuel m d i = Ok r ->
  len d <= MaxInt -> 0 <= i ->
  (exists s, Frame_XXX_unrecognized r = Frame_XXX_unrecognized m ++ s)
  /\ (Message m <> None -> Message r <> None).
Proof.
  induction fuel as [|fuel IH]; intros m r i H Hm Hi; [discriminate|].
  cbn [Frame_Unmarshal_loop] in H. cbv zeta in H.
  destruct (Z.ltb_spec i (len d)) as [Hlt|Hge].
  2:{ apply finish_inv in H as (-> & _). split; [|auto].
      exists []. now rewrite app_nil_r. }
  destruct (read_tag "Frame" d (len d) i) as [[[fn wt] j]| | |] eqn:Et;
    try discriminate.
  pose proof (read_tag_safe "Frame" d (len d) i ltac:(lia) Hi) as Hj.
  rewrite Et in Hj. cbn [safe snd] in Hj. cbn [bind] in H.
  destruct (fn =? 1).
  { destruct (expect_bytes wt "DialRequest"); try discriminate.
    cbn [bind] in H.
    destruct (read_bytes d (len d) j) as [[s p]| | |] eqn:Er; try discriminate.
    pose proof (read_bytes_safe d j Hm ltac:(lia)) as Hp.
    rewrite Er in Hp. cbn [safe fst snd] in Hp. cbn [bind] in H.
    destruct (DialRequest_Unmarshal _ s) as [v| | |]; try discriminate.
    cbn [bind] in H.
    destruct (IH _ _ _ H Hm ltac:(lia)) as (Hs & Hmsg).
    cbn [Message Frame_XXX_unrecognized] in *.
    split; [exact Hs|]. intros _. apply Hmsg. discriminate. }
  destruct (fn =? 2).
  { destruct (expect_bytes wt "Data"); try discriminate. cbn [bind] in H.
    destruct (read_bytes d (len d) j) as [[s p]| | |] eqn:Er; try discriminate.
    pose proof (read_bytes_safe d j Hm ltac:(lia)) as Hp.
    rewrite Er in Hp. cbn [safe fst snd] in Hp. cbn [bind] in H.
    destruct (Data_Unmarshal _ s) as [v| | |]; try discriminate.
    cbn [bind] in H.
    destruct (IH _ _ _ H Hm ltac:(lia)) as (Hs & Hmsg).
    cbn [Message Frame_XXX_unrecognized] in *.
    split; [exact Hs|]. intros _. apply Hmsg. discriminate. }
  destruct (skip_unknown d (len d) i) as [[s p]| | |] eqn:Er; try discriminate.
  pose proof (skip_unknown_safe d i Hm ltac:(lia)) as Hp.
  rewrite Er in Hp. cbn [safe snd] in Hp. cbn [bind] in H.
  destruct (IH _ _ _ H Hm ltac:(lia)) as ((s' & Hs) & Hmsg).
  cbn [Message Frame_XXX_unrecognized] in *.
  split; [|exact Hmsg]. exists (s ++ s'). now rewrite Hs, app_assoc.
Qed.

(** X18.  Unmarshal only adds to what the receiver holds: the unrecognized bytes
    of the receiver are the start of those of the result, and a Message
    once set is never unset. *)
Theorem Frame_Unmarshal_keeps_the_receiver (m r : Frame) (d : list byte) :
  Frame_Unmarshal m d = Ok r -> len d <= MaxInt ->
  (exists s, Frame_XXX_unrecognized r = Frame_XXX_unrecognized m ++ s)
  /\ (Message m <> None -> Message r <> None).
Proof.
  unfold Frame_Unmarshal. intros H Hm.
  apply (Frame_Unmarshal_loop_keeps _ _ _ _ _ H Hm). lia.
Qed.

Lemma Frame_Unmarshal_keeps_the_receiver_witness :
  (exists s, Frame_XXX_unrecognized
               (mkFrame (Message scenario_data) [x18; x07; x20; x01])
             = Frame_XXX_unrecognized (mkFrame (Message scenario_data) [x18; x07])
               ++ s)
  /\ (Message (mkFrame (Message scenario_data) [x18; x07]) <> None ->
      Message (mkFrame (Message scenario_data) [x18; x07; x20; x01]) <> None).
Proof.
  apply (Frame_Unmarshal_keeps_the_receiver
           (mkFrame (Message scenario_data) [x18; x07])
           (mkFrame (Message scenario_data) [x18; x07; x20; x01])
           [x20; x01]).
  - reflexivity.
  - apply Z.leb_le. reflexivity.
Defined.

(* ------------------------------------------------------------------ *)
(** ** MarshalToSizedBuffer on a buffer that is too short *)

Lemma slice_from_neg (buf : list byte) (i : Z) : i < 0 -> slice_from buf i = Panic.
Proof.
  intros Hi. unfold slice_from, slice.
  destruct (Z.leb_spec 0 i); [lia|reflexivity].
Qed.

Lemma copy_at_neg (buf src : list byte) (i : Z) : i < 0 -> copy_at buf i src = Panic.
Proof.
  intros Hi. unfold copy_at. rewrite slice_from_neg by assumption. reflexivity.
Qed.

Lemma store_neg (buf : list byte) (i : Z) (b : byte) : i < 0 -> store buf i b = Panic.
Proof.
  intros Hi. unfold store. destruct (Z.leb_spec 0 i); [lia|reflexivity].
Qed.

Lemma encodeVarintTunnel_short (buf : list byte) (i v : Z) :
  i < sovTunnel v -> encodeVarintTunnel buf i v = Panic.
Proof.
  intros Hi. unfold encodeVarintTunnel. rewrite encodeVarint_loop_S.
  destruct (128 <=? v); rewrite store_neg by lia; reflexivity.
Qed.

Lemma put_unrecognized_short (buf u : list byte) (i : Z) :
  0 <= i < len u -> put_unrecognized buf i u = Panic.
Proof.
  intros Hi. destruct u as [|x u]; [change (len (@nil byte)) with 0 in Hi; lia|].
  cbn [put_unrecognized]. rewrite copy_at_neg by lia. reflexivity.
Qed.

(** The length varint and the tag byte, with less room than they need. *)
Lemma varint_tag_short (buf0 done buf : list byte) (j v : Z) (tag : byte) :
  filled buf0 j done buf -> 0 <= v < 2 ^ 64 -> j < 1 + sovTunnel v ->
  ('(dAtA, i) <- encodeVarintTunnel buf j v ;;
   let i := i - 1 in
   dAtA <- store dAtA i tag ;;
   Ok (dAtA, i)) = Panic.
Proof.
  intros Hf Hv Hj.
  destruct (Z.lt_ge_cases j (sovTunnel v)) as [Hlt|Hge].
  - rewrite encodeVarintTunnel_short by assumption. reflexivity.
  - destruct (encodeVarint_filled _ _ _ _ v Hf Hv ltac:(lia)) as (b2 & -> & _).
    cbn [bind]. cbv zeta. rewrite store_neg by lia. reflexivity.
Qed.

Lemma put_field_short (buf0 done buf s : list byte) (i : Z) (tag : byte) :
  filled buf0 i done buf -> len s < 2 ^ 64 -> i < size_field (len s) ->
  put_field buf i tag s = Panic.
Proof.
  intros Hf Hs Hi. pose proof (len_nonneg s). pose proof Hf as (Hi0 & _).
  unfold put_field, size_field in *.
  destruct (Z.ltb_spec 0 (len s)); [|lia].
  rewrite uint64_small in * by lia.
  destruct (Z.lt_ge_cases i (len s)) as [Hlt|Hge].
  - rewrite copy_at_neg by lia. reflexivity.
  - destruct (copy_filled _ _ _ s _ Hf ltac:(lia)) as (b1 & -> & Hf1).
    cbn [bind].
    apply (varint_tag_short _ _ _ _ _ tag Hf1); lia.
Qed.

Lemma put_msg_short {M : Type} (Size : M -> Z) (wire : M -> list byte)
  (MTSB : M -> list byte -> outcome (list byte * Z)) (x : M)
  (buf0 done buf : list byte) (i : Z) (tag : byte) :
  writes_back Size wire MTSB x ->
  (forall b, len b < Size x -> MTSB x b = Panic) ->
  filled buf0 i done buf -> 0 <= Size x < 2 ^ 64 -> i < size_msg (Size x) ->
  put_msg MTSB buf i tag x = Panic.
Proof.
  intros (Hw & Hx) Hshort (Hi & Hl & ->) Hs Hsz.
  pose proof (len_nonneg done). pose proof (len_nonneg (wire x)).
  destruct (firstn_filled_prefix buf0 done i) as (E1 & E2 & E3); try lia.
  unfold put_msg. rewrite E1. cbn [bind].
  destruct (Z.lt_ge_cases i (Size x)) as [Hlt|Hge].
  - rewrite Hshort by lia. reflexivity.
  - rewrite Hx by lia. cbn [bind]. rewrite E2, E3.
    rewrite firstn_firstn, Nat.min_l by lia.
    assert (filled buf0 (i - Size x) (wire x ++ done)
              ((firstn (Z.to_nat (i - Size x)) buf0 ++ wire x) ++ done)) as Hf1.
    { unfold filled. rewrite len_app, <- app_assoc. repeat split; lia. }
    unfold size_msg in *. rewrite uint64_small in * by lia.
    apply (varint_tag_short _ _ _ _ _ tag Hf1); lia.
Qed.

Lemma Addr_MarshalToSizedBuffer_short (m : Addr) (buf : list byte) :
  Addr_Size m < 2 ^ 64 -> len buf < Addr_Size m ->
  Addr_MarshalToSizedBuffer m buf = Panic.
Proof.
  intros Hm Hbuf.
  destruct (Addr_Size_bounds m) as (Hn & Ha & H0).
  pose proof (slen_nonneg (Network m)). pose proof (slen_nonneg (Address m)).
  pose proof (len_nonneg (Addr_XXX_unrecognized m)). pose proof (len_nonneg buf).
  unfold Addr_MarshalToSizedBuffer, Addr_Size, slen in *.
  destruct (Z.lt_ge_cases (len buf) (len (Addr_XXX_unrecognized m))).
  { rewrite put_unrecognized_short by lia. reflexivity. }
  destruct (put_unrecognized_filled _ _ _ (Addr_XXX_unrecognized m) _
              (filled_init buf) ltac:(lia)) as (b1 & -> & Hf1).
  cbn [bind].
  destruct (Z.lt_ge_cases (len buf - len (Addr_XXX_unrecognized m))
              (size_field (len (list_byte_of_string (Address m))))).
  { rewrite (put_field_short _ _ _ _ _ x12 Hf1) by lia. reflexivity. }
  destruct (put_field_filled _ _ _ (list_byte_of_string (Address m)) _ x12
              Hf1 ltac:(lia) ltac:(lia)) as (b2 & -> & Hf2).
  cbn [bind].
  rewrite (put_field_short _ _ _ _ _ x0a Hf2) by lia. reflexivity.
Qed.

Lemma Data_MarshalToSizedBuffer_short (m : Data) (buf : list byte) :
  Data_Size m < 2 ^ 64 -> len buf < Data_Size m ->
  Data_MarshalToSizedBuffer m buf = Panic.
Proof.
  intros Hm Hbuf.
  destruct (Data_Size_bounds m) as (Hb & H0).
  pose proof (len_nonneg (Bytes m)).
  pose proof (len_nonneg (Data_XXX_unrecognized m)). pose proof (len_nonneg buf).
  unfold Data_MarshalToSizedBuffer, Data_Size in *.
  destruct (Z.lt_ge_cases (len buf) (len (Data_XXX_unrecognized m))).
  { rewrite put_unrecognized_short by lia. reflexivity. }
  destruct (put_unrecognized_filled _ _ _ (Data_XXX_unrecognized m) _
              (filled_init buf) ltac:(lia)) as (b1 & -> & Hf1).
  cbn [bind].
  rewrite (put_field_short _ _ _ _ _ x0a Hf1) by lia. reflexivity.
Qed.

Lemma DialRequest_MarshalToSizedBuffer_short (m : DialRequest) (buf : list byte) :
  DialRequest_Size m < 2 ^ 64 -> len buf < DialRequest_Size m ->
  DialRequest_MarshalToSizedBuffer m buf = Panic.
Proof.
  intros Hm Hbuf.
  destruct (DialRequest_Size_bounds m) as (Hs & Hc & Ht & H0).
  pose proof (slen_nonneg (ServerID m)). pose proof (slen_nonneg (ConnType m)).
  pose proof (len_nonneg (DialRequest_XXX_unrecognized m)).
  pose proof (len_nonneg buf).
  unfold DialRequest_MarshalToSizedBuffer, DialRequest_Size, slen in *.
  destruct (Z.lt_ge_cases (len buf) (len (DialRequest_XXX_unrecognized m))).
  { rewrite put_unrecognized_short by lia. reflexivity. }
  destruct (put_unrecognized_filled _ _ _ (DialRequest_XXX_unrecognized m) _
              (filled_init buf) ltac:(lia)) as (b1 & -> & Hf1).
  cbn [bind].
  assert (0 <= match To m with
               | Some a => size_msg (Addr_Size a)
               | None => 0
               end) as HszTo.
  { destruct (To m) as [a|]; [|lia]. destruct Ht as (Ht1 & Ht2). lia. }
  assert (exists b2 done2,
    (match To m with
     | Some a => put_msg Addr_MarshalToSizedBuffer b1
                   (len buf - len (DialRequest_XXX_unrecognized m)) x1a a
     | None => Ok (b1, len buf - len (DialRequest_XXX_unrecognized m))
     end = Panic)
    \/ (match To m with
        | Some a => put_msg Addr_MarshalToSizedBuffer b1
                      (len buf - len (DialRequest_XXX_unrecognized m)) x1a a
        | None => Ok (b1, len buf - len (DialRequest_XXX_unrecognized m))
        end
        = Ok (b2, len buf - len (DialRequest_XXX_unrecognized m)
                  - match To m with
                    | Some a => size_msg (Addr_Size a)
                    | None => 0
                    end)
        /\ filled buf
             (len buf - len (DialRequest_XXX_unrecognized m)
              - match To m with
                | Some a => size_msg (Addr_Size a)
                | None => 0
                end) done2 b2)) as (b2 & done2 & Hto).
  { destruct (To m) as [a|].
    - destruct (Addr_Size_bounds a) as (_ & _ & Ha0).
      pose proof (size_msg_bounds _ Ha0).
      assert (Addr_Size a < 2 ^ 64) as Ha64 by lia.
      destruct (Z.lt_ge_cases (len buf - len (DialRequest_XXX_unrecognized m))
                  (size_msg (Addr_Size a))).
      + exists [], []. left.
        apply (put_msg_short Addr_Size Addr_wire _ a _ _ _ _ x1a
                 (Addr_writes_back a Ha64)
                 (fun b => Addr_MarshalToSizedBuffer_short a b Ha64) Hf1);
          lia.
      + destruct (put_msg_filled Addr_Size Addr_wire _ a _ _ _ _ x1a
                    (Addr_writes_back a Ha64) Hf1 Ha64 ltac:(lia))
          as (b2 & E & Hf2).
        exists b2. eexists. right. split; [exact E|exact Hf2].
    - exists b1. eexists. right. rewrite Z.sub_0_r. split; [reflexivity|exact Hf1]. }
  destruct Hto as [-> | (-> & Hf2)]; [reflexivity|]. cbn [bind].
  match type of Hf2 with filled _ ?i2 _ _ =>
    destruct (Z.lt_ge_cases i2
                (size_field (len (list_byte_of_string (ConnType m)))))
  end.
  { rewrite (put_field_short _ _ _ _ _ x12 Hf2) by lia. reflexivity. }
  destruct (put_field_filled _ _ _ (list_byte_of_string (ConnType m)) _ x12
              Hf2 ltac:(lia) ltac:(lia)) as (b3 & -> & Hf3).
  cbn [bind].
  rewrite (put_field_short _ _ _ _ _ x0a Hf3) by lia. reflexivity.
Qed.

Lemma Frame_MarshalToSizedBuffer_short (m : Frame) (buf : list byte) :
  Frame_Size m < 2 ^ 64 -> len buf < Frame_Size m ->
  Frame_MarshalToSizedBuffer m buf = Panic.
Proof.
  intros Hm Hbuf.
  destruct (Frame_Size_bounds m) as (Hx & H0).
  pose proof (len_nonneg (Frame_XXX_unrecognized m)). pose proof (len_nonneg buf).
  unfold Frame_MarshalToSizedBuffer, Frame_Size in *.
  destruct (Z.lt_ge_cases (len buf) (len (Frame_XXX_unrecognized m))).
  { rewrite put_unrecognized_short by lia. reflexivity. }
  destruct (put_unrecognized_filled _ _ _ (Frame_XXX_unrecognized m) _
              (filled_init buf) ltac:(lia)) as (b1 & -> & Hf1).
  cbn [bind].
  destruct (Message m) as [x|]; [|lia].
  cbv zeta. rewrite slice_from_neg by lia. reflexivity.
Qed.

(** X19.  MarshalToSizedBuffer needs a buffer of at least Size() bytes.  On a
    shorter one it panics with an index or a slice bound out of range: it
    returns neither an error nor a cut encoding.  This holds for all four
    messages. *)
Theorem MarshalToSizedBuffer_short_buffer_panics :
  (forall (m : Frame) (buf : list byte),
     Frame_Size m <= MaxInt -> len buf < Frame_Size m ->
     Frame_MarshalToSizedBuffer m buf = Panic)
  /\ (forall (m : DialRequest) (buf : list byte),
     DialRequest_Size m <= MaxInt -> len buf < DialRequest_Size m ->
     DialRequest_MarshalToSizedBuffer m buf = Panic)
  /\ (forall (m : Addr) (buf : list byte),
     Addr_Size m <= MaxInt -> len buf < Addr_Size m ->
     Addr_MarshalToSizedBuffer m buf = Panic)
  /\ (forall (m : Data) (buf : list byte),
     Data_Size m <= MaxInt -> len buf < Data_Size m ->
     Data_MarshalToSizedBuffer m buf = Panic).
Proof.
  pose proof MaxInt_lt_pow64.
  repeat split; intros m buf Hm Hb.
  - apply Frame_MarshalToSizedBuffer_short; lia.
  - apply DialRequest_MarshalToSizedBuffer_short; lia.
  - apply Addr_MarshalToSizedBuffer_short; lia.
  - apply Data_MarshalToSizedBuffer_short; lia.
Qed.

Lemma MarshalToSizedBuffer_short_buffer_panics_witness :
  Frame_MarshalToSizedBuffer scenario_frame (repeat x00 34) = Panic.
Proof.
  destruct MarshalToSizedBuffer_short_buffer_panics as (H & _).
  apply (H scenario_frame (repeat x00 34)).
  - apply Z.leb_le. reflexivity.
  - reflexivity.
Defined.
